(** * LidarMapViewer navigation core (src/self_drive.py)

    A shallow embedding of the occupancy grid, the frame transform, the A*
    planner and the navigation state machine of [LidarMapViewer], followed by
    the properties of the specification stated against that embedding.
    The text of the scan packets, the program on the robot
    (src/main_server.py) and the motion server (src/motion.py) are embedded
    after the viewer, and their properties follow those of the viewer.

    Conventions.
    - Grid indices, path cells, counters and scores are Python [int]s: [Z].
    - The occupancy grid is an 80 x 80 [numpy.float32] array: a list of rows
      of rationals.  Every float32 result stored in it goes through the
      rounding function [rnd] of section [GridEngine]; the properties only
      assume of [rnd] what round-to-nearest gives on the range of the grid.
    - Headings and the timestamps of the viewer are Python [float]s.  They
      are modelled as rationals with exact arithmetic; on the headings the
      program reaches (multiples of 90 below 360) double arithmetic is exact.
    - Sensor readings are doubles, and what the programs compute from them
      is rounded: every sum, difference, product and quotient of the frame
      transform, of the grid indices, of the scan processing and of the
      clock of the streamer gives its result through [fl], the rounding of a
      real number to a double.  The properties hold for every [fl];
      [binary64] is the rounding of IEEE 754, written out for the examples.
    - [math.sin (math.radians a)] and [math.cos (math.radians a)] are library
      functions: parameters [sin_deg] and [cos_deg].
    - The TCP link to the robot is an oracle [net] that gives the outcome of
      the k-th connection attempt; every attempt is appended to [wire_log]. *)

From Stdlib Require Import ZArith QArith Qround Qabs Lia Lqa List Bool String.
From stdpp Require Import base option list gmap.

Local Open Scope Z_scope.

(** ** Configuration constants *)

Module Config.

(** [GRID_DIMENSION = int(MAP_SIZE_METERS * 1000 / CELL_SIZE_MM)] *)
Definition MAP_SIZE_MM : Z := 4000.
Definition CELL_SIZE_MM : Z := 50.
Definition GRID_DIMENSION : Z := MAP_SIZE_MM / CELL_SIZE_MM.
Definition MAX_LIDAR_RANGE_MM_DISPLAY : Q := 4000.
Definition LIDAR_MOUNTING_OFFSET_DEG : Q := 0.

Definition HIT_INCREMENT : Q := 25.
Definition DECAY_RATE : Q := 9 # 10.
Definition MAX_CELL_VALUE : Q := 150.
Definition RENDER_THRESHOLD : Q := 40.
Definition CLEAR_BELOW_VALUE : Q := 10.

Definition ACTION_DURATION_S : Q := 12 # 10.

(** [max_iterations = GRID_DIMENSION * GRID_DIMENSION * 1.5]; the loop runs
    while [iterations < max_iterations], that is at most 9600 times. *)
Definition max_iterations : nat := Z.to_nat (GRID_DIMENSION * GRID_DIMENSION * 3 / 2).

End Config.
Export Config.

(** ** Python arithmetic on floats *)

(** [x % m] for a positive [m], exact: the result has the sign of the
    divisor. *)
Definition py_mod (x m : Q) : Q := Qred (x - m * inject_Z (Qfloor (x / m))).

(** [int(x)] truncates toward zero. *)
Definition py_int (x : Q) : Z := Z.quot (Qnum x) (Zpos (Qden x)).

(** C's [fmod]: the remainder of the quotient truncated toward zero; it is
    a double whenever its arguments are. *)
Definition c_fmod (x m : Q) : Q := Qred (x - m * inject_Z (py_int (x / m))).

(** [x % m] on doubles, as CPython's [float_rem] computes it: [fmod], then
    one addition of the divisor, rounded by [fl], when the remainder is not
    zero and has the other sign. *)
Definition float_mod (fl : Q -> Q) (x m : Q) : Q :=
  let r := c_fmod x m in
  if Qeq_bool r 0 then 0%Q
  else if xorb (if Qlt_le_dec m 0 then true else false)
               (if Qlt_le_dec r 0 then true else false)
       then fl (r + m)%Q
       else r.

(** The nearest integer, a tie going to the even one: how IEEE 754 rounds
    a significand and how [f"{x:.0f}"] rounds a number. *)
Definition round_half_even (x : Q) : Z :=
  let f := Qfloor x in
  match Qcompare (x - inject_Z f)%Q (1 # 2) with
  | Lt => f
  | Gt => f + 1
  | Eq => if Z.even f then f else f + 1
  end.

(** The IEEE 754 binary64 number nearest to [x], a tie going to the even
    significand: [e] is the exponent of [x], not below that of the subnormal
    numbers, and the significand has 53 bits.  Magnitudes are taken below
    2^1024: no overflow. *)
Definition binary64 (x : Q) : Q :=
  if Qeq_bool x 0 then 0%Q
  else
    let a := Qabs x in
    let e0 := Z.log2 (Qnum a) - Z.log2 (Zpos (Qden a)) in
    let e1 := if Qlt_le_dec a (Qpower 2 e0) then e0 - 1 else e0 in
    let e := Z.max e1 (-1022) in
    let ulp := Qpower 2 (e - 52) in
    let m := round_half_even (a / ulp)%Q in
    Qred ((if Qlt_le_dec x 0 then - inject_Z m else inject_Z m) * ulp)%Q.

(** [min(a, b)] returns [b] only when [b < a]. *)
Definition py_min (a b : Q) : Q := if Qlt_le_dec b a then b else a.

Definition Qltb (a b : Q) : bool := if Qlt_le_dec a b then true else false.

(** ** Occupancy grid *)

Abbreviation cell := (Z * Z)%type (only parsing).

Abbreviation grid := (list (list Q)) (only parsing).

(** [np.zeros((GRID_DIMENSION, GRID_DIMENSION))], also the result of [fill(0)]. *)
Definition zeros : grid :=
  replicate (Z.to_nat GRID_DIMENSION) (replicate (Z.to_nat GRID_DIMENSION) 0%Q).

(** The shape of the array never changes. *)
Definition grid_shape (g : grid) : Prop :=
  length g = Z.to_nat GRID_DIMENSION /\
  Forall (fun row => length row = Z.to_nat GRID_DIMENSION) g.

Definition in_bounds (r c : Z) : bool :=
  (0 <=? r) && (r <? GRID_DIMENSION) && (0 <=? c) && (c <? GRID_DIMENSION).

(** [occupancy_grid[r, c]], read only behind a bounds check. *)
Definition grid_get (g : grid) (r c : Z) : option Q :=
  g !! Z.to_nat r ≫= fun row => row !! Z.to_nat c.

(** [occupancy_grid[r, c] = f(occupancy_grid[r, c])] *)
Definition grid_alter (f : Q -> Q) (g : grid) (r c : Z) : grid :=
  alter (alter f (Z.to_nat c)) (Z.to_nat r) g.

(** [_is_valid_and_clear] *)
Definition is_valid_and_clear (g : grid) (r c : Z) : bool :=
  in_bounds r c &&
  match grid_get g r c with
  | Some v => Qltb v RENDER_THRESHOLD
  | None => false
  end.

(** A point of a scan packet after [split(',')] and [float(...)]: a point
    that does not parse is skipped by the [continue] of the loop. *)
Inductive lidar_point : Type :=
  | Malformed
  | Reading (angle_deg_raw dist_mm : Q).

(** What the loop body of [_update_occupancy_grid] does with one point. *)
Inductive point_outcome : Type :=
  | SkippedMalformed
  | RejectedRange
  | DiscardedOutside (grid_row grid_col : Z)
  | Hit (grid_row grid_col : Z).

Section GridEngine.

(** Rounding of a real result to float32. *)
Variable rnd : Q -> Q.
(** Rounding of a real result to a double: every operation on Python
    [float]s gives the rounded result. *)
Variable fl : Q -> Q.
Variables sin_deg cos_deg : Q -> Q.

(** [occupancy_grid *= DECAY_RATE] then
    [occupancy_grid[occupancy_grid < CLEAR_BELOW_VALUE] = 0.0], on one cell. *)
Definition decay_cell (v : Q) : Q :=
  let w := rnd (v * rnd DECAY_RATE) in
  if Qlt_le_dec w CLEAR_BELOW_VALUE then 0%Q else w.

Definition decay_grid (g : grid) : grid := map (map decay_cell) g.

(** [min(current_val + HIT_INCREMENT, MAX_CELL_VALUE)] *)
Definition hit_cell (v : Q) : Q := py_min (rnd (v + HIT_INCREMENT)) MAX_CELL_VALUE.

(** [_polar_to_cartesian_map_frame]: two sums and two remainders on
    doubles, then [math.radians], [math.sin] and [math.cos], and a rounded
    product for each coordinate. *)
Definition angle_in_map_coords_deg (heading angle_deg_raw : Q) : Q :=
  let angle_relative_to_robot_front_deg :=
    float_mod fl (fl (angle_deg_raw + LIDAR_MOUNTING_OFFSET_DEG)%Q) 360 in
  float_mod fl (fl (angle_relative_to_robot_front_deg + heading)%Q) 360.

Definition polar_to_cartesian_map_frame (heading angle_deg_raw distance_mm : Q) : Q * Q :=
  let a := angle_in_map_coords_deg heading angle_deg_raw in
  (fl (distance_mm * sin_deg a)%Q, fl (distance_mm * cos_deg a)%Q).

Definition grid_center_x_cell : Z := GRID_DIMENSION / 2.
Definition grid_center_y_cell : Z := GRID_DIMENSION / 2.

(** [int(self.grid_center_x_cell + (x_map_mm / CELL_SIZE_MM) + 0.5)]: the
    quotient, the sum with the centre and the sum with the bias are each
    rounded to a double before [int] truncates. *)
Definition grid_col_of (x_map_mm : Q) : Z :=
  py_int (fl (fl (inject_Z grid_center_x_cell + fl (x_map_mm / inject_Z CELL_SIZE_MM))
              + (1 # 2))%Q).
(** [int(self.grid_center_y_cell - (y_map_mm / CELL_SIZE_MM) + 0.5)] *)
Definition grid_row_of (y_map_mm : Q) : Z :=
  py_int (fl (fl (inject_Z grid_center_y_cell - fl (y_map_mm / inject_Z CELL_SIZE_MM))
              + (1 # 2))%Q).

Definition classify_point (heading : Q) (p : lidar_point) : point_outcome :=
  match p with
  | Malformed => SkippedMalformed
  | Reading angle_deg_raw dist_mm =>
      if Qltb 0 dist_mm && negb (Qltb MAX_LIDAR_RANGE_MM_DISPLAY dist_mm) then
        let '(x_map_mm, y_map_mm) :=
          polar_to_cartesian_map_frame heading angle_deg_raw dist_mm in
        let grid_col := grid_col_of x_map_mm in
        let grid_row := grid_row_of y_map_mm in
        if in_bounds grid_row grid_col then Hit grid_row grid_col
        else DiscardedOutside grid_row grid_col
      else RejectedRange
  end.

Definition integrate_point (heading : Q) (g : grid) (p : lidar_point) : grid :=
  match classify_point heading p with
  | Hit grid_row grid_col => grid_alter hit_cell g grid_row grid_col
  | _ => g
  end.

(** [_update_occupancy_grid]: one decay, then the points of the packet. *)
Definition update_occupancy_grid (heading : Q) (g : grid) (points : list lidar_point) : grid :=
  fold_left (integrate_point heading) points (decay_grid g).

(** [_process_queued_data]: at most two packets per cycle; one decay when
    no packet was processed and the feed is connected. *)
Definition process_queued_data (running : bool) (heading : Q)
    (g : grid) (queue : list (list lidar_point)) : grid * list (list lidar_point) :=
  match queue with
  | [] => if running then (decay_grid g, []) else (g, [])
  | p1 :: [] => (update_occupancy_grid heading g p1, [])
  | p1 :: p2 :: rest =>
      (update_occupancy_grid heading (update_occupancy_grid heading g p1) p2, rest)
  end.

End GridEngine.

(** ** Path planner *)

Module Planner.

(** Entries of the [heapq] priority queue: [(f_score, count, cell)]. *)
Abbreviation heap_entry := (Z * Z * cell)%type (only parsing).

(** Tuple comparison, lexicographic. *)
Definition entry_ltb (a b : heap_entry) : bool :=
  let '(fa, ca, (ra, ka)) := a in
  let '(fb, cb, (rb, kb)) := b in
  (fa <? fb) || ((fa =? fb) &&
    ((ca <? cb) || ((ca =? cb) &&
      ((ra <? rb) || ((ra =? rb) && (ka <? kb)))))).

(** [heapq.heappop] returns the smallest entry and [heapq.heappush] adds
    one.  The queue is kept as the sorted list of its entries, so that
    popping takes the head; every entry carries its own [count], hence no
    two entries compare equal and the order of the pops is the same. *)
Fixpoint heappush (h : list heap_entry) (e : heap_entry) : list heap_entry :=
  match h with
  | [] => [e]
  | x :: t => if entry_ltb e x then e :: x :: t else x :: heappush t e
  end.

(** [_heuristic]: Manhattan distance. *)
Definition heuristic (c goal : cell) : Z :=
  Z.abs (c.1 - goal.1) + Z.abs (c.2 - goal.2).

(** The local variables of the search.  [g_score] and [f_score] hold
    [float('inf')] for every cell of the grid at first: a missing key
    stands for infinity. *)
Record astar_state : Type := mkAstar {
  open_set : list heap_entry;
  open_set_hash : gset cell;
  came_from : gmap cell cell;
  g_score : gmap cell Z;
  f_score : gmap cell Z;
  count : Z
}.

Inductive fail_reason : Type := GoalNotSet | GoalBlocked | NoPathFoundByAStar.

(** What the planner thread posts back: [_path_planning_succeeded path] or
    [_path_planning_failed reason]. *)
Inductive plan_result : Type :=
  | PathFound (path : list cell)
  | PlanningFailed (reason : fail_reason).

(** [for dr, dc in [(0, 1), (0, -1), (1, 0), (-1, 0)]] *)
Definition neighbour_offsets : list (Z * Z) := [(0, 1); (0, -1); (1, 0); (-1, 0)].

Section Search.

(** [_is_valid_and_clear] on the grid the search reads. *)
Variable clear : Z -> Z -> bool.
Variable goal : cell.

(** The body of [if tentative_g_score < g_score[neighbor]]: the better way
    to [neighbor] is recorded, and [neighbor] is pushed unless it is in the
    queue already. *)
Definition improve (current_cell neighbor : cell) (tentative_g_score : Z)
    (s : astar_state) : astar_state :=
  let came_from' := <[neighbor := current_cell]> (came_from s) in
  let g_score' := <[neighbor := tentative_g_score]> (g_score s) in
  let f_neighbor := tentative_g_score + heuristic neighbor goal in
  let f_score' := <[neighbor := f_neighbor]> (f_score s) in
  if bool_decide (neighbor ∈ open_set_hash s) then
    mkAstar (open_set s) (open_set_hash s) came_from' g_score' f_score' (count s)
  else
    let count' := count s + 1 in
    mkAstar (heappush (open_set s) (f_neighbor, count', neighbor))
            (open_set_hash s ∪ {[neighbor]})
            came_from' g_score' f_score' count'.

(** [tentative_g_score < g_score[neighbor]], infinity for a missing key. *)
Definition is_better (tentative_g_score : Z) (g_neighbor : option Z) : bool :=
  match g_neighbor with
  | None => true
  | Some g => tentative_g_score <? g
  end.

(** The body of the loop over the neighbours of [current_cell]. *)
Definition relax (current_cell : cell) (s : astar_state) (d : Z * Z) : astar_state :=
  let neighbor : cell := (current_cell.1 + d.1, current_cell.2 + d.2) in
  if clear neighbor.1 neighbor.2 then
    match g_score s !! current_cell with
    | None => s
    | Some g_current =>
        let tentative_g_score := g_current + 1 in
        if is_better tentative_g_score (g_score s !! neighbor)
        then improve current_cell neighbor tentative_g_score s
        else s
    end
  else s.

(** [while open_set and iterations < max_iterations]: [fuel] is the
    number of iterations left.  The result is [path_found] and the
    variables at the exit of the loop. *)
Fixpoint astar_loop (fuel : nat) (s : astar_state) : bool * astar_state :=
  match fuel with
  | O => (false, s)
  | S fuel' =>
      match open_set s with
      | [] => (false, s)
      | (_, _, current_cell) :: rest =>
          let s1 := mkAstar rest (open_set_hash s ∖ {[current_cell]})
                            (came_from s) (g_score s) (f_score s) (count s) in
          if bool_decide (current_cell = goal) then (true, s1)
          else astar_loop fuel' (fold_left (relax current_cell) neighbour_offsets s1)
      end
  end.

End Search.

(** [while temp in came_from: path.append(temp); temp = came_from[temp]].
    A walk through more links than [came_from] has keys is in a cycle and
    never leaves the loop: [None]. *)
Fixpoint reconstruct (fuel : nat) (cf : gmap cell cell) (temp : cell)
    (path : list cell) : option (list cell) :=
  match cf !! temp with
  | None => Some path
  | Some parent =>
      match fuel with
      | O => None
      | S fuel' => reconstruct fuel' cf parent (path ++ [temp])
      end
  end.

Definition cell_eqb (a b : cell) : bool := (a.1 =? b.1) && (a.2 =? b.2).

Definition initial_search (start_cell goal : cell) : astar_state :=
  mkAstar [(heuristic start_cell goal, 0, start_cell)]
          {[start_cell]} ∅ {[start_cell := 0]}
          {[start_cell := heuristic start_cell goal]} 0.

(** [_plan_path_threaded], as a function of what it reads: the grid, the
    logical robot cell and the goal.  [None] is the walk of the parent
    links that does not end. *)
Definition plan_path (g : grid) (start_cell : cell) (goal : option cell)
    : option plan_result :=
  match goal with
  | None => Some (PlanningFailed GoalNotSet)
  | Some current_goal_cell =>
      if negb (is_valid_and_clear g current_goal_cell.1 current_goal_cell.2)
      then Some (PlanningFailed GoalBlocked)
      else
        let '(path_found, s) :=
          astar_loop (is_valid_and_clear g) current_goal_cell max_iterations
                     (initial_search start_cell current_goal_cell) in
        if path_found then
          match reconstruct (S (size (came_from s))) (came_from s) current_goal_cell [] with
          | None => None
          | Some path =>
              let path := rev path in
              let path :=
                match path with
                | first :: tl => if cell_eqb first start_cell then tl else path
                | [] => path
                end in
              Some (PathFound path)
          end
        else Some (PlanningFailed NoPathFoundByAStar)
  end.

End Planner.

(** ** Navigation controller *)

Module Nav.

Import Planner.

Inductive nav_state : Type :=
  | NAV_STATE_IDLE
  | NAV_STATE_PLANNING
  | NAV_STATE_AWAITING_NEXT_STEP
  | NAV_STATE_TURNING_LEFT
  | NAV_STATE_TURNING_RIGHT
  | NAV_STATE_MOVING_FORWARD
  | NAV_STATE_REACHED_GOAL
  | NAV_STATE_PATH_BLOCKED
  | NAV_STATE_NO_PATH_FOUND
  | NAV_STATE_ROBOT_CMD_ERROR.

Definition nav_state_eqb (a b : nav_state) : bool :=
  match a, b with
  | NAV_STATE_IDLE, NAV_STATE_IDLE
  | NAV_STATE_PLANNING, NAV_STATE_PLANNING
  | NAV_STATE_AWAITING_NEXT_STEP, NAV_STATE_AWAITING_NEXT_STEP
  | NAV_STATE_TURNING_LEFT, NAV_STATE_TURNING_LEFT
  | NAV_STATE_TURNING_RIGHT, NAV_STATE_TURNING_RIGHT
  | NAV_STATE_MOVING_FORWARD, NAV_STATE_MOVING_FORWARD
  | NAV_STATE_REACHED_GOAL, NAV_STATE_REACHED_GOAL
  | NAV_STATE_PATH_BLOCKED, NAV_STATE_PATH_BLOCKED
  | NAV_STATE_NO_PATH_FOUND, NAV_STATE_NO_PATH_FOUND
  | NAV_STATE_ROBOT_CMD_ERROR, NAV_STATE_ROBOT_CMD_ERROR => true
  | _, _ => false
  end.

(** [state in [...]] *)
Definition state_in (s : nav_state) (l : list nav_state) : bool :=
  existsb (nav_state_eqb s) l.

(** How the connect-send-close exchange of [send_command] ends: normally,
    or in one of its three [except] clauses. *)
Inductive transport_result : Type :=
  | Delivered
  | SocketTimeout
  | ConnectionRefused
  | OtherException.

(** The callback a pending [root.after] timer of [action_timer_id] runs. *)
Inductive timer_callback : Type :=
  | OnActionCompleted
  | OnActionCompletedNoCommand.

(** The attributes of [LidarMapViewer] the navigation core reads or
    writes.  [planner_alive] is [path_planner_thread.is_alive()],
    [planner_callbacks] the calls the planner thread has posted with
    [root.after(0, ...)], [wire_log] the connection attempts made so far. *)
Record viewer : Type := mkViewer {
  occupancy_grid : grid;
  data_queue : list (list lidar_point);
  is_udp_running : bool;
  navigation_goal_cell : option cell;
  current_path : list cell;
  current_logical_robot_cell_on_path : cell;
  navigation_state : nav_state;
  robot_orientation_map_deg : Q;
  current_action_end_time : Q;
  action_timer_id : option timer_callback;
  planner_alive : bool;
  planner_callbacks : list plan_result;
  last_command_sent_successful : bool;
  wire_log : list (string * transport_result)
}.

Definition set_occupancy_grid (x : grid) (v : viewer) : viewer :=
  mkViewer x (data_queue v) (is_udp_running v) (navigation_goal_cell v) (current_path v)
    (current_logical_robot_cell_on_path v) (navigation_state v) (robot_orientation_map_deg v)
    (current_action_end_time v) (action_timer_id v) (planner_alive v) (planner_callbacks v)
    (last_command_sent_successful v) (wire_log v).
Definition set_data_queue (x : list (list lidar_point)) (v : viewer) : viewer :=
  mkViewer (occupancy_grid v) x (is_udp_running v) (navigation_goal_cell v) (current_path v)
    (current_logical_robot_cell_on_path v) (navigation_state v) (robot_orientation_map_deg v)
    (current_action_end_time v) (action_timer_id v) (planner_alive v) (planner_callbacks v)
    (last_command_sent_successful v) (wire_log v).
Definition set_is_udp_running (x : bool) (v : viewer) : viewer :=
  mkViewer (occupancy_grid v) (data_queue v) x (navigation_goal_cell v) (current_path v)
    (current_logical_robot_cell_on_path v) (navigation_state v) (robot_orientation_map_deg v)
    (current_action_end_time v) (action_timer_id v) (planner_alive v) (planner_callbacks v)
    (last_command_sent_successful v) (wire_log v).
Definition set_navigation_goal_cell (x : option cell) (v : viewer) : viewer :=
  mkViewer (occupancy_grid v) (data_queue v) (is_udp_running v) x (current_path v)
    (current_logical_robot_cell_on_path v) (navigation_state v) (robot_orientation_map_deg v)
    (current_action_end_time v) (action_timer_id v) (planner_alive v) (planner_callbacks v)
    (last_command_sent_successful v) (wire_log v).
Definition set_current_path (x : list cell) (v : viewer) : viewer :=
  mkViewer (occupancy_grid v) (data_queue v) (is_udp_running v) (navigation_goal_cell v) x
    (current_logical_robot_cell_on_path v) (navigation_state v) (robot_orientation_map_deg v)
    (current_action_end_time v) (action_timer_id v) (planner_alive v) (planner_callbacks v)
    (last_command_sent_successful v) (wire_log v).
Definition set_navigation_state (x : nav_state) (v : viewer) : viewer :=
  mkViewer (occupancy_grid v) (data_queue v) (is_udp_running v) (navigation_goal_cell v)
    (current_path v) (current_logical_robot_cell_on_path v) x (robot_orientation_map_deg v)
    (current_action_end_time v) (action_timer_id v) (planner_alive v) (planner_callbacks v)
    (last_command_sent_successful v) (wire_log v).
Definition set_robot_orientation_map_deg (x : Q) (v : viewer) : viewer :=
  mkViewer (occupancy_grid v) (data_queue v) (is_udp_running v) (navigation_goal_cell v)
    (current_path v) (current_logical_robot_cell_on_path v) (navigation_state v) x
    (current_action_end_time v) (action_timer_id v) (planner_alive v) (planner_callbacks v)
    (last_command_sent_successful v) (wire_log v).
Definition set_current_action_end_time (x : Q) (v : viewer) : viewer :=
  mkViewer (occupancy_grid v) (data_queue v) (is_udp_running v) (navigation_goal_cell v)
    (current_path v) (current_logical_robot_cell_on_path v) (navigation_state v)
    (robot_orientation_map_deg v) x (action_timer_id v) (planner_alive v) (planner_callbacks v)
    (last_command_sent_successful v) (wire_log v).
Definition set_action_timer_id (x : option timer_callback) (v : viewer) : viewer :=
  mkViewer (occupancy_grid v) (data_queue v) (is_udp_running v) (navigation_goal_cell v)
    (current_path v) (current_logical_robot_cell_on_path v) (navigation_state v)
    (robot_orientation_map_deg v) (current_action_end_time v) x (planner_alive v)
    (planner_callbacks v) (last_command_sent_successful v) (wire_log v).
Definition set_planner_alive (x : bool) (v : viewer) : viewer :=
  mkViewer (occupancy_grid v) (data_queue v) (is_udp_running v) (navigation_goal_cell v)
    (current_path v) (current_logical_robot_cell_on_path v) (navigation_state v)
    (robot_orientation_map_deg v) (current_action_end_time v) (action_timer_id v) x
    (planner_callbacks v) (last_command_sent_successful v) (wire_log v).
Definition set_planner_callbacks (x : list plan_result) (v : viewer) : viewer :=
  mkViewer (occupancy_grid v) (data_queue v) (is_udp_running v) (navigation_goal_cell v)
    (current_path v) (current_logical_robot_cell_on_path v) (navigation_state v)
    (robot_orientation_map_deg v) (current_action_end_time v) (action_timer_id v)
    (planner_alive v) x (last_command_sent_successful v) (wire_log v).
Definition set_last_command_sent_successful (x : bool) (v : viewer) : viewer :=
  mkViewer (occupancy_grid v) (data_queue v) (is_udp_running v) (navigation_goal_cell v)
    (current_path v) (current_logical_robot_cell_on_path v) (navigation_state v)
    (robot_orientation_map_deg v) (current_action_end_time v) (action_timer_id v)
    (planner_alive v) (planner_callbacks v) x (wire_log v).
Definition set_wire_log (x : list (string * transport_result)) (v : viewer) : viewer :=
  mkViewer (occupancy_grid v) (data_queue v) (is_udp_running v) (navigation_goal_cell v)
    (current_path v) (current_logical_robot_cell_on_path v) (navigation_state v)
    (robot_orientation_map_deg v) (current_action_end_time v) (action_timer_id v)
    (planner_alive v) (planner_callbacks v) (last_command_sent_successful v) x.

(** [LidarMapViewer.__init__] *)
Definition init_viewer : viewer :=
  mkViewer zeros [] false None [] (grid_center_y_cell, grid_center_x_cell)
           NAV_STATE_IDLE 0%Q 0%Q None false [] true [].

(** The heading after a left turn, [(h - 90.0 + 360.0) % 360.0], and after
    a right turn, [(h + 90.0) % 360.0]. *)
Definition turned_left (h : Q) : Q := py_mod (h - 90 + 360) 360.
Definition turned_right (h : Q) : Q := py_mod (h + 90) 360.

(** The required move toward the head of the path. *)
Inductive step_kind : Type :=
  | Cardinal (target_orientation_deg : Q)
  | SameCell
  | InvalidStep.

Definition classify_step (dr dc : Z) : step_kind :=
  if (dr =? -1) && (dc =? 0) then Cardinal 0
  else if (dr =? 1) && (dc =? 0) then Cardinal 180
  else if (dr =? 0) && (dc =? -1) then Cardinal 270
  else if (dr =? 0) && (dc =? 1) then Cardinal 90
  else if (dr =? 0) && (dc =? 0) then SameCell
  else InvalidStep.

Definition angle_tolerance : Q := 1.

Definition orientation_diff (target heading : Q) : Q :=
  py_mod (target - heading + 360) 360.

Definition needs_turn (diff : Q) : bool :=
  negb (Qltb (Qabs diff) angle_tolerance || Qltb (Qabs (diff - 360)) angle_tolerance).

(** [diff > (a - angle_tolerance) and diff < (a + angle_tolerance)] *)
Definition near (a diff : Q) : bool :=
  Qltb (a - angle_tolerance) diff && Qltb diff (a + angle_tolerance).

Inductive motion_choice : Type :=
  | ChooseForward
  | ChooseRight
  | ChooseLeft
  | UnhandledTurn.

(** The [if not needs_turn ... else ...] cascade.  [command_to_send is
    None] holds at each of its tests. *)
Definition choose_motion (target heading : Q) : motion_choice :=
  let diff := orientation_diff target heading in
  if negb (needs_turn diff) then ChooseForward
  else if near 90 diff || (near 180 diff && true) then ChooseRight
  else if near 270 diff then ChooseLeft
  else if near 180 diff && true then ChooseRight
  else UnhandledTurn.

Definition goal_is (v : viewer) (c : cell) : bool :=
  match navigation_goal_cell v with
  | Some g => cell_eqb g c
  | None => false
  end.

Section Machine.

Variable rnd : Q -> Q.
Variables fl sin_deg cos_deg : Q -> Q.
(** The outcome of the k-th connection attempt. *)
Variable net : nat -> transport_result.

(** [_handle_command_send_error] *)
Definition handle_command_send_error (v : viewer) : viewer :=
  let v := set_last_command_sent_successful false v in
  let v := set_action_timer_id None v in
  if negb (state_in (navigation_state v)
             [NAV_STATE_IDLE; NAV_STATE_REACHED_GOAL; NAV_STATE_NO_PATH_FOUND])
  then set_navigation_state NAV_STATE_ROBOT_CMD_ERROR v
  else v.

(** [send_command] *)
Definition send_command (command : string) (v : viewer) : bool * viewer :=
  if nav_state_eqb (navigation_state v) NAV_STATE_IDLE && negb (String.eqb command "S")
  then (false, v)
  else
    let outcome := net (length (wire_log v)) in
    let v := set_wire_log (wire_log v ++ [(command, outcome)]) v in
    match outcome with
    | Delivered => (true, set_last_command_sent_successful true v)
    | SocketTimeout | ConnectionRefused | OtherException =>
        (false, handle_command_send_error v)
    end.

(** [_stop_udp_listener] *)
Definition stop_udp_listener (v : viewer) : viewer :=
  if is_udp_running v then set_is_udp_running false v else v.

(** [_start_udp_listener]; [bind_ok] tells whether the socket could be
    opened, bound and its thread started. *)
Definition start_udp_listener (bind_ok : bool) (v : viewer) : viewer :=
  if is_udp_running v then v
  else
    let v := set_occupancy_grid zeros v in
    let v := set_robot_orientation_map_deg 0%Q v in
    set_is_udp_running bind_ok v.

(** [_toggle_connection]; [ip_given] tells whether the address entry is
    non-empty. *)
Definition toggle_connection (ip_given bind_ok : bool) (v : viewer) : viewer :=
  if is_udp_running v then
    let v :=
      if negb (state_in (navigation_state v)
                 [NAV_STATE_IDLE; NAV_STATE_REACHED_GOAL; NAV_STATE_NO_PATH_FOUND;
                  NAV_STATE_ROBOT_CMD_ERROR])
      then snd (send_command "S" v) else v in
    let v := stop_udp_listener v in
    let v := set_navigation_state NAV_STATE_IDLE v in
    let v := set_navigation_goal_cell None v in
    let v := set_current_path [] v in
    let v := set_robot_orientation_map_deg 0%Q v in
    set_action_timer_id None v
  else if ip_given then start_udp_listener bind_ok v
  else v.

(** [_udp_receive_loop], one packet: the oldest is dropped when the queue
    of five is full. *)
Definition udp_receive (packet : list lidar_point) (v : viewer) : viewer :=
  if is_udp_running v then
    let q := data_queue v in
    let q := if (5 <=? length q)%nat then tl q else q in
    set_data_queue (q ++ [packet]) v
  else v.

(** Starting [threading.Thread(target=self._plan_path_threaded)]. *)
Definition start_planner_thread (v : viewer) : viewer := set_planner_alive true v.

(** [_handle_map_click]; [confirm] is the answer to the "Navigation
    Busy" dialog, the clicked cell is what the pointer position gives. *)
Definition handle_map_click (confirm : bool) (clicked_row clicked_col : Z)
    (v : viewer) : viewer :=
  if negb (is_udp_running v) then v
  else
    let busy := state_in (navigation_state v)
                  [NAV_STATE_TURNING_LEFT; NAV_STATE_TURNING_RIGHT;
                   NAV_STATE_MOVING_FORWARD; NAV_STATE_PLANNING] in
    if busy && negb confirm then v
    else
      let v :=
        if busy then
          let v := snd (send_command "S" v) in
          let v := set_action_timer_id None v in
          let v := set_navigation_state NAV_STATE_IDLE v in
          set_current_path [] v
        else v in
      if in_bounds clicked_row clicked_col then
        match grid_get (occupancy_grid v) clicked_row clicked_col with
        | Some value =>
            if negb (Qltb value RENDER_THRESHOLD) then v
            else
              let v := set_navigation_goal_cell (Some (clicked_row, clicked_col)) v in
              let v := set_current_path [] v in
              let v := set_navigation_state NAV_STATE_PLANNING v in
              if planner_alive v then v else start_planner_thread v
        | None => v
        end
      else v.

(** [_path_planning_succeeded] *)
Definition path_planning_succeeded (path : list cell) (v : viewer) : viewer :=
  let v := set_current_path path v in
  match path with
  | _ :: _ => set_navigation_state NAV_STATE_AWAITING_NEXT_STEP v
  | [] =>
      if goal_is v (current_logical_robot_cell_on_path v) then
        let v := set_navigation_state NAV_STATE_REACHED_GOAL v in
        snd (send_command "S" v)
      else set_navigation_state NAV_STATE_NO_PATH_FOUND v
  end.

(** [_path_planning_failed] *)
Definition path_planning_failed (v : viewer) : viewer :=
  let v := set_navigation_state NAV_STATE_NO_PATH_FOUND v in
  set_current_path [] v.

(** The planner thread runs [_plan_path_threaded] to its end and posts
    its callback. *)
Definition planner_thread_runs (v : viewer) : viewer :=
  if planner_alive v then
    match plan_path (occupancy_grid v) (current_logical_robot_cell_on_path v)
                    (navigation_goal_cell v) with
    | Some r =>
        set_planner_alive false (set_planner_callbacks (planner_callbacks v ++ [r]) v)
    | None => v
    end
  else v.

(** Tk runs the oldest callback the planner has posted. *)
Definition planner_callback_runs (v : viewer) : viewer :=
  match planner_callbacks v with
  | [] => v
  | r :: rest =>
      let v := set_planner_callbacks rest v in
      match r with
      | PathFound path => path_planning_succeeded path v
      | PlanningFailed _ => path_planning_failed v
      end
  end.

(** The part of [_execute_navigation_step] after the command is chosen:
    the state is set, the command sent, and on success the logical state
    updated and the action timer started. *)
Definition issue_command (now : Q) (st : nav_state) (command_to_send : string)
    (v : viewer) : viewer :=
  let action_end_time := (now + ACTION_DURATION_S)%Q in
  let v := set_navigation_state st v in
  let '(ok, v) := send_command command_to_send v in
  if ok then
    let v :=
      match navigation_state v with
      | NAV_STATE_MOVING_FORWARD => set_current_path (tl (current_path v)) v
      | NAV_STATE_TURNING_LEFT =>
          set_robot_orientation_map_deg (turned_left (robot_orientation_map_deg v)) v
      | NAV_STATE_TURNING_RIGHT =>
          set_robot_orientation_map_deg (turned_right (robot_orientation_map_deg v)) v
      | _ => v
      end in
    let v := set_current_action_end_time action_end_time v in
    set_action_timer_id (Some OnActionCompleted) v
  else v.

(** [_execute_navigation_step]; [now] is [time.time()]. *)
Definition execute_navigation_step (now : Q) (v : viewer) : viewer :=
  if state_in (navigation_state v)
       [NAV_STATE_IDLE; NAV_STATE_PLANNING; NAV_STATE_REACHED_GOAL;
        NAV_STATE_NO_PATH_FOUND; NAV_STATE_PATH_BLOCKED; NAV_STATE_ROBOT_CMD_ERROR]
  then v
  else if Qltb now (current_action_end_time v) then v
  else
    let current_robot_pos_cell := current_logical_robot_cell_on_path v in
    match current_path v with
    | [] =>
        let v :=
          if goal_is v current_robot_pos_cell
          then set_navigation_state NAV_STATE_REACHED_GOAL v
          else if negb (nav_state_eqb (navigation_state v) NAV_STATE_PATH_BLOCKED)
               then set_navigation_state NAV_STATE_NO_PATH_FOUND v
               else v in
        set_current_path [] v
    | next_cell_in_world :: _ =>
        if negb (is_valid_and_clear (occupancy_grid v)
                   next_cell_in_world.1 next_cell_in_world.2)
        then
          let v := snd (send_command "S" v) in
          let v := set_navigation_state NAV_STATE_PATH_BLOCKED v in
          let v := set_current_path [] v in
          if negb (planner_alive v)
          then start_planner_thread (set_navigation_state NAV_STATE_PLANNING v)
          else v
        else
          let dr := next_cell_in_world.1 - current_robot_pos_cell.1 in
          let dc := next_cell_in_world.2 - current_robot_pos_cell.2 in
          match classify_step dr dc with
          | SameCell =>
              let v := set_current_path (tl (current_path v)) v in
              let v := set_navigation_state NAV_STATE_AWAITING_NEXT_STEP v in
              set_action_timer_id (Some OnActionCompletedNoCommand) v
          | InvalidStep =>
              let v := snd (send_command "S" v) in
              let v := set_navigation_state NAV_STATE_PATH_BLOCKED v in
              set_current_path [] v
          | Cardinal target_orientation_deg =>
              match choose_motion target_orientation_deg (robot_orientation_map_deg v) with
              | ChooseForward => issue_command now NAV_STATE_MOVING_FORWARD "F" v
              | ChooseRight => issue_command now NAV_STATE_TURNING_RIGHT "R" v
              | ChooseLeft => issue_command now NAV_STATE_TURNING_LEFT "L" v
              | UnhandledTurn =>
                  let v := snd (send_command "S" v) in
                  let v := set_navigation_state NAV_STATE_PATH_BLOCKED v in
                  set_current_path [] v
              end
          end
    end.

(** [_on_action_completed] *)
Definition on_action_completed (v : viewer) : viewer :=
  let v := set_action_timer_id None v in
  if negb (last_command_sent_successful v) then v
  else
    let '(stop_success, v) := send_command "S" v in
    if negb stop_success then v
    else if state_in (navigation_state v)
              [NAV_STATE_MOVING_FORWARD; NAV_STATE_TURNING_LEFT;
               NAV_STATE_TURNING_RIGHT; NAV_STATE_AWAITING_NEXT_STEP]
    then
      match current_path v with
      | [] =>
          if goal_is v (current_logical_robot_cell_on_path v)
          then set_navigation_state NAV_STATE_REACHED_GOAL v
          else set_navigation_state NAV_STATE_AWAITING_NEXT_STEP v
      | _ :: _ => set_navigation_state NAV_STATE_AWAITING_NEXT_STEP v
      end
    else v.

(** [_on_action_completed_no_command] *)
Definition on_action_completed_no_command (v : viewer) : viewer :=
  let v := set_action_timer_id None v in
  if negb (state_in (navigation_state v)
             [NAV_STATE_REACHED_GOAL; NAV_STATE_PATH_BLOCKED; NAV_STATE_NO_PATH_FOUND;
              NAV_STATE_PLANNING; NAV_STATE_IDLE; NAV_STATE_ROBOT_CMD_ERROR])
  then set_navigation_state NAV_STATE_AWAITING_NEXT_STEP v
  else v.

(** The pending timer of [action_timer_id] fires. *)
Definition action_timer_fires (v : viewer) : viewer :=
  match action_timer_id v with
  | Some OnActionCompleted => on_action_completed v
  | Some OnActionCompletedNoCommand => on_action_completed_no_command v
  | None => v
  end.

(** [_periodic_update], without the drawing. *)
Definition periodic_update (now : Q) (v : viewer) : viewer :=
  let '(g, q) :=
    process_queued_data rnd fl sin_deg cos_deg (is_udp_running v)
      (robot_orientation_map_deg v) (occupancy_grid v) (data_queue v) in
  let v := set_data_queue q (set_occupancy_grid g v) in
  if is_udp_running v then execute_navigation_step now v else v.

(** [_on_close], up to the destruction of the window. *)
Definition on_close (v : viewer) : viewer :=
  let v :=
    if is_udp_running v &&
       negb (state_in (navigation_state v)
               [NAV_STATE_IDLE; NAV_STATE_REACHED_GOAL; NAV_STATE_NO_PATH_FOUND;
                NAV_STATE_ROBOT_CMD_ERROR])
    then snd (send_command "S" v) else v in
  let v := set_action_timer_id None v in
  stop_udp_listener v.

(** What the Tk main loop and the two threads can make happen. *)
Inductive event : Type :=
  | ToggleConnection (ip_given bind_ok : bool)
  | UdpPacket (packet : list lidar_point)
  | MapClick (confirm : bool) (clicked_row clicked_col : Z)
  | PlannerThreadRuns
  | PlannerCallbackRuns
  | PeriodicUpdate (now : Q)
  | ActionTimerFires
  | CloseWindow.

Definition handle (e : event) (v : viewer) : viewer :=
  match e with
  | ToggleConnection ip_given bind_ok => toggle_connection ip_given bind_ok v
  | UdpPacket packet => udp_receive packet v
  | MapClick confirm r c => handle_map_click confirm r c v
  | PlannerThreadRuns => planner_thread_runs v
  | PlannerCallbackRuns => planner_callback_runs v
  | PeriodicUpdate now => periodic_update now v
  | ActionTimerFires => action_timer_fires v
  | CloseWindow => on_close v
  end.

Definition run (events : list event) (v : viewer) : viewer :=
  fold_left (fun v e => handle e v) events v.

(** The states the program can be in. *)
Inductive reachable : viewer -> Prop :=
  | reachable_init : reachable init_viewer
  | reachable_step e v : reachable v -> reachable (handle e v).

End Machine.

End Nav.

(** ** Predicates used by the statements *)

(** What the properties of the grid assume of the float32 rounding: it is
    monotone, it keeps 0 and [MAX_CELL_VALUE], which are float32 values, and
    between 1/2 and 256, where the products of the decay lie, it exceeds the
    exact result by at most one part in [2^24]. *)
Definition rnd_unit : Q := 1 # 16777216.

Record rounding_ok (rnd : Q -> Q) : Prop := {
  rnd_mono : forall x y, (x <= y)%Q -> (rnd x <= rnd y)%Q;
  rnd_zero : (rnd 0 == 0)%Q;
  rnd_max : (rnd MAX_CELL_VALUE == MAX_CELL_VALUE)%Q;
  rnd_rel : forall x, ((1 # 2) <= x)%Q -> (x <= 256)%Q -> (rnd x <= x * (1 + rnd_unit))%Q
}.

Definition cell_in_range (v : Q) : Prop := (0 <= v /\ v <= MAX_CELL_VALUE)%Q.

Definition grid_in_range (g : grid) : Prop := Forall (Forall cell_in_range) g.

Definition cell_in_rangeb (v : Q) : bool := Qle_bool 0 v && Qle_bool v MAX_CELL_VALUE.

Definition grid_in_rangeb (g : grid) : bool := forallb (forallb cell_in_rangeb) g.

(** The number of decays after which every cell of the grid is 0: the least
    [n] with [MAX_CELL_VALUE * DECAY_RATE ^ n < CLEAR_BELOW_VALUE]. *)
Definition decay_calls_to_zero : nat := 26.

(** An upper bound of a cell after [n] decays, rounding included. *)
Definition decay_factor_bound : Q := (DECAY_RATE * (1 + rnd_unit) * (1 + rnd_unit))%Q.

Fixpoint decay_envelope (n : nat) : Q :=
  match n with
  | O => MAX_CELL_VALUE
  | S m => (decay_factor_bound * decay_envelope m)%Q
  end.

(** A grid with one saturated cell, for examples. *)
Definition one_hot_grid : grid := grid_alter (fun _ => MAX_CELL_VALUE) zeros 3 7.

(** Sine and cosine of an angle in degrees, exact on the multiples of 90 in
    [0, 360) and 0 elsewhere: for examples. *)
Definition quadrant_sin (a : Q) : Q :=
  if Qeq_bool a 90 then 1%Q else if Qeq_bool a 270 then (-1)%Q else 0%Q.
Definition quadrant_cos (a : Q) : Q :=
  if Qeq_bool a 0 then 1%Q else if Qeq_bool a 180 then (-1)%Q else 0%Q.

(** What [math.sin(math.radians(a))] and [math.cos(math.radians(a))] give
    at 30 and at 60, as the doubles they are, and 0 elsewhere: for
    examples. *)
Definition sample_sin (a : Q) : Q :=
  if Qeq_bool a 60 then 3900231685776981 # 4503599627370496
  else if Qeq_bool a 30 then 9007199254740991 # 18014398509481984
  else 0%Q.
Definition sample_cos (a : Q) : Q :=
  if Qeq_bool a 60 then 4503599627370497 # 9007199254740992
  else if Qeq_bool a 30 then 7800463371553963 # 9007199254740992
  else 0%Q.

(** ** Predicates on the navigation controller *)

Module NavSpec.

Import Planner Nav.

(** [send_command] gets past its IDLE gate and tries to connect. *)
Definition attempted (command : string) (v : viewer) : bool :=
  negb (nav_state_eqb (navigation_state v) NAV_STATE_IDLE && negb (String.eqb command "S")).

(** The headings the controller works with. *)
Definition heading_ok (h : Q) : Prop := h = 0%Q \/ h = 90%Q \/ h = 180%Q \/ h = 270%Q.

(** [_execute_navigation_step] is at its decision: the state lets it act, no
    timed action is running, and the head of the path is a clear cell one
    cardinal step away from the logical robot cell. *)
Definition at_decision (now : Q) (v : viewer) (next_cell : cell) (rest : list cell)
    (target : Q) : Prop :=
  state_in (navigation_state v)
    [NAV_STATE_AWAITING_NEXT_STEP; NAV_STATE_TURNING_LEFT; NAV_STATE_TURNING_RIGHT;
     NAV_STATE_MOVING_FORWARD] = true /\
  Qltb now (current_action_end_time v) = false /\
  current_path v = next_cell :: rest /\
  is_valid_and_clear (occupancy_grid v) next_cell.1 next_cell.2 = true /\
  classify_step (next_cell.1 - (current_logical_robot_cell_on_path v).1)
                (next_cell.2 - (current_logical_robot_cell_on_path v).2) = Cardinal target.

(** The statement that every failed connection attempt of [send_command]
    leaves the controller in [NAV_STATE_ROBOT_CMD_ERROR]. *)
Definition every_failure_enters_error : Prop :=
  forall (net : nat -> transport_result) (command : string) (v : viewer),
    attempted command v = true ->
    net (length (wire_log v)) <> Delivered ->
    navigation_state (snd (send_command net command v)) = NAV_STATE_ROBOT_CMD_ERROR.

(** The statement that the path and the heading wait for the stop that ends
    a timed command: at a decision, issuing the command changes neither. *)
Definition update_waits_for_stop : Prop :=
  forall (net : nat -> transport_result) (now : Q) (v : viewer)
         (next_cell : cell) (rest : list cell) (target : Q),
    at_decision now v next_cell rest target ->
    heading_ok (robot_orientation_map_deg v) ->
    current_path (execute_navigation_step net now v) = current_path v /\
    robot_orientation_map_deg (execute_navigation_step net now v)
      = robot_orientation_map_deg v.

(** The viewer after [_execute_navigation_step] has had its command
    delivered: the state of the command, the logical update that goes with
    it, and the action timer. *)
Definition after_delivery (now : Q) (st : nav_state) (command : string) (v : viewer)
    : viewer :=
  let v := set_navigation_state st v in
  let v := set_wire_log (wire_log v ++ [(command, Delivered)]) v in
  let v := set_last_command_sent_successful true v in
  let v :=
    match st with
    | NAV_STATE_MOVING_FORWARD => set_current_path (tl (current_path v)) v
    | NAV_STATE_TURNING_LEFT =>
        set_robot_orientation_map_deg (turned_left (robot_orientation_map_deg v)) v
    | NAV_STATE_TURNING_RIGHT =>
        set_robot_orientation_map_deg (turned_right (robot_orientation_map_deg v)) v
    | _ => v
    end in
  let v := set_current_action_end_time (now + ACTION_DURATION_S)%Q v in
  set_action_timer_id (Some OnActionCompleted) v.

(** A link on which every attempt is delivered, and one that always times out. *)
Definition net_up : nat -> transport_result := fun _ => Delivered.
Definition net_down : nat -> transport_result := fun _ => SocketTimeout.

(** The controller after a plan to the cell straight ahead of the centre,
    and after a plan to the cell behind it. *)
Definition viewer_with_path (path : list cell) (goal : cell) : viewer :=
  mkViewer zeros [] true (Some goal) path (grid_center_y_cell, grid_center_x_cell)
           NAV_STATE_AWAITING_NEXT_STEP 0%Q 0%Q None false [] true [].

Definition viewer_ahead : viewer := viewer_with_path [(39, 40)] (39, 40).
Definition viewer_behind : viewer := viewer_with_path [(41, 40)] (41, 40).
Definition viewer_left : viewer := viewer_with_path [(40, 39)] (40, 39).

(** The controller when the goal is the robot's own cell and the planner has
    returned the empty path. *)
Definition viewer_at_goal : viewer :=
  mkViewer zeros [] true (Some (40, 40)) [] (grid_center_y_cell, grid_center_x_cell)
           NAV_STATE_REACHED_GOAL 0%Q 0%Q None false [] true [].

(** How one handler may change the heading: not at all, to 0, or by a
    quarter turn whose command was delivered last on the wire. *)
Inductive heading_change (v v' : viewer) : Prop :=
  | heading_kept :
      robot_orientation_map_deg v' = robot_orientation_map_deg v ->
      heading_change v v'
  | heading_left :
      robot_orientation_map_deg v' = turned_left (robot_orientation_map_deg v) ->
      wire_log v' = wire_log v ++ [("L"%string, Delivered)] ->
      heading_change v v'
  | heading_right :
      robot_orientation_map_deg v' = turned_right (robot_orientation_map_deg v) ->
      wire_log v' = wire_log v ++ [("R"%string, Delivered)] ->
      heading_change v v'.

End NavSpec.

(** ** Predicates on the planner *)

Module PlanSpec.

Import Planner.

(** Two cells one step apart, up, down, left or right. *)
Definition adjacent (a b : cell) : Prop :=
  (a.1 = b.1 /\ Z.abs (a.2 - b.2) = 1) \/ (a.2 = b.2 /\ Z.abs (a.1 - b.1) = 1).

(** [path] leaves [from] by single steps and only enters traversable cells. *)
Fixpoint route_from (clear : Z -> Z -> bool) (from : cell) (path : list cell) : Prop :=
  match path with
  | [] => True
  | c :: rest => adjacent from c /\ clear c.1 c.2 = true /\ route_from clear c rest
  end.

(** [path] is a route of traversable cells from [start], excluded, to [goal]. *)
Definition route (clear : Z -> Z -> bool) (start goal : cell) (path : list cell) : Prop :=
  route_from clear start path /\ List.last path start = goal.

(** The robot cell, where every search starts. *)
Definition grid_center : cell := (grid_center_y_cell, grid_center_x_cell).

(** What the loop of the search keeps true of its variables. *)
Record search_inv (clear : Z -> Z -> bool) (start : cell) (s : astar_state) : Prop := {
  inv_start : g_score s !! start = Some 0;
  inv_nonneg : forall c x, g_score s !! c = Some x -> 0 <= x;
  inv_parent : forall n p, came_from s !! n = Some p ->
    clear n.1 n.2 = true /\ adjacent p n /\
    (p = start \/ is_Some (came_from s !! p)) /\
    exists gn gp, g_score s !! n = Some gn /\ g_score s !! p = Some gp /\ gp < gn;
  inv_open : forall e, e ∈ open_set s -> e.2 = start \/ is_Some (came_from s !! e.2)
}.

(** The parent links go down along [g]. *)
Definition links_decrease (cf : gmap cell cell) (g : gmap cell Z) : Prop :=
  forall n p, cf !! n = Some p ->
    exists gn gp, g !! n = Some gn /\ g !! p = Some gp /\ gp < gn.

(** A cell the planner may enter: inside the grid, with a confidence below
    the obstacle threshold. *)
Definition traversable (g : grid) (c : cell) : Prop :=
  in_bounds c.1 c.2 = true /\
  exists v, grid_get g c.1 c.2 = Some v /\ (v < RENDER_THRESHOLD)%Q.

(** A grid where the four cells around the robot are saturated. *)
Definition boxed_grid : grid :=
  let wall g c := grid_alter (fun _ => MAX_CELL_VALUE) g c.1 c.2 in
  fold_left wall [(39, 40); (41, 40); (40, 39); (40, 41)] zeros.

End PlanSpec.

(** ** Predicates on the search of an obstacle-free grid *)

Module BfsSpec.

Import Planner PlanSpec.

Section Layers.

Variables start goal : cell.

(** Steps from the start, steps to the goal, and the length of the
    shortest routes between the two. *)
Definition dist (n : cell) : Z := heuristic n start.
Definition togo (n : cell) : Z := heuristic n goal.
Definition span : Z := heuristic start goal.

(** The cells of an entry list. *)
Definition queued (h : list heap_entry) (n : cell) : Prop := exists e, e ∈ h /\ e.2 = n.

(** Every neighbour of [n] nearer to the start has a score. *)
Definition preds_known (s : astar_state) (n : cell) : Prop :=
  forall m, adjacent m n -> in_bounds m.1 m.2 = true -> dist m < dist n ->
    is_Some (g_score s !! m).

(** Every neighbour of [n] inside the grid has a score. *)
Definition expanded (s : astar_state) (n : cell) : Prop :=
  forall m, adjacent n m -> in_bounds m.1 m.2 = true -> is_Some (g_score s !! m).

(** The variables of the search on an obstacle-free grid, between two
    relaxations.  The queue is [A ++ B ++ C]: [A] holds cells [k] steps from
    the start and [B] cells [k + 1] steps from it, all on shortest routes to
    the goal; [C] holds the cells off those routes.  [cur], when given, is
    the cell being expanded. *)
Record bfs_inv (k : Z) (cur : option cell) (A B C : list heap_entry)
    (s : astar_state) : Prop := {
  bfs_heap : open_set s = A ++ B ++ C;
  bfs_A : forall e, e ∈ A -> e.1.1 = span /\ dist e.2 = k;
  bfs_B : forall e, e ∈ B -> e.1.1 = span /\ dist e.2 = k + 1;
  bfs_C : forall e, e ∈ C -> span < e.1.1;
  bfs_entry : forall e, e ∈ open_set s ->
    e.1.2 <= count s /\ e.1.1 = dist e.2 + togo e.2 /\ is_Some (g_score s !! e.2);
  bfs_hash : forall n, n ∈ open_set_hash s -> is_Some (g_score s !! n);
  bfs_g : forall n x, g_score s !! n = Some x -> x = dist n /\ in_bounds n.1 n.2 = true;
  bfs_preds : forall e, e ∈ A ++ B -> preds_known s e.2;
  bfs_closed : forall n, is_Some (g_score s !! n) -> ~ queued (open_set s) n ->
    dist n <= k /\ (Some n <> cur -> expanded s n)
}.

End Layers.

(** The cells of the grid, row by row. *)
Definition all_cells : list cell :=
  seqZ 0 GRID_DIMENSION ≫= fun r => (fun c => (r, c)) <$> seqZ 0 GRID_DIMENSION.

(** No cell of the grid is occupied. *)
Definition obstacle_free (g : grid) : Prop :=
  Forall (Forall (fun v => (v < RENDER_THRESHOLD)%Q)) g.

End BfsSpec.

(** ** The receive loop and the steps of the controller *)

Module NavSteps.

Import Planner Nav.

(** What [recvfrom] hands to [_udp_receive_loop]: no bytes, bytes that are
    not UTF-8, or the text of a scan packet. *)
Inductive datagram : Type :=
  | EmptyDatagram
  | NotUtf8
  | Utf8Text (packet : list lidar_point).

(** One turn of the loop of [_udp_receive_loop].  The oldest packet is
    taken out of a full queue before the datagram is decoded, so bytes that
    do not decode cost the queue its oldest packet. *)
Definition udp_receive_loop_step (d : datagram) (v : viewer) : viewer :=
  if is_udp_running v then
    match d with
    | EmptyDatagram => v
    | NotUtf8 =>
        if (5 <=? length (data_queue v))%nat then set_data_queue (tl (data_queue v)) v else v
    | Utf8Text packet => udp_receive packet v
    end
  else v.

(** The commands [_execute_navigation_step] times with [ACTION_DURATION_S]. *)
Definition motion_commands : list string := ["F"; "L"; "R"]%string.

Definition is_periodic_update (e : event) : bool :=
  match e with
  | PeriodicUpdate _ => true
  | _ => false
  end.

(** The events that are neither an action of the user nor the delivery of
    a planner result. *)
Definition is_background (e : event) : bool :=
  match e with
  | UdpPacket _ | PlannerThreadRuns | PeriodicUpdate _ | ActionTimerFires => true
  | _ => false
  end.

(** How one handler may change the goal: not at all, to [None], or to a
    cell of the grid together with the state [NAV_STATE_PLANNING]. *)
Inductive goal_change (v v' : viewer) : Prop :=
  | goal_kept : navigation_goal_cell v' = navigation_goal_cell v -> goal_change v v'
  | goal_cleared : navigation_goal_cell v' = None -> goal_change v v'
  | goal_set r c :
      navigation_goal_cell v' = Some (r, c) ->
      in_bounds r c = true ->
      goal_change v v'.

(** What one handler may add to the connection attempts: nothing, a stop,
    or, in [_periodic_update] with the feed connected, a motion command. *)
Inductive wire_change (net : nat -> transport_result) (e : event) (v v' : viewer) : Prop :=
  | wire_kept : wire_log v' = wire_log v -> wire_change net e v v'
  | wire_stop :
      wire_log v' = wire_log v ++ [("S"%string, net (length (wire_log v)))] ->
      wire_change net e v v'
  | wire_motion command :
      command ∈ motion_commands ->
      is_periodic_update e = true ->
      is_udp_running v = true ->
      wire_log v' = wire_log v ++ [(command, net (length (wire_log v)))] ->
      wire_change net e v v'.

(** How one handler may change the queue of packets. *)
Inductive queue_change (v v' : viewer) : Prop :=
  | queue_kept : data_queue v' = data_queue v -> queue_change v v'
  | queue_put packet :
      data_queue v'
      = (if (5 <=? length (data_queue v))%nat then tl (data_queue v) else data_queue v)
        ++ [packet] ->
      queue_change v v'
  | queue_taken : data_queue v' = drop 2 (data_queue v) -> queue_change v v'.

(** The timer is not pending in the error state. *)
Definition error_has_no_timer (v : viewer) : Prop :=
  navigation_state v = NAV_STATE_ROBOT_CMD_ERROR -> action_timer_id v = None.

(** The goal is reported reached only for the logical robot cell. *)
Definition reached_means_here (v : viewer) : Prop :=
  navigation_state v = NAV_STATE_REACHED_GOAL ->
  navigation_goal_cell v = Some (current_logical_robot_cell_on_path v).

End NavSteps.
(** ** The text of a scan packet *)

Module Wire.

Import Ascii.

(** [s.split(sep)] for a separator of one character.  The separators of
    the packets are ASCII, and so are the bytes of their UTF-8 text that
    [split] looks for. *)
Fixpoint py_split (sep : ascii) (s : string) : list string :=
  match s with
  | EmptyString => [EmptyString]
  | String ch rest =>
      if Ascii.eqb ch sep then EmptyString :: py_split sep rest
      else
        match py_split sep rest with
        | field :: fields => String ch field :: fields
        | [] => [String ch EmptyString]
        end
  end.

(** [sep.join(parts)] *)
Fixpoint py_join (sep : ascii) (parts : list string) : string :=
  match parts with
  | [] => EmptyString
  | [part] => part
  | part :: rest => (part ++ String sep (py_join sep rest))%string
  end.

(** [s.count(ch)] *)
Fixpoint py_count (ch : ascii) (s : string) : nat :=
  match s with
  | EmptyString => O
  | String ch' rest => ((if Ascii.eqb ch' ch then 1 else 0) + py_count ch rest)%nat
  end.

(** [ch not in s] *)
Fixpoint free_of (ch : ascii) (s : string) : bool :=
  match s with
  | EmptyString => true
  | String ch' rest => negb (Ascii.eqb ch' ch) && free_of ch rest
  end.

Section Parse.

(** [float(s)]: [None] when it raises [ValueError], and when it gives
    [inf] or [nan], with which the point leaves the loop by [continue] as
    well, at the range test or at [int(...)]. *)
Variable py_float : string -> option Q.

(** The body of the loop of [_update_occupancy_grid] up to the two calls
    of [float]. *)
Definition parse_point (point_str : string) : lidar_point :=
  match py_split ","%char point_str with
  | [angle_str; dist_str] =>
      match py_float angle_str, py_float dist_str with
      | Some angle_deg_raw, Some dist_mm => Reading angle_deg_raw dist_mm
      | _, _ => Malformed
      end
  | _ => Malformed
  end.

(** [points_data_str.split(';')] behind [if not points_data_str: return]. *)
Definition parse_packet (points_data_str : string) : list lidar_point :=
  match points_data_str with
  | EmptyString => []
  | _ => map parse_point (py_split ";"%char points_data_str)
  end.

(** [points_in_last_scan] of [_process_queued_data] *)
Definition points_in_last_scan (data_str : string) : nat :=
  match data_str with
  | EmptyString => O
  | _ => (py_count ";"%char data_str + 1)%nat
  end.

Variable rnd : Q -> Q.
Variables fl sin_deg cos_deg : Q -> Q.

(** [_update_occupancy_grid] on the text of a packet. *)
Definition update_occupancy_grid_str (heading : Q) (g : grid) (points_data_str : string)
    : grid :=
  let g := decay_grid rnd g in
  match points_data_str with
  | EmptyString => g
  | _ =>
      fold_left (fun g point_str =>
                   integrate_point rnd fl sin_deg cos_deg heading g (parse_point point_str))
                (py_split ";"%char points_data_str) g
  end.

End Parse.

(** A field that [float] reads. *)
Definition parses (py_float : string -> option Q) (point_str : string) : bool :=
  match parse_point py_float point_str with
  | Reading _ _ => true
  | Malformed => false
  end.

End Wire.
(** * RPLidarCarControl (src/main_server.py)

    The scan processing, the obstacle lock and the UDP streamer of the
    program that runs on the robot.  The commands it hands to its
    [send_command] and the datagrams it hands to [sendto] are recorded in
    [commands_sent] and [datagrams_sent]; [send_command] catches every
    exception of the socket, so its caller never sees a failure. *)

Module CarControl.

Import Ascii Wire.

Definition MAX_RANGE_MM : Q := 2000.
Definition MIN_OBJECT_SIZE_POINTS : nat := 3.
Definition SCAN_POINT_SUBSAMPLE_RATIO : nat := 3.
Definition LIDAR_ANGLE_OFFSET_DEG : Q := 180.
Definition FRONT_ANGLE_CFG_DEG : Q := 25.
Definition PROXIMITY_THRESHOLD_MM : Q := 350.
Definition ANY_OBSTACLE_IN_FRONT_FOR_STOP_MM : Q := PROXIMITY_THRESHOLD_MM.
Definition MIN_QUALITY_INTERNAL : Z := 10.

Definition UDP_SEND_RATE_HZ : Q := 4.
Definition UDP_MAX_POINTS_TO_SEND : nat := 90.
Definition UDP_MIN_QUALITY_FOR_SEND : Z := 10.
Definition UDP_MAX_DISTANCE_FOR_SEND : Q := 4000.

(** [udp_send_interval], set in [__init__]. *)
Definition udp_send_interval : Q :=
  if Qltb 0 UDP_SEND_RATE_HZ then (1 / UDP_SEND_RATE_HZ)%Q else 0%Q.

(** A measurement of a scan: [(quality, angle_degrees, distance_mm)]. *)
Abbreviation measurement := (Z * Q * Q)%type (only parsing).

(** [l[::step]] for a positive [step]; [skip] counts the elements to pass
    over before the next one is taken. *)
Fixpoint slice_from {A : Type} (step skip : nat) (l : list A) : list A :=
  match l with
  | [] => []
  | x :: rest =>
      match skip with
      | O => x :: slice_from step (step - 1) rest
      | S skip' => slice_from step skip' rest
      end
  end.

Definition slice_step {A : Type} (step : nat) (l : list A) : list A := slice_from step 0 l.

(** [any_object_in_front_details] *)
Record front_details : Type := mkDetails {
  avg_dist : Q;
  avg_angle : Q;
  points : Z
}.

(** The attributes of [RPLidarCarControl] the scan loop and the buttons
    read or write. *)
Record car_control : Type := mkCar {
  all_objects_detected : list (list measurement);
  angles : list Q;
  distances : list Q;
  any_object_in_front_details : option front_details;
  car_locked : bool;
  UDP_STREAM_ENABLED : bool;
  udp_socket : bool;
  last_udp_send_time : Q;
  commands_sent : list string;
  datagrams_sent : list string
}.

(** [__init__]; [socket_ok] tells whether the UDP socket could be made. *)
Definition init_car (socket_ok : bool) : car_control :=
  mkCar [] [] [] None false socket_ok socket_ok 0%Q [] [].

(** [send_command] of the module: the command goes to the motion server,
    and no failure comes back. *)
Definition send_command (command : string) (s : car_control) : car_control :=
  mkCar (all_objects_detected s) (angles s) (distances s) (any_object_in_front_details s)
        (car_locked s) (UDP_STREAM_ENABLED s) (udp_socket s) (last_udp_send_time s)
        (commands_sent s ++ [command]) (datagrams_sent s).

Definition set_car_locked (x : bool) (s : car_control) : car_control :=
  mkCar (all_objects_detected s) (angles s) (distances s) (any_object_in_front_details s)
        x (UDP_STREAM_ENABLED s) (udp_socket s) (last_udp_send_time s)
        (commands_sent s) (datagrams_sent s).

Definition set_any_object_in_front_details (x : option front_details) (s : car_control)
    : car_control :=
  mkCar (all_objects_detected s) (angles s) (distances s) x
        (car_locked s) (UDP_STREAM_ENABLED s) (udp_socket s) (last_udp_send_time s)
        (commands_sent s) (datagrams_sent s).

Definition set_scan (objects : list (list measurement)) (a d : list Q) (s : car_control)
    : car_control :=
  mkCar objects a d (any_object_in_front_details s)
        (car_locked s) (UDP_STREAM_ENABLED s) (udp_socket s) (last_udp_send_time s)
        (commands_sent s) (datagrams_sent s).

Definition set_last_udp_send_time (x : Q) (s : car_control) : car_control :=
  mkCar (all_objects_detected s) (angles s) (distances s) (any_object_in_front_details s)
        (car_locked s) (UDP_STREAM_ENABLED s) (udp_socket s) x
        (commands_sent s) (datagrams_sent s).

Definition set_udp_socket (x : bool) (s : car_control) : car_control :=
  mkCar (all_objects_detected s) (angles s) (distances s) (any_object_in_front_details s)
        (car_locked s) (UDP_STREAM_ENABLED s) x (last_udp_send_time s)
        (commands_sent s) (datagrams_sent s).

Definition sendto (payload : string) (s : car_control) : car_control :=
  mkCar (all_objects_detected s) (angles s) (distances s) (any_object_in_front_details s)
        (car_locked s) (UDP_STREAM_ENABLED s) (udp_socket s) (last_udp_send_time s)
        (commands_sent s) (datagrams_sent s ++ [payload]).

(** ** Scan processing *)

(** The local lists of [process_raw_scan_to_points_objects]. *)
Record scan_lists : Type := mkLists {
  proc_angles_rad_list : list Q;
  proc_dists_mm_list : list Q;
  detected_obj_list : list (list measurement);
  current_obj_buffer : list measurement
}.

(** [if len(current_obj_buffer) >= MIN_OBJECT_SIZE_POINTS:
     detected_obj_list.append(list(current_obj_buffer))] *)
Definition close_object (detected : list (list measurement)) (buffer : list measurement)
    : list (list measurement) :=
  if (MIN_OBJECT_SIZE_POINTS <=? length buffer)%nat then detected ++ [buffer] else detected.

(** [0 < dist_mm <= MAX_RANGE_MM and q >= MIN_QUALITY_INTERNAL] *)
Definition usable (q : Z) (dist_mm : Q) : bool :=
  Qltb 0 dist_mm && Qle_bool dist_mm MAX_RANGE_MM && (MIN_QUALITY_INTERNAL <=? q).

(** [min(angle_diff, 360.0 - angle_diff) < 20.0] with
    [angle_diff = abs(last_pt_angle_offset - lidar_angle_deg_offset)]; the
    two differences are rounded to doubles by [fl]. *)
Definition angularly_close (fl : Q -> Q) (last_pt_angle_offset lidar_angle_deg_offset : Q)
    : bool :=
  let angle_diff := Qabs (fl (last_pt_angle_offset - lidar_angle_deg_offset)%Q) in
  Qltb (py_min angle_diff (fl (360 - angle_diff)%Q)) 20.

Section Scan.

(** Rounding of a real result to a double. *)
Variable fl : Q -> Q.
(** [np.radians] and [math.degrees] *)
Variables radians degrees : Q -> Q.

(** The body of the loop over the points of the scan. *)
Definition scan_point (l : scan_lists) (m : measurement) : scan_lists :=
  let '(q, raw_angle_deg, dist_mm) := m in
  let lidar_angle_deg_offset :=
    float_mod fl (fl (raw_angle_deg + LIDAR_ANGLE_OFFSET_DEG)%Q) 360 in
  if negb (usable q dist_mm) then
    mkLists (proc_angles_rad_list l) (proc_dists_mm_list l)
            (close_object (detected_obj_list l) (current_obj_buffer l)) []
  else
    let plot_angle_rad_offset := radians lidar_angle_deg_offset in
    let angles' := proc_angles_rad_list l ++ [plot_angle_rad_offset] in
    let dists' := proc_dists_mm_list l ++ [dist_mm] in
    let part_of_curr_obj :=
      match last (current_obj_buffer l) with
      | Some (_, last_pt_angle_offset, _) =>
          angularly_close fl last_pt_angle_offset lidar_angle_deg_offset
      | None => false
      end in
    if part_of_curr_obj then
      mkLists angles' dists' (detected_obj_list l)
              (current_obj_buffer l ++ [(q, lidar_angle_deg_offset, dist_mm)])
    else
      mkLists angles' dists'
              (close_object (detected_obj_list l) (current_obj_buffer l))
              [(q, lidar_angle_deg_offset, dist_mm)].

(** [process_raw_scan_to_points_objects]: what it stores in
    [all_objects_detected], [angles] and [distances]. *)
Definition process_raw_scan_to_points_objects (raw_scan_data_tuples : list measurement)
    : list (list measurement) * list Q * list Q :=
  let scan_subset_for_internal :=
    if (1 <? SCAN_POINT_SUBSAMPLE_RATIO)%nat
    then slice_step SCAN_POINT_SUBSAMPLE_RATIO raw_scan_data_tuples
    else raw_scan_data_tuples in
  let l := fold_left scan_point scan_subset_for_internal (mkLists [] [] [] []) in
  (close_object (detected_obj_list l) (current_obj_buffer l),
   proc_angles_rad_list l, proc_dists_mm_list l).

(** [is_in_front_cone] *)
Definition is_in_front_cone (angle_deg_offset_for_check : Q) : bool :=
  Qle_bool angle_deg_offset_for_check FRONT_ANGLE_CFG_DEG ||
  Qle_bool (360 - FRONT_ANGLE_CFG_DEG) angle_deg_offset_for_check.

(** [0 < dist_mm < ANY_OBSTACLE_IN_FRONT_FOR_STOP_MM] *)
Definition within_stop_distance (dist_mm : Q) : bool :=
  Qltb 0 dist_mm && Qltb dist_mm ANY_OBSTACLE_IN_FRONT_FOR_STOP_MM.

(** The body of the loop of [detect_objects_in_front_path] on the pair
    [(closest_point_dist_in_front, any_object_in_front_details)]; [None] is
    [float('inf')] in the first and [None] in the second. *)
Definition detect_point (acc : option Q * option front_details) (point : Q * Q)
    : option Q * option front_details :=
  let '(angle_rad_offset, dist_mm) := point in
  let angle_deg_offset_for_check := float_mod fl (degrees angle_rad_offset) 360 in
  if is_in_front_cone angle_deg_offset_for_check && within_stop_distance dist_mm then
    let closer :=
      match fst acc with
      | None => true
      | Some closest_point_dist_in_front => Qltb dist_mm closest_point_dist_in_front
      end in
    if closer
    then (Some dist_mm, Some (mkDetails dist_mm angle_deg_offset_for_check 1))
    else acc
  else acc.

(** [detect_objects_in_front_path]: the new [any_object_in_front_details]. *)
Definition detect_objects_in_front_path (angles distances : list Q) : option front_details :=
  if negb ((0 <? length angles)%nat && (length angles =? length distances)%nat) then None
  else snd (fold_left detect_point (combine angles distances) (None, None)).

End Scan.

(** [manage_autonomous_maneuver] *)
Definition manage_autonomous_maneuver (s : car_control) : car_control :=
  match any_object_in_front_details s with
  | Some _ =>
      if negb (car_locked s) then
        let s := send_command "S" s in
        let s := send_command "K" s in
        set_car_locked true s
      else s
  | None =>
      if car_locked s then
        let s := send_command "U" s in
        set_car_locked false s
      else s
  end.

(** ** The UDP streamer *)

Section Streamer.

(** Rounding of a real result to a double. *)
Variable fl : Q -> Q.
(** [f"{angle:.1f}"] and [f"{distance:.0f}"] *)
Variables format_1f format_0f : Q -> string.

(** The points [_send_lidar_data_udp] keeps: quality and distance pass,
    the distance is capped. *)
Definition points_to_send (raw_scan_data_tuples : list measurement) : list (Q * Q) :=
  flat_map (fun m : measurement =>
              let '(quality, angle_raw_deg, dist_mm) := m in
              if (UDP_MIN_QUALITY_FOR_SEND <=? quality) && Qltb 0 dist_mm
              then [(angle_raw_deg, py_min dist_mm UDP_MAX_DISTANCE_FOR_SEND)]
              else [])
           raw_scan_data_tuples.

Definition selected_points (raw_scan_data_tuples : list measurement) : list (Q * Q) :=
  take UDP_MAX_POINTS_TO_SEND (points_to_send raw_scan_data_tuples).

(** ["angle1,dist1;angle2,dist2;..."] *)
Definition msg_payload (selected : list (Q * Q)) : string :=
  py_join ";"%char (map (fun p => (format_1f (fst p) ++ String ","%char (format_0f (snd p)))%string)
                   selected).

(** [_send_lidar_data_udp]; [current_time] is [time.time()]. *)
Definition send_lidar_data_udp (current_time : Q) (raw_scan_data_tuples : list measurement)
    (s : car_control) : car_control :=
  if negb (UDP_STREAM_ENABLED s) || negb (udp_socket s) then s
  else if Qltb (fl (current_time - last_udp_send_time s)%Q) udp_send_interval then s
  else
    match points_to_send raw_scan_data_tuples with
    | [] => set_last_udp_send_time current_time s
    | _ :: _ =>
        let s := sendto (msg_payload (selected_points raw_scan_data_tuples)) s in
        set_last_udp_send_time current_time s
    end.

Variables radians degrees : Q -> Q.

(** One processed scan of [main_scan_loop], or of [demo_mode_scan_loop] on
    its simulated scan. *)
Definition scan_iteration (current_time : Q) (raw_scan_points_tuples : list measurement)
    (s : car_control) : car_control :=
  let '(objects, a, d) :=
    process_raw_scan_to_points_objects fl radians raw_scan_points_tuples in
  let s := set_scan objects a d s in
  let s := set_any_object_in_front_details
             (detect_objects_in_front_path fl degrees (angles s) (distances s)) s in
  let s := manage_autonomous_maneuver s in
  if UDP_STREAM_ENABLED s then send_lidar_data_udp current_time raw_scan_points_tuples s
  else s.

End Streamer.

(** ** Manual control *)

(** [_is_manual_control_allowed]; [status_label_exists] is the test on the
    widget. *)
Definition is_manual_control_allowed (status_label_exists : bool) (action : string)
    (s : car_control) : bool :=
  if negb status_label_exists then false
  else if car_locked s then
    if String.eqb action "forward" then false
    else if existsb (String.eqb action) ["backward"; "left"; "right"; "stop"]%string then true
    else false
  else true.

Definition forward_pressed (status_label_exists : bool) (s : car_control) : car_control :=
  if negb (is_manual_control_allowed status_label_exists "forward" s) then s
  else send_command "F" s.

Definition forward_released (s : car_control) : car_control :=
  if negb (car_locked s) then send_command "S" s else s.

Definition backward_pressed (status_label_exists : bool) (s : car_control) : car_control :=
  if negb (is_manual_control_allowed status_label_exists "backward" s) then s
  else send_command "B" s.

Definition backward_released (s : car_control) : car_control := send_command "S" s.

Definition left_pressed (status_label_exists : bool) (s : car_control) : car_control :=
  if negb (is_manual_control_allowed status_label_exists "left" s) then s
  else send_command "L" s.

Definition left_released (s : car_control) : car_control := send_command "S" s.

Definition right_pressed (status_label_exists : bool) (s : car_control) : car_control :=
  if negb (is_manual_control_allowed status_label_exists "right" s) then s
  else send_command "R" s.

Definition right_released (s : car_control) : car_control := send_command "S" s.

Definition stop_pressed_released (s : car_control) : car_control := send_command "S" s.

(** [exit_app], the handler of WM_DELETE_WINDOW, on the attributes of the
    model: [self.ser] is [None] throughout, so the stop and the unlock go
    through [send_command], whatever the lock; [car_locked] is not touched;
    the UDP socket is closed and dropped.  It also clears [is_scanning],
    which ends the scan loop at its next test. *)
Definition exit_app (s : car_control) : car_control :=
  let s := send_command "S" s in
  let s := send_command "U" s in
  set_udp_socket false s.

(** What the scan thread, the buttons and the closing of the window can
    make happen.  An event is one scan iteration or one handler run from its
    start to its end: the scan thread and the thread of the handlers are
    taken one handler at a time. *)
Inductive event : Type :=
  | ScanProcessed (current_time : Q) (raw_scan_points_tuples : list measurement)
  | ForwardPressed (status_label_exists : bool)
  | ForwardReleased
  | BackwardPressed (status_label_exists : bool)
  | BackwardReleased
  | LeftPressed (status_label_exists : bool)
  | LeftReleased
  | RightPressed (status_label_exists : bool)
  | RightReleased
  | StopPressed
  | ExitApp.

Section Machine.

Variable fl : Q -> Q.
Variables format_1f format_0f : Q -> string.
Variables radians degrees : Q -> Q.

Definition handle (e : event) (s : car_control) : car_control :=
  match e with
  | ScanProcessed current_time raw =>
      scan_iteration fl format_1f format_0f radians degrees current_time raw s
  | ForwardPressed ui => forward_pressed ui s
  | ForwardReleased => forward_released s
  | BackwardPressed ui => backward_pressed ui s
  | BackwardReleased => backward_released s
  | LeftPressed ui => left_pressed ui s
  | LeftReleased => left_released s
  | RightPressed ui => right_pressed ui s
  | RightReleased => right_released s
  | StopPressed => stop_pressed_released s
  | ExitApp => exit_app s
  end.

Definition run (events : list event) (s : car_control) : car_control :=
  fold_left (fun s e => handle e s) events s.

End Machine.

(** ** The lock protocol on the commands *)

(** Whether the motion server holds the forward lock after a command. *)
Definition lock_after (locked : bool) (command : string) : bool :=
  if String.eqb command "K" then true
  else if String.eqb command "U" then false
  else locked.

(** Forward is commanded only while unlocked, the lock is set only while
    unlocked and right after a stop, and it is released only while set. *)
Fixpoint lock_protocol (locked : bool) (previous : string) (log : list string) : bool :=
  match log with
  | [] => true
  | command :: rest =>
      (if String.eqb command "F" then negb locked
       else if String.eqb command "K" then negb locked && String.eqb previous "S"
       else if String.eqb command "U" then locked
       else true)
      && lock_protocol (lock_after locked command) command rest
  end.

Definition lock_state (log : list string) : bool := fold_left lock_after log false.

End CarControl.
(** * ArduinoCarController (src/motion.py)

    The motion server: it finds the serial port of the Arduino, takes
    commands from TCP connections and writes them to the port.  [str.upper],
    [str.lower] and [str.strip] are library functions: parameters.  The
    serial port is a device: [open_ok] tells whether [serial.Serial] can open
    a port and [write_ok] whether the k-th call of [write] goes through;
    [written] records the payloads that did. *)

Module Arduino.

(** An entry of [serial.tools.list_ports.comports()]. *)
Record port_info : Type := mkPort {
  device : string;
  description : string;
  vid : option Z;
  pid : option Z
}.

(** [needle in hay] on strings *)
Fixpoint contains (needle hay : string) : bool :=
  String.prefix needle hay ||
  match hay with
  | EmptyString => false
  | String _ rest => contains needle rest
  end.

(** [x == n] for an attribute that may be [None] *)
Definition is_value (x : option Z) (n : Z) : bool :=
  match x with
  | Some v => v =? n
  | None => false
  end.

Definition arduino_keywords : list string := ["arduino"; "ch340"; "ch341"; "ft232"]%string.

Definition valid_commands : list string := ["F"; "B"; "L"; "R"; "S"; "K"; "U"]%string.

(** [if not port]: [None] or the empty string *)
Definition no_port (port : option string) : bool :=
  match port with
  | None => true
  | Some name => String.eqb name ""
  end.

Section Ports.

Variable lower : string -> string.

(** The test of the first loop of [find_arduino_port]: a genuine Uno. *)
Definition is_uno (port : port_info) : bool :=
  is_value (vid port) 0x2341 && is_value (pid port) 0x0043.

(** The RPLidar adapter, a CP2102. *)
Definition is_cp2102 (port : port_info) : bool :=
  is_value (vid port) 0x10C4 && is_value (pid port) 0xEA60.

(** The test of the second loop: an ACM device not made by the maker of
    the CP2102. *)
Definition is_acm (port : port_info) : bool :=
  contains "ttyACM" (device port) && negb (is_value (vid port) 0x10C4).

(** The test of the third loop: not the CP2102, and a known word in the
    description. *)
Definition is_arduino_like (port : port_info) : bool :=
  negb (is_cp2102 port) &&
  existsb (fun keyword => contains keyword (lower (description port))) arduino_keywords.

(** [find_arduino_port]: each loop returns the device of the first port
    that passes its test. *)
Definition find_arduino_port (ports : list port_info) : option string :=
  match List.find is_uno ports with
  | Some port => Some (device port)
  | None =>
      match List.find is_acm ports with
      | Some port => Some (device port)
      | None =>
          match List.find is_arduino_like ports with
          | Some port => Some (device port)
          | None => None
          end
      end
  end.

End Ports.

(** A [serial.Serial] object. *)
Record serial_port : Type := mkSerial {
  port_name : string;
  is_open : bool;
  written : list string
}.

(** The attributes of [ArduinoCarController]; [server_socket] holds
    whether the socket is closed; [writes] counts the calls of [write]. *)
Record controller : Type := mkController {
  arduino : option serial_port;
  connected : bool;
  server_socket : option bool;
  writes : nat
}.

(** [__init__] *)
Definition init_controller : controller := mkController None false None O.

Section Controller.

Variables upper lower strip : string -> string.
Variable open_ok : string -> bool.
Variable write_ok : nat -> bool.

(** [self.arduino.write(payload)]: [false] when it raises, which it does
    on a closed port. *)
Definition write (payload : string) (c : controller) : bool * controller :=
  match arduino c with
  | Some sp =>
      if is_open sp && write_ok (writes c) then
        (true, mkController (Some (mkSerial (port_name sp) true (written sp ++ [payload])))
                            (connected c) (server_socket c) (S (writes c)))
      else (false, mkController (arduino c) (connected c) (server_socket c) (S (writes c)))
  | None => (false, c)
  end.

(** [send_command] *)
Definition send_command (command : string) (c : controller) : bool * controller :=
  if negb (connected c) || negb (bool_decide (is_Some (arduino c))) then (false, c)
  else if negb (existsb (String.eqb (upper command)) valid_commands) then (false, c)
  else write (upper command) c.

(** [connect_arduino] *)
Definition connect_arduino (port : option string) (ports : list port_info) (c : controller)
    : bool * controller :=
  let port := if no_port port then find_arduino_port lower ports else port in
  match port with
  | Some name =>
      if no_port port then (false, c)
      else if open_ok name then
        let c := mkController (Some (mkSerial name true [])) (connected c)
                              (server_socket c) (writes c) in
        let '(ok, c) := write "S" c in
        (ok, mkController (arduino c) ok (server_socket c) (writes c))
      else (false, mkController (arduino c) false (server_socket c) (writes c))
  | None => (false, c)
  end.

(** [cleanup] *)
Definition cleanup (c : controller) : controller :=
  let c :=
    match arduino c with
    | Some sp =>
        if is_open sp then
          let c := snd (send_command "S" c) in
          match arduino c with
          | Some sp =>
              mkController (Some (mkSerial (port_name sp) false (written sp)))
                           (connected c) (server_socket c) (writes c)
          | None => c
          end
        else c
    | None => c
    end in
  match server_socket c with
  | Some _ => mkController (arduino c) (connected c) (Some true) (writes c)
  | None => c
  end.

(** What [accept] and [recv(10).decode()] give the loop of
    [start_server]: a text, an error of the socket, or bytes that are not
    UTF-8. *)
Inductive connection : Type :=
  | Received (text : string)
  | SocketError
  | DecodeError.

(** One turn of the loop of [start_server]; the second component tells
    whether the loop goes on. *)
Definition serve (conn : connection) (c : controller) : controller * bool :=
  match conn with
  | Received text =>
      let data := upper (strip text) in
      if String.eqb data "" then (c, true)
      else (snd (send_command data c), true)
  | SocketError | DecodeError => (c, false)
  end.

(** The loop of [start_server] on the connections that come, and the
    [cleanup] of its [finally]. *)
Fixpoint serve_all (conns : list connection) (c : controller) : controller :=
  match conns with
  | [] => c
  | conn :: rest =>
      let '(c, go_on) := serve conn c in
      if go_on then serve_all rest c else cleanup c
  end.

(** [start_server]; [socket_ok] tells whether the socket could be made
    and [bind_ok] whether it could be bound and listened on. *)
Definition start_server (socket_ok bind_ok : bool) (conns : list connection)
    (c : controller) : controller :=
  if socket_ok then
    let c := mkController (arduino c) (connected c) (Some false) (writes c) in
    if bind_ok then serve_all conns c else cleanup c
  else cleanup c.

(** [main]: [conns] are the connections the server takes before its loop
    ends or the program is interrupted. *)
Definition main (ports : list port_info) (socket_ok bind_ok : bool)
    (conns : list connection) : controller :=
  let '(ok, c) := connect_arduino None ports init_controller in
  if ok then cleanup (start_server socket_ok bind_ok conns c) else cleanup c.

(** Every payload that reached the Arduino is a valid command. *)
Definition only_valid_commands (c : controller) : Prop :=
  match arduino c with
  | Some sp => Forall (fun payload => payload ∈ valid_commands) (written sp)
  | None => True
  end.

End Controller.

End Arduino.
(** ** Predicates on the scan processing *)

Module CarSpec.

Import CarControl.

(** Consecutive points of an object are less than 20 degrees apart, the
    short way round. *)
Fixpoint chained (fl : Q -> Q) (obj : list measurement) : Prop :=
  match obj with
  | a :: rest =>
      match rest with
      | b :: _ => angularly_close fl a.1.2 b.1.2 = true
      | [] => True
      end /\ chained fl rest
  | [] => True
  end.

(** A point the internal processing keeps. *)
Definition kept (m : measurement) : bool := usable m.1.1 m.2.

(** The angle of a kept point in the frame of the robot. *)
Definition offset_angle (fl : Q -> Q) (m : measurement) : Q :=
  float_mod fl (fl (m.1.2 + LIDAR_ANGLE_OFFSET_DEG)%Q) 360.

(** A kept point as the objects hold it: its angle is the one in the frame
    of the robot. *)
Definition in_robot_frame (fl : Q -> Q) (m : measurement) : measurement :=
  (m.1.1, offset_angle fl m, m.2).

(** An object needs [MIN_OBJECT_SIZE_POINTS] points. *)
Definition big_enough (group : list measurement) : bool :=
  (MIN_OBJECT_SIZE_POINTS <=? length group)%nat.

(** A point of [angles] and [distances] that stops the car: in the front
    cone and nearer than the stop distance. *)
Definition in_the_way (fl degrees : Q -> Q) (point : Q * Q) : bool :=
  is_in_front_cone (float_mod fl (degrees point.1) 360) && within_stop_distance point.2.

(** What an object of [all_objects_detected] is. *)
Definition is_cluster (fl : Q -> Q) (obj : list measurement) : Prop :=
  (MIN_OBJECT_SIZE_POINTS <= length obj)%nat /\
  Forall (fun m => usable m.1.1 m.2 = true) obj /\
  chained fl obj.

(** What the loop over the points keeps true of its lists: [groups] are
    the runs of points the loop has closed so far, small ones included. *)
Record lists_ok (fl radians : Q -> Q) (seen : list measurement)
    (groups : list (list measurement)) (l : scan_lists) : Prop := {
  ok_angles : proc_angles_rad_list l
              = map (fun m => radians (offset_angle fl m)) (List.filter kept seen);
  ok_dists : proc_dists_mm_list l = map (fun m : measurement => m.2) (List.filter kept seen);
  ok_detected : detected_obj_list l = List.filter big_enough groups;
  ok_points : concat groups ++ current_obj_buffer l
              = map (in_robot_frame fl) (List.filter kept seen);
  ok_groups : Forall (chained fl) groups;
  ok_chain : chained fl (current_obj_buffer l)
}.

(** What the loop of the detection keeps true of its two variables: the
    point it holds is nearer than every point in the way before it, and no
    point in the way after it is nearer. *)
Definition detect_ok (fl degrees : Q -> Q) (seen : list (Q * Q))
    (acc : option Q * option front_details) : Prop :=
  match acc with
  | (None, None) => Forall (fun p => in_the_way fl degrees p = false) seen
  | (Some closest, Some det) =>
      closest = avg_dist det /\ points det = 1 /\
      exists pre a post,
        seen = pre ++ (a, avg_dist det) :: post /\
        in_the_way fl degrees (a, avg_dist det) = true /\
        avg_angle det = float_mod fl (degrees a) 360 /\
        Forall (fun p => in_the_way fl degrees p = true -> (avg_dist det < p.2)%Q) pre /\
        Forall (fun p => in_the_way fl degrees p = true -> (avg_dist det <= p.2)%Q) post
  | _ => False
  end.

End CarSpec.

(** ** Predicates on the obstacle lock *)

Module LockSpec.

Import CarControl.

(** What the lock protocol asks of one command, given the lock and the
    command before it. *)
Definition lock_allows (locked : bool) (previous command : string) : bool :=
  if String.eqb command "F" then negb locked
  else if String.eqb command "K" then negb locked && String.eqb previous "S"
  else if String.eqb command "U" then locked
  else true.

(** The commands follow the protocol and [car_locked] is the lock they
    leave. *)
Definition lock_inv (s : car_control) : Prop :=
  lock_protocol false "" (commands_sent s) = true /\
  car_locked s = lock_state (commands_sent s).

(** The part of the protocol that does not concern the unlock: forward is
    commanded only while unlocked, and the lock is set only while unlocked
    and right after a stop. *)
Definition forward_allows (locked : bool) (previous command : string) : bool :=
  if String.eqb command "F" then negb locked
  else if String.eqb command "K" then negb locked && String.eqb previous "S"
  else true.

Fixpoint forward_protocol (locked : bool) (previous : string) (log : list string) : bool :=
  match log with
  | [] => true
  | command :: rest =>
      forward_allows locked previous command
      && forward_protocol (lock_after locked command) command rest
  end.

(** What holds [exit_app] or not: the commands follow the part of the
    protocol on F and K, and the program knows of the lock whenever the
    commands leave it set. *)
Definition forward_inv (s : car_control) : Prop :=
  forward_protocol false "" (commands_sent s) = true /\
  (lock_state (commands_sent s) = true -> car_locked s = true).

Definition is_exit (e : event) : bool :=
  match e with
  | ExitApp => true
  | _ => false
  end.

(** A scan with a near point straight ahead, for examples: the lidar sees
    the front of the robot at 180 degrees. *)
Definition blocked_scan : list measurement := [(15, 180%Q, 100%Q)].

End LockSpec.
(** ** Predicates on the text of the streamer *)

Module StreamSpec.

Import Ascii Wire CarControl.

Section Text.

Variable py_float : string -> option Q.
Variables format_1f format_0f : Q -> string.

(** The field [_send_lidar_data_udp] writes for a point. *)
Definition point_field (p : Q * Q) : string :=
  (format_1f p.1 ++ String "," (format_0f p.2))%string.

(** What the viewer reads in that field. *)
Definition read_back (p : Q * Q) : lidar_point :=
  match py_float (format_1f p.1), py_float (format_0f p.2) with
  | Some angle_deg_raw, Some dist_mm => Reading angle_deg_raw dist_mm
  | _, _ => Malformed
  end.

(** The two numbers of a point are written without [';'] and [',']. *)
Definition clean_fields (p : Q * Q) : Prop :=
  free_of ";" (format_1f p.1) = true /\ free_of "," (format_1f p.1) = true /\
  free_of ";" (format_0f p.2) = true /\ free_of "," (format_0f p.2) = true.

End Text.

(** Formatting and reading back of a distance of 0.4 as well: it is
    written "0". *)
Definition short_format_1f (a : Q) : string :=
  if Qeq_bool a 0 then "0.0"%string else "90.0"%string.
Definition short_format_0f (d : Q) : string :=
  if Qeq_bool d (2 # 5) then "0"%string else "4000"%string.
Definition short_float (s : string) : option Q :=
  if String.eqb s "0.0" then Some 0%Q
  else if String.eqb s "0" then Some 0%Q
  else if String.eqb s "90.0" then Some 90%Q
  else if String.eqb s "4000" then Some 4000%Q
  else None.

(** Formatting and reading back of the numbers 0, 90, 100 and 4000. *)
Definition sample_format_1f (a : Q) : string :=
  if Qeq_bool a 0 then "0.0"%string else "90.0"%string.
Definition sample_format_0f (d : Q) : string :=
  if Qeq_bool d 100 then "100"%string else "4000"%string.
Definition sample_float (s : string) : option Q :=
  if String.eqb s "0.0" then Some 0%Q
  else if String.eqb s "90.0" then Some 90%Q
  else if String.eqb s "100" then Some 100%Q
  else if String.eqb s "4000" then Some 4000%Q
  else None.

End StreamSpec.
(** ** Predicates on the motion server *)

Module ArduinoSpec.

Import Arduino.

(** A library function on strings leaves the command letters as they are. *)
Definition fixes_commands (f : string -> string) : Prop :=
  Forall (fun command => f command = command) valid_commands.

(** The payloads the Arduino has received. *)
Definition received (c : controller) : list string :=
  match arduino c with
  | Some sp => written sp
  | None => []
  end.

(** The controller can write: it is connected, its port is open, and the
    next [write] goes through. *)
Definition ready (write_ok : nat -> bool) (c : controller) : Prop :=
  connected c = true /\ (exists sp, arduino c = Some sp /\ is_open sp = true) /\
  write_ok (writes c) = true.

(** The serial port, if there is one, is closed. *)
Definition closed (c : controller) : Prop :=
  match arduino c with
  | Some sp => is_open sp = false
  | None => True
  end.

(** The server hands the command of a client to the Arduino as it came. *)
Definition relayed (upper strip : string -> string) (write_ok : nat -> bool)
    (command : string) : Prop :=
  forall c, ready write_ok c ->
    snd (serve upper strip write_ok (Received command) c) = true /\
    received (fst (serve upper strip write_ok (Received command) c))
    = received c ++ [command].

(** No port of the list passes a test of [find_arduino_port]. *)
Definition no_candidate (lower : string -> string) (ports : list port_info) : Prop :=
  Forall (fun port => is_uno port = false /\ is_acm port = false /\
                      is_arduino_like lower port = false) ports.

(** A USB hub with the RPLidar adapter, a CH340 clone and a genuine Uno. *)
Definition sample_ports : list port_info :=
  [mkPort "/dev/ttyUSB0" "CP2102 USB to UART Bridge Controller" (Some 0x10C4) (Some 0xEA60);
   mkPort "/dev/ttyUSB1" "USB2.0-Serial ch340" (Some 0x1A86) (Some 0x7523);
   mkPort "/dev/ttyACM0" "Arduino Uno" (Some 0x2341) (Some 0x0043)]%string.

End ArduinoSpec.

(** * Properties *)

(** ** Occupancy grid *)

Section GridProperties.

Variable rnd : Q -> Q.
Hypothesis rnd_ok : rounding_ok rnd.

Local Open Scope Q_scope.

Lemma rnd_nonneg x : 0 <= x -> 0 <= rnd x.
Proof.
  intros Hx. rewrite <- (rnd_zero rnd rnd_ok). now apply (rnd_mono rnd rnd_ok).
Qed.

Lemma rnd_decay_rate_bounds :
  0 <= rnd DECAY_RATE /\ rnd DECAY_RATE <= DECAY_RATE * (1 + rnd_unit).
Proof.
  split.
  - apply rnd_nonneg. unfold DECAY_RATE. lra.
  - apply (rnd_rel rnd rnd_ok); unfold DECAY_RATE; lra.
Qed.

Lemma rnd_product_bounds v b :
  0 <= v -> v <= b -> b <= MAX_CELL_VALUE ->
  0 <= rnd (v * rnd DECAY_RATE) /\
  (rnd (v * rnd DECAY_RATE) <= decay_factor_bound * b \/
   rnd (v * rnd DECAY_RATE) < CLEAR_BELOW_VALUE).
Proof.
  intros Hv Hb Hmax.
  destruct rnd_decay_rate_bounds as [Hd0 Hd1].
  assert (Hp : 0 <= v * rnd DECAY_RATE) by now apply Qmult_le_0_compat.
  assert (Hq : v * rnd DECAY_RATE <= 256).
  { apply Qle_trans with (v * 1).
    - rewrite !(Qmult_comm v). apply Qmult_le_compat_r; [|exact Hv].
      assert (Hd2 : DECAY_RATE * (1 + rnd_unit) <= 1)
        by (unfold DECAY_RATE, rnd_unit; lra).
      lra.
    - unfold MAX_CELL_VALUE in Hmax. lra. }
  split; [now apply rnd_nonneg|].
  destruct (Qlt_le_dec (v * rnd DECAY_RATE) (1 # 2)) as [Hs | Hl].
  - right. apply Qle_lt_trans with (rnd (1 # 2)).
    + apply (rnd_mono rnd rnd_ok). now apply Qlt_le_weak.
    + apply Qle_lt_trans with ((1 # 2) * (1 + rnd_unit)).
      * apply (rnd_rel rnd rnd_ok); lra.
      * unfold rnd_unit, CLEAR_BELOW_VALUE. lra.
  - left. apply Qle_trans with (v * rnd DECAY_RATE * (1 + rnd_unit)).
    + now apply (rnd_rel rnd rnd_ok).
    + unfold decay_factor_bound.
      assert (Hu : 0 <= 1 + rnd_unit) by (unfold rnd_unit; lra).
      apply Qle_trans with (v * (DECAY_RATE * (1 + rnd_unit)) * (1 + rnd_unit)).
      * apply Qmult_le_compat_r; [|exact Hu].
        rewrite !(Qmult_comm v). now apply Qmult_le_compat_r.
      * assert (Hk : 0 <= DECAY_RATE * (1 + rnd_unit))
          by (unfold DECAY_RATE, rnd_unit; lra).
        apply Qle_trans with (b * (DECAY_RATE * (1 + rnd_unit)) * (1 + rnd_unit)).
        -- apply Qmult_le_compat_r; [|exact Hu].
           now apply Qmult_le_compat_r.
        -- apply Qle_lteq. right. ring.
Qed.

Lemma decay_cell_envelope v b :
  0 <= v -> v <= b -> b <= MAX_CELL_VALUE ->
  0 <= decay_cell rnd v /\ decay_cell rnd v <= decay_factor_bound * b.
Proof.
  intros Hv Hb Hmax. destruct (rnd_product_bounds v b Hv Hb Hmax) as [H0 H1].
  assert (Hkb : 0 <= decay_factor_bound * b).
  { apply Qmult_le_0_compat; [unfold decay_factor_bound, DECAY_RATE, rnd_unit; lra|].
    now apply Qle_trans with v. }
  unfold decay_cell. destruct (Qlt_le_dec _ _) as [Hc | Hc].
  - split; [lra | exact Hkb].
  - split; [exact H0|]. destruct H1 as [H1 | H1]; [exact H1 | lra].
Qed.

Lemma decay_cell_snaps v b :
  0 <= v -> v <= b -> b <= MAX_CELL_VALUE ->
  decay_factor_bound * b < CLEAR_BELOW_VALUE -> decay_cell rnd v = 0.
Proof.
  intros Hv Hb Hmax Hsmall. destruct (rnd_product_bounds v b Hv Hb Hmax) as [H0 H1].
  unfold decay_cell. destruct (Qlt_le_dec _ _) as [Hc | Hc]; [reflexivity|].
  exfalso. destruct H1 as [H1 | H1]; lra.
Qed.

Lemma decay_cell_in_range v : cell_in_range v -> cell_in_range (decay_cell rnd v).
Proof.
  intros [H0 H1].
  destruct (decay_cell_envelope v MAX_CELL_VALUE H0 H1 (Qle_refl _)) as [Ha Hb].
  split; [exact Ha|]. eapply Qle_trans; [exact Hb|].
  unfold decay_factor_bound, DECAY_RATE, rnd_unit, MAX_CELL_VALUE. lra.
Qed.

Lemma hit_cell_in_range v : cell_in_range v -> cell_in_range (hit_cell rnd v).
Proof.
  intros [H0 H1]. unfold hit_cell, py_min, cell_in_range.
  destruct (Qlt_le_dec _ _) as [Hc | Hc].
  - unfold MAX_CELL_VALUE. lra.
  - split; [|exact Hc]. apply rnd_nonneg. unfold HIT_INCREMENT. lra.
Qed.

Lemma decay_grid_in_range g : grid_in_range g -> grid_in_range (decay_grid rnd g).
Proof.
  unfold grid_in_range, decay_grid. intros Hg.
  apply Forall_map. eapply Forall_impl; [exact Hg|].
  intros row Hrow. apply Forall_map. eapply Forall_impl; [exact Hrow|].
  intros v. apply decay_cell_in_range.
Qed.

Lemma grid_alter_in_range (f : Q -> Q) g r c :
  (forall v, cell_in_range v -> cell_in_range (f v)) ->
  grid_in_range g -> grid_in_range (grid_alter f g r c).
Proof.
  intros Hf Hg. unfold grid_alter, grid_in_range.
  apply Forall_alter; [exact Hg|]. intros row _ Hrow.
  apply Forall_alter; [exact Hrow|]. intros v _ Hv. apply Hf. exact Hv.
Qed.

End GridProperties.

Lemma exact_rounding_ok : rounding_ok (fun x => x).
Proof.
  split.
  - intros x y H. exact H.
  - reflexivity.
  - reflexivity.
  - intros x Hx _. unfold rnd_unit. lra.
Qed.

Lemma grid_in_rangeb_sound g : grid_in_rangeb g = true -> grid_in_range g.
Proof.
  unfold grid_in_rangeb, grid_in_range. rewrite forallb_forall. intros H.
  apply Forall_forall. intros row Hrow. apply Forall_forall. intros v Hv.
  apply list_elem_of_In in Hrow. apply list_elem_of_In in Hv.
  specialize (H row Hrow). rewrite forallb_forall in H. specialize (H v Hv).
  unfold cell_in_rangeb in H. apply andb_true_iff in H. destruct H as [H0 H1].
  split; now apply Qle_bool_iff.
Qed.

Lemma zeros_in_range : grid_in_range zeros.
Proof. apply grid_in_rangeb_sound. vm_compute. reflexivity. Qed.

Section GridInvariant.

Variable rnd : Q -> Q.
Variables fl sin_deg cos_deg : Q -> Q.
Hypothesis rnd_ok : rounding_ok rnd.

Lemma integrate_point_in_range heading g p :
  grid_in_range g -> grid_in_range (integrate_point rnd fl sin_deg cos_deg heading g p).
Proof.
  intros Hg. unfold integrate_point.
  destruct (classify_point fl sin_deg cos_deg heading p); try exact Hg.
  apply grid_alter_in_range; [|exact Hg].
  intros v. now apply hit_cell_in_range.
Qed.

Lemma update_occupancy_grid_in_range heading g points :
  grid_in_range g ->
  grid_in_range (update_occupancy_grid rnd fl sin_deg cos_deg heading g points).
Proof.
  intros Hg. unfold update_occupancy_grid.
  assert (Hd : grid_in_range (decay_grid rnd g)) by now apply decay_grid_in_range.
  revert Hd. generalize (decay_grid rnd g). induction points as [|p ps IH]; intros g' Hg'.
  - exact Hg'.
  - simpl. apply IH. now apply integrate_point_in_range.
Qed.

Lemma process_queued_data_in_range running heading g queue :
  grid_in_range g ->
  grid_in_range (fst (process_queued_data rnd fl sin_deg cos_deg running heading g queue)).
Proof.
  intros Hg. unfold process_queued_data.
  destruct queue as [|p1 [|p2 rest]]; simpl.
  - destruct running; simpl; [now apply decay_grid_in_range | exact Hg].
  - now apply update_occupancy_grid_in_range.
  - now do 2 apply update_occupancy_grid_in_range.
Qed.

Lemma repeated_hits_in_range n v :
  cell_in_range v -> cell_in_range (Nat.iter n (hit_cell rnd) v).
Proof.
  intros Hv. induction n as [|n IH]; simpl; [exact Hv|].
  now apply hit_cell_in_range.
Qed.

End GridInvariant.

Section DecayConvergence.

Variable rnd : Q -> Q.
Hypothesis rnd_ok : rounding_ok rnd.

Local Open Scope Q_scope.

Lemma decay_envelope_nonneg n : 0 <= decay_envelope n.
Proof.
  induction n as [|n IH]; simpl.
  - unfold MAX_CELL_VALUE. lra.
  - apply Qmult_le_0_compat; [|exact IH].
    unfold decay_factor_bound, DECAY_RATE, rnd_unit. lra.
Qed.

Lemma decay_envelope_le_max n : decay_envelope n <= MAX_CELL_VALUE.
Proof.
  induction n as [|n IH]; simpl; [apply Qle_refl|].
  pose proof (decay_envelope_nonneg n) as H0.
  apply Qle_trans with (1 * decay_envelope n); [|lra].
  apply Qmult_le_compat_r; [|exact H0].
  unfold decay_factor_bound, DECAY_RATE, rnd_unit. lra.
Qed.

Lemma iter_decay_cell_envelope n v :
  cell_in_range v ->
  0 <= Nat.iter n (decay_cell rnd) v /\ Nat.iter n (decay_cell rnd) v <= decay_envelope n.
Proof.
  intros [H0 H1]. induction n as [|n [IHa IHb]]; simpl.
  - split; assumption.
  - apply decay_cell_envelope;
      [exact rnd_ok | exact IHa | exact IHb | apply decay_envelope_le_max].
Qed.

Lemma decay_envelope_below_floor :
  decay_factor_bound * decay_envelope 25 < CLEAR_BELOW_VALUE.
Proof. vm_compute. reflexivity. Qed.

Lemma decay_cell_of_zero : decay_cell rnd 0 = 0.
Proof.
  apply (decay_cell_snaps rnd rnd_ok 0 0); try lra.
  - unfold MAX_CELL_VALUE. lra.
  - unfold decay_factor_bound, DECAY_RATE, rnd_unit, CLEAR_BELOW_VALUE. lra.
Qed.

Lemma iter_decay_cell_zero n v :
  cell_in_range v -> (decay_calls_to_zero <= n)%nat -> Nat.iter n (decay_cell rnd) v = 0.
Proof.
  intros Hv Hn. unfold decay_calls_to_zero in Hn.
  replace n with ((n - 26) + S 25)%nat by lia.
  rewrite Nat.iter_add, Nat.iter_succ.
  destruct (iter_decay_cell_envelope 25 v Hv) as [Ha Hb].
  rewrite (decay_cell_snaps rnd rnd_ok _ _ Ha Hb (decay_envelope_le_max 25)
             decay_envelope_below_floor).
  generalize (n - 26)%nat. intros m. induction m as [|m IH]; [reflexivity|].
  rewrite Nat.iter_succ, IH. exact decay_cell_of_zero.
Qed.

Lemma iter_decay_grid n g :
  Nat.iter n (decay_grid rnd) g = map (map (Nat.iter n (decay_cell rnd))) g.
Proof.
  induction n as [|n IH]; simpl.
  - rewrite <- (map_id g) at 1. apply map_ext. intros row. now rewrite map_id.
  - rewrite IH. unfold decay_grid. rewrite map_map. apply map_ext. intros row.
    now rewrite map_map.
Qed.

End DecayConvergence.

(** C4: decay alone empties the grid.  For a grid in range, after
    [decay_calls_to_zero] = 26 decays or more, with no hit in between, every
    cell is exactly 0; a processing cycle of the connected feed with an empty
    queue is one such decay; 26 is the least [n] with
    [MAX_CELL_VALUE * DECAY_RATE ^ n < CLEAR_BELOW_VALUE]. *)
Theorem decay_reaches_zero (rnd fl sin_deg cos_deg : Q -> Q) (g : grid) (n : nat) :
  rounding_ok rnd ->
  grid_in_range g ->
  (decay_calls_to_zero <= n)%nat ->
  Nat.iter n (decay_grid rnd) g = map (map (fun _ => 0%Q)) g /\
  (forall heading g', process_queued_data rnd fl sin_deg cos_deg true heading g' []
                      = (decay_grid rnd g', [])) /\
  (MAX_CELL_VALUE * DECAY_RATE ^ 26 < CLEAR_BELOW_VALUE)%Q /\
  (CLEAR_BELOW_VALUE <= MAX_CELL_VALUE * DECAY_RATE ^ 25)%Q.
Proof.
  intros Hok Hg Hn. split; [|split; [reflexivity | split; vm_compute; congruence]].
  rewrite iter_decay_grid. apply map_ext_in. intros row Hrow.
  apply map_ext_in. intros v Hv.
  apply iter_decay_cell_zero; [exact Hok | | exact Hn].
  unfold grid_in_range in Hg. rewrite Forall_forall in Hg.
  apply list_elem_of_In in Hrow, Hv.
  specialize (Hg row Hrow). rewrite Forall_forall in Hg. now apply Hg.
Qed.

Lemma decay_reaches_zero_witness :
  rounding_ok (fun x => x) /\ grid_in_range one_hot_grid /\
  Nat.iter 26 (decay_grid (fun x => x)) one_hot_grid = map (map (fun _ => 0%Q)) one_hot_grid.
Proof.
  assert (Hg : grid_in_range one_hot_grid)
    by (apply grid_in_rangeb_sound; vm_compute; reflexivity).
  assert (Hn : (decay_calls_to_zero <= 26)%nat) by (unfold decay_calls_to_zero; lia).
  split; [exact exact_rounding_ok|]. split; [exact Hg|].
  exact (proj1 (decay_reaches_zero (fun x => x) (fun x => x) (fun _ => 0%Q) (fun _ => 1%Q)
                  one_hot_grid 26 exact_rounding_ok Hg Hn)).
Defined.

(** ** Frame transform *)

Lemma py_mod_360_range x : (0 <= py_mod x 360 /\ py_mod x 360 < 360)%Q.
Proof.
  unfold py_mod. rewrite Qred_correct.
  set (y := (x / 360)%Q).
  assert (Hx : (x == 360 * y)%Q) by (unfold y; field).
  pose proof (Qfloor_le y) as Hlo. pose proof (Qlt_floor y) as Hhi.
  rewrite inject_Z_plus in Hhi. change (inject_Z 1) with 1%Q in Hhi.
  rewrite Hx. split; lra.
Qed.

Lemma Qltb_true a b : Qltb a b = true <-> (a < b)%Q.
Proof.
  unfold Qltb. destruct (Qlt_le_dec a b) as [H | H]; split; intros H'; try easy.
  exfalso. lra.
Qed.

Lemma Qltb_false a b : Qltb a b = false <-> (b <= a)%Q.
Proof.
  unfold Qltb. destruct (Qlt_le_dec a b) as [H | H]; split; intros H'; try easy.
  exfalso. lra.
Qed.

Lemma in_bounds_spec r c :
  in_bounds r c = true <-> (0 <= r < GRID_DIMENSION /\ 0 <= c < GRID_DIMENSION).
Proof. unfold in_bounds. rewrite !andb_true_iff, !Z.leb_le, !Z.ltb_lt. lia. Qed.

(** The quotient [int] truncates is less than 1 away from its result. *)
Lemma py_int_near q :
  (-1 < q - inject_Z (py_int q) /\ q - inject_Z (py_int q) < 1)%Q.
Proof.
  destruct q as [a b]. unfold py_int. cbn [Qnum Qden].
  pose proof (Z.quot_rem' a (Zpos b)) as Hqr.
  assert (Hrem : Z.abs (Z.rem a (Zpos b)) < Zpos b).
  { pose proof (Z.rem_bound_abs a (Zpos b) ltac:(lia)) as H. lia. }
  unfold Qlt, Qminus, Qplus, Qopp, inject_Z. cbn [Qnum Qden].
  set (t := Z.quot a (Zpos b)) in *. set (r := Z.rem a (Zpos b)) in *.
  rewrite Hqr. split; nia.
Qed.

(** [fmod] by 360 stays strictly between -360 and 360. *)
Lemma c_fmod_360_range x : (-360 < c_fmod x 360 /\ c_fmod x 360 < 360)%Q.
Proof.
  unfold c_fmod. rewrite Qred_correct.
  pose proof (py_int_near (x / 360)) as [Hlo Hhi].
  set (t := inject_Z (py_int (x / 360))) in *.
  assert (Hx : (x == 360 * (x / 360))%Q) by field.
  split; lra.
Qed.

(** A remainder by 360 on doubles is in [0, 360]: the one rounded sum can
    reach 360 itself. *)
Lemma float_mod_360_range (fl : Q -> Q) x :
  (forall y, (0 <= y /\ y <= 360)%Q -> (0 <= fl y /\ fl y <= 360)%Q) ->
  (0 <= float_mod fl x 360 /\ float_mod fl x 360 <= 360)%Q.
Proof.
  intros Hfl. unfold float_mod. cbv zeta.
  pose proof (c_fmod_360_range x) as [Hlo Hhi].
  destruct (Qeq_bool (c_fmod x 360) 0); [split; lra|].
  destruct (Qlt_le_dec 360 0) as [H | _]; [exfalso; lra|].
  destruct (Qlt_le_dec (c_fmod x 360) 0) as [Hneg | Hpos]; cbn [xorb].
  - apply Hfl. split; lra.
  - split; lra.
Qed.



(** ** Sending commands *)

Module NavFacts.

Import Planner Nav NavSpec.

Section SendCommand.

Variable net : nat -> transport_result.

Lemma send_command_blocked command v :
  attempted command v = false -> send_command net command v = (false, v).
Proof.
  unfold attempted, send_command. intros H. apply negb_false_iff in H. now rewrite H.
Qed.

Lemma send_command_delivered command v :
  attempted command v = true ->
  net (length (wire_log v)) = Delivered ->
  send_command net command v
  = (true, set_last_command_sent_successful true
             (set_wire_log (wire_log v ++ [(command, Delivered)]) v)).
Proof.
  unfold attempted, send_command. intros H Hnet. apply negb_true_iff in H.
  rewrite H, Hnet. reflexivity.
Qed.

Lemma send_command_failed command v :
  attempted command v = true ->
  net (length (wire_log v)) <> Delivered ->
  send_command net command v
  = (false, handle_command_send_error
              (set_wire_log (wire_log v ++ [(command, net (length (wire_log v)))]) v)).
Proof.
  unfold attempted, send_command. intros H Hnet. apply negb_true_iff in H.
  rewrite H. destruct (net (length (wire_log v))); [congruence | reflexivity ..].
Qed.

Lemma attempted_stop v : attempted "S" v = true.
Proof. unfold attempted. simpl. now rewrite andb_false_r. Qed.

Lemma attempted_not_idle command v :
  navigation_state v <> NAV_STATE_IDLE -> attempted command v = true.
Proof. unfold attempted. destruct (navigation_state v); simpl; congruence. Qed.

(** What [send_command] never touches. *)
Lemma send_command_frame command v :
  let v' := snd (send_command net command v) in
  occupancy_grid v' = occupancy_grid v /\
  data_queue v' = data_queue v /\
  is_udp_running v' = is_udp_running v /\
  navigation_goal_cell v' = navigation_goal_cell v /\
  current_path v' = current_path v /\
  current_logical_robot_cell_on_path v' = current_logical_robot_cell_on_path v /\
  robot_orientation_map_deg v' = robot_orientation_map_deg v /\
  current_action_end_time v' = current_action_end_time v /\
  planner_alive v' = planner_alive v /\
  planner_callbacks v' = planner_callbacks v.
Proof.
  unfold send_command, handle_command_send_error.
  destruct (nav_state_eqb _ _ && _); [simpl; tauto|].
  destruct (net _); simpl; try tauto;
    destruct (negb _); simpl; tauto.
Qed.

End SendCommand.

End NavFacts.

(** C10: a command other than ['S'] given while the state is IDLE makes
    [send_command] return [False] with no connection attempt and no change of
    state, so [NAV_STATE_ROBOT_CMD_ERROR] is not entered; ['S'] is attempted
    in every state. *)
Theorem idle_gate_of_send_command
    (net : nat -> Nav.transport_result) (command : string) (v : Nav.viewer) :
  (command <> "S"%string ->
   Nav.navigation_state v = Nav.NAV_STATE_IDLE ->
   Nav.send_command net command v = (false, v) /\
   Nav.wire_log (snd (Nav.send_command net command v)) = Nav.wire_log v /\
   Nav.navigation_state (snd (Nav.send_command net command v)) <> Nav.NAV_STATE_ROBOT_CMD_ERROR) /\
  Nav.wire_log (snd (Nav.send_command net "S" v))
  = Nav.wire_log v ++ [("S"%string, net (length (Nav.wire_log v)))].
Proof.
  split.
  - intros Hcmd Hidle.
    assert (Hb : NavSpec.attempted command v = false).
    { unfold NavSpec.attempted. rewrite Hidle. simpl.
      apply String.eqb_neq in Hcmd. now rewrite Hcmd. }
    rewrite (NavFacts.send_command_blocked net command v Hb). simpl.
    repeat split. rewrite Hidle. discriminate.
  - unfold Nav.send_command. simpl String.eqb. rewrite andb_false_r.
    unfold Nav.handle_command_send_error.
    destruct (net _); simpl; try reflexivity;
      destruct (negb _); reflexivity.
Qed.

Lemma idle_gate_of_send_command_witness :
  Nav.send_command NavSpec.net_down "F" Nav.init_viewer = (false, Nav.init_viewer) /\
  Nav.wire_log (snd (Nav.send_command NavSpec.net_down "S" Nav.init_viewer))
  = [("S"%string, Nav.SocketTimeout)].
Proof.
  destruct (idle_gate_of_send_command NavSpec.net_down "F" Nav.init_viewer) as [H _].
  destruct (idle_gate_of_send_command NavSpec.net_down "S" Nav.init_viewer) as [_ H'].
  split.
  - apply H; [discriminate | reflexivity].
  - exact H'.
Defined.

(** The stop sent when the planner answers that the robot is already at its
    goal fails on a dead link, and the state stays [NAV_STATE_REACHED_GOAL]:
    not every failed send enters [NAV_STATE_ROBOT_CMD_ERROR]. *)
Lemma failed_stop_at_goal_keeps_state :
  let v := Nav.run (fun x => x) (fun x => x) quadrant_sin quadrant_cos NavSpec.net_down
             [Nav.ToggleConnection true true; Nav.MapClick false 40 40;
              Nav.PlannerThreadRuns; Nav.PlannerCallbackRuns] Nav.init_viewer in
  Nav.wire_log v = [("S"%string, Nav.SocketTimeout)] /\
  Nav.navigation_state v = Nav.NAV_STATE_REACHED_GOAL /\
  Nav.send_command NavSpec.net_down "S" NavSpec.viewer_at_goal
  = (false, Nav.set_wire_log [("S"%string, Nav.SocketTimeout)]
              (Nav.set_last_command_sent_successful false NavSpec.viewer_at_goal)) /\
  ~ NavSpec.every_failure_enters_error.
Proof.
  split; [vm_compute; reflexivity|].
  split; [vm_compute; reflexivity|].
  split; [vm_compute; reflexivity|].
  intros H.
  specialize (H NavSpec.net_down "S"%string NavSpec.viewer_at_goal).
  discriminate H; [reflexivity | discriminate].
Qed.

(** C5, amended: a failed connection attempt of [send_command], whatever the
    exception, gives the caller [False], records the failure in
    [last_command_sent_successful] and cancels the pending action timer; the
    state becomes [NAV_STATE_ROBOT_CMD_ERROR] unless it is IDLE, REACHED_GOAL
    or NO_PATH_FOUND, which are kept. *)
Theorem transport_failure_is_reported
    (net : nat -> Nav.transport_result) (command : string) (v : Nav.viewer) :
  NavSpec.attempted command v = true ->
  net (length (Nav.wire_log v)) <> Nav.Delivered ->
  let v' := snd (Nav.send_command net command v) in
  fst (Nav.send_command net command v) = false /\
  Nav.last_command_sent_successful v' = false /\
  Nav.action_timer_id v' = None /\
  Nav.wire_log v' = Nav.wire_log v ++ [(command, net (length (Nav.wire_log v)))] /\
  Nav.navigation_state v' =
    (if Nav.state_in (Nav.navigation_state v)
          [Nav.NAV_STATE_IDLE; Nav.NAV_STATE_REACHED_GOAL; Nav.NAV_STATE_NO_PATH_FOUND]
     then Nav.navigation_state v else Nav.NAV_STATE_ROBOT_CMD_ERROR).
Proof.
  intros Hatt Hnet v'. subst v'.
  rewrite (NavFacts.send_command_failed net command v Hatt Hnet).
  unfold Nav.handle_command_send_error. clear Hatt Hnet.
  destruct v as [? ? ? ? ? ? st ? ? ? ? ? ? ?]. simpl.
  destruct st; simpl; repeat split; reflexivity.
Qed.

Lemma transport_failure_is_reported_witness :
  Nav.navigation_state
    (snd (Nav.send_command NavSpec.net_down "F"
            (Nav.set_navigation_state Nav.NAV_STATE_MOVING_FORWARD NavSpec.viewer_ahead)))
  = Nav.NAV_STATE_ROBOT_CMD_ERROR.
Proof.
  apply (transport_failure_is_reported NavSpec.net_down "F"
           (Nav.set_navigation_state Nav.NAV_STATE_MOVING_FORWARD NavSpec.viewer_ahead)).
  - reflexivity.
  - discriminate.
Defined.

(** ** Heading bookkeeping *)

Module HeadingFacts.

Import Planner Nav NavSpec.

Lemma turned_left_ok h : heading_ok h -> heading_ok (turned_left h).
Proof.
  unfold heading_ok. intros [-> | [-> | [-> | ->]]]; vm_compute; tauto.
Qed.

Lemma turned_right_ok h : heading_ok h -> heading_ok (turned_right h).
Proof.
  unfold heading_ok. intros [-> | [-> | [-> | ->]]]; vm_compute; tauto.
Qed.

Section Handlers.

Variable rnd : Q -> Q.
Variables fl sin_deg cos_deg : Q -> Q.
Variable net : nat -> transport_result.

Lemma send_command_heading command v :
  robot_orientation_map_deg (snd (send_command net command v)) = robot_orientation_map_deg v.
Proof. apply (NavFacts.send_command_frame net command v). Qed.

Lemma send_command_path command v :
  current_path (snd (send_command net command v)) = current_path v.
Proof. apply (NavFacts.send_command_frame net command v). Qed.

Ltac via_send_heading :=
  etransitivity; [apply send_command_heading | reflexivity].

Lemma issue_command_heading now st command v :
  (st = NAV_STATE_TURNING_LEFT -> command = "L"%string) ->
  (st = NAV_STATE_TURNING_RIGHT -> command = "R"%string) ->
  heading_change v (issue_command net now st command v).
Proof.
  intros HL HR. unfold issue_command, send_command, handle_command_send_error.
  destruct v as [? ? ? ? ? ? st0 h ? ? ? ? ? wl]. cbn.
  destruct (nav_state_eqb st NAV_STATE_IDLE && negb (String.eqb command "S")) eqn:Egate.
  - now apply heading_kept.
  - destruct (net (length wl)) eqn:Enet; cbn.
    + destruct st; cbn; try (now apply heading_kept).
      * rewrite (HL eq_refl). now apply heading_left.
      * rewrite (HR eq_refl). now apply heading_right.
    + destruct st; cbn; now apply heading_kept.
    + destruct st; cbn; now apply heading_kept.
    + destruct st; cbn; now apply heading_kept.
Qed.

Lemma execute_navigation_step_heading now v :
  heading_change v (execute_navigation_step net now v).
Proof.
  unfold execute_navigation_step. cbv zeta.
  destruct (state_in (navigation_state v) _); [now apply heading_kept|].
  destruct (Qltb now (current_action_end_time v)); [now apply heading_kept|].
  destruct (current_path v) as [|next rest].
  - destruct (goal_is v _); [now apply heading_kept|].
    destruct (negb _); now apply heading_kept.
  - destruct (negb (is_valid_and_clear _ _ _)).
    + destruct (negb _); apply heading_kept; via_send_heading.
    + destruct (classify_step _ _) as [target | |].
      * destruct (choose_motion _ _).
        -- apply issue_command_heading; discriminate.
        -- apply issue_command_heading; [discriminate | reflexivity].
        -- apply issue_command_heading; [reflexivity | discriminate].
        -- apply heading_kept; via_send_heading.
      * now apply heading_kept.
      * apply heading_kept; via_send_heading.
Qed.

Lemma on_action_completed_heading v :
  robot_orientation_map_deg (on_action_completed net v) = robot_orientation_map_deg v.
Proof.
  unfold on_action_completed. cbv zeta.
  destruct (negb (last_command_sent_successful _)); [reflexivity|].
  pose proof (send_command_heading "S" (set_action_timer_id None v)) as H.
  destruct (send_command net "S" (set_action_timer_id None v)) as [ok v1]. cbn in H.
  destruct (negb ok); [exact H|].
  destruct (state_in _ _); [|exact H].
  destruct (current_path v1); [destruct (goal_is _ _)|]; exact H.
Qed.

Lemma on_action_completed_path v :
  current_path (on_action_completed net v) = current_path v.
Proof.
  unfold on_action_completed. cbv zeta.
  destruct (negb (last_command_sent_successful _)); [reflexivity|].
  pose proof (send_command_path "S" (set_action_timer_id None v)) as H.
  destruct (send_command net "S" (set_action_timer_id None v)) as [ok v1]. cbn in H.
  destruct (negb ok); [exact H|].
  destruct (state_in _ _); [|exact H].
  destruct (current_path v1) eqn:E; [destruct (goal_is _ _)|]; cbn; rewrite E; exact H.
Qed.

Lemma action_timer_fires_heading v :
  robot_orientation_map_deg (action_timer_fires net v) = robot_orientation_map_deg v.
Proof.
  unfold action_timer_fires. destruct (action_timer_id v) as [[|]|].
  - apply on_action_completed_heading.
  - unfold on_action_completed_no_command. cbv zeta. now destruct (negb _).
  - reflexivity.
Qed.

Lemma handle_map_click_heading confirm r c v :
  robot_orientation_map_deg (handle_map_click net confirm r c v) = robot_orientation_map_deg v.
Proof.
  unfold handle_map_click. cbv zeta.
  destruct (negb (is_udp_running v)); [reflexivity|].
  destruct (state_in _ _); cbn [andb].
  - destruct (negb confirm); [reflexivity|].
    destruct (in_bounds r c); [|via_send_heading].
    destruct (grid_get _ r c); [|via_send_heading].
    destruct (negb _); [via_send_heading|].
    destruct (planner_alive _); via_send_heading.
  - destruct (in_bounds r c); [|reflexivity].
    destruct (grid_get _ r c); [|reflexivity].
    destruct (negb _); [reflexivity|].
    now destruct (planner_alive _).
Qed.

Lemma planner_events_heading v :
  robot_orientation_map_deg (planner_thread_runs v) = robot_orientation_map_deg v /\
  robot_orientation_map_deg (planner_callback_runs net v) = robot_orientation_map_deg v.
Proof.
  split.
  - unfold planner_thread_runs. destruct (planner_alive v); [|reflexivity].
    now destruct (plan_path _ _ _).
  - unfold planner_callback_runs. destruct (planner_callbacks v) as [|[path | reason] rest];
      [reflexivity | | reflexivity].
    unfold path_planning_succeeded. cbv zeta. destruct path; [|reflexivity].
    destruct (goal_is _ _); [|reflexivity]. via_send_heading.
Qed.

Lemma toggle_connection_heading ip_given bind_ok v :
  robot_orientation_map_deg (toggle_connection net ip_given bind_ok v)
  = (if is_udp_running v || ip_given then 0%Q else robot_orientation_map_deg v).
Proof.
  unfold toggle_connection, start_udp_listener. cbv zeta.
  destruct (is_udp_running v); [reflexivity|].
  now destruct ip_given.
Qed.

Lemma periodic_update_heading now v :
  heading_change v (periodic_update rnd fl sin_deg cos_deg net now v).
Proof.
  unfold periodic_update.
  destruct (process_queued_data _ _ _ _ _ _ _) as [g q]. cbv zeta.
  set (v1 := set_data_queue q (set_occupancy_grid g v)).
  destruct (is_udp_running v1); [|now apply heading_kept].
  destruct (execute_navigation_step_heading now v1) as [H | H1 H2 | H1 H2].
  - now apply heading_kept.
  - now apply heading_left.
  - now apply heading_right.
Qed.

Lemma on_close_heading v :
  robot_orientation_map_deg (on_close net v) = robot_orientation_map_deg v.
Proof.
  unfold on_close, stop_udp_listener. cbv zeta.
  destruct (is_udp_running v && _).
  - destruct (is_udp_running _); via_send_heading.
  - now destruct (is_udp_running _).
Qed.

(** A handler other than [_toggle_connection] changes the heading by a
    delivered quarter turn at most, and only in [_periodic_update]. *)
Lemma handle_heading e v :
  match e with
  | ToggleConnection ip_given bind_ok =>
      robot_orientation_map_deg (handle rnd fl sin_deg cos_deg net e v)
      = (if is_udp_running v || ip_given then 0%Q else robot_orientation_map_deg v)
  | PeriodicUpdate _ => heading_change v (handle rnd fl sin_deg cos_deg net e v)
  | _ => robot_orientation_map_deg (handle rnd fl sin_deg cos_deg net e v)
         = robot_orientation_map_deg v
  end.
Proof.
  destruct e; cbn [handle].
  - apply toggle_connection_heading.
  - unfold udp_receive. now destruct (is_udp_running v).
  - apply handle_map_click_heading.
  - apply planner_events_heading.
  - apply planner_events_heading.
  - apply periodic_update_heading.
  - apply action_timer_fires_heading.
  - apply on_close_heading.
Qed.

Lemma reachable_heading_ok v :
  reachable rnd fl sin_deg cos_deg net v -> heading_ok (robot_orientation_map_deg v).
Proof.
  induction 1 as [|e v Hv IH].
  - left. reflexivity.
  - pose proof (handle_heading e v) as H. destruct e;
      try (rewrite H; exact IH).
    + rewrite H. destruct (is_udp_running v || ip_given); [now left | exact IH].
    + destruct H as [H | H _ | H _]; rewrite H;
        [exact IH | now apply turned_left_ok | now apply turned_right_ok].
Qed.

End Handlers.

End HeadingFacts.

(** C9: the believed heading is always one of 0, 90, 180 and 270.  It starts
    at 0; [_toggle_connection] sets it to 0 when it disconnects or connects;
    no other handler changes it, except [_periodic_update] by a quarter turn
    left, [(h - 90 + 360) mod 360], or right, [(h + 90) mod 360], whose command
    was just delivered to the robot. *)
Theorem heading_is_always_cardinal
    (rnd fl sin_deg cos_deg : Q -> Q) (net : nat -> Nav.transport_result) :
  Nav.robot_orientation_map_deg Nav.init_viewer = 0%Q /\
  (forall v, Nav.reachable rnd fl sin_deg cos_deg net v ->
     NavSpec.heading_ok (Nav.robot_orientation_map_deg v)) /\
  (forall ip_given bind_ok v,
     Nav.is_udp_running v = true \/ ip_given = true ->
     Nav.robot_orientation_map_deg (Nav.toggle_connection net ip_given bind_ok v) = 0%Q) /\
  (forall e v,
     let v' := Nav.handle rnd fl sin_deg cos_deg net e v in
     Nav.robot_orientation_map_deg v' = Nav.robot_orientation_map_deg v \/
     ((exists ip_given bind_ok, e = Nav.ToggleConnection ip_given bind_ok) /\
      Nav.robot_orientation_map_deg v' = 0%Q) \/
     ((exists now, e = Nav.PeriodicUpdate now) /\
      Nav.robot_orientation_map_deg v' = Nav.turned_left (Nav.robot_orientation_map_deg v) /\
      Nav.wire_log v' = Nav.wire_log v ++ [("L"%string, Nav.Delivered)]) \/
     ((exists now, e = Nav.PeriodicUpdate now) /\
      Nav.robot_orientation_map_deg v' = Nav.turned_right (Nav.robot_orientation_map_deg v) /\
      Nav.wire_log v' = Nav.wire_log v ++ [("R"%string, Nav.Delivered)])).
Proof.
  split; [reflexivity|].
  split; [intros v; apply HeadingFacts.reachable_heading_ok|].
  split.
  - intros ip_given bind_ok v H. rewrite HeadingFacts.toggle_connection_heading.
    destruct H as [-> | ->]; [reflexivity | now rewrite orb_true_r].
  - intros e v v'. subst v'.
    pose proof (HeadingFacts.handle_heading rnd fl sin_deg cos_deg net e v) as H.
    destruct e; try (left; exact H).
    + destruct (Nav.is_udp_running v || ip_given); [|left; exact H].
      right. left. split; [now exists ip_given, bind_ok | exact H].
    + destruct H as [H | H1 H2 | H1 H2].
      * left. exact H.
      * right. right. left. split; [now exists now | now split].
      * right. right. right. split; [now exists now | now split].
Qed.

Lemma reachable_run (rnd fl sin_deg cos_deg : Q -> Q) (net : nat -> Nav.transport_result)
    events v :
  Nav.reachable rnd fl sin_deg cos_deg net v ->
  Nav.reachable rnd fl sin_deg cos_deg net (Nav.run rnd fl sin_deg cos_deg net events v).
Proof.
  revert v. induction events as [|e es IH]; intros v Hv; [exact Hv|].
  simpl. apply IH. now constructor.
Qed.

Lemma heading_is_always_cardinal_witness :
  let v := Nav.run (fun x => x) (fun x => x) quadrant_sin quadrant_cos NavSpec.net_up
             [Nav.ToggleConnection true true; Nav.MapClick false 40 41;
              Nav.PlannerThreadRuns; Nav.PlannerCallbackRuns; Nav.PeriodicUpdate 1]
             Nav.init_viewer in
  Nav.robot_orientation_map_deg v = 90%Q /\
  NavSpec.heading_ok (Nav.robot_orientation_map_deg v).
Proof.
  split; [vm_compute; reflexivity|].
  apply (heading_is_always_cardinal (fun x => x) (fun x => x) quadrant_sin quadrant_cos NavSpec.net_up).
  apply reachable_run. constructor.
Defined.

(** ** The decision of a navigation step *)

Module StepFacts.

Import Planner Nav NavSpec.

Lemma cardinal_targets dr dc target :
  classify_step dr dc = Cardinal target ->
  target = 0%Q \/ target = 90%Q \/ target = 180%Q \/ target = 270%Q.
Proof.
  unfold classify_step.
  repeat (destruct (_ && _); [intros [= <-]; tauto|]). discriminate.
Qed.

(** The turn table on the headings the controller works with. *)
Lemma decision_table target h :
  heading_ok target -> heading_ok h ->
  (orientation_diff target h = 0%Q /\ h = target /\ choose_motion target h = ChooseForward) \/
  (orientation_diff target h = 90%Q /\ choose_motion target h = ChooseRight /\
   turned_right h = target) \/
  (orientation_diff target h = 270%Q /\ choose_motion target h = ChooseLeft /\
   turned_left h = target) \/
  (orientation_diff target h = 180%Q /\ choose_motion target h = ChooseRight /\
   orientation_diff target (turned_right h) = 90%Q /\
   choose_motion target (turned_right h) = ChooseRight /\
   turned_right (turned_right h) = target).
Proof.
  unfold heading_ok.
  intros [-> | [-> | [-> | ->]]] [-> | [-> | [-> | ->]]]; vm_compute; tauto.
Qed.

Lemma forward_when_no_turn target h :
  needs_turn (orientation_diff target h) = false -> choose_motion target h = ChooseForward.
Proof. unfold choose_motion. now intros ->. Qed.

Lemma no_forward_when_turn target h :
  needs_turn (orientation_diff target h) = true -> choose_motion target h <> ChooseForward.
Proof.
  unfold choose_motion. intros ->. cbn.
  repeat (destruct (_ || _) || destruct (near _ _ && true) || destruct (near _ _));
    discriminate.
Qed.

Section Step.

Variable net : nat -> transport_result.

Lemma execute_at_decision now v next_cell rest target :
  at_decision now v next_cell rest target ->
  execute_navigation_step net now v =
  match choose_motion target (robot_orientation_map_deg v) with
  | ChooseForward => issue_command net now NAV_STATE_MOVING_FORWARD "F" v
  | ChooseRight => issue_command net now NAV_STATE_TURNING_RIGHT "R" v
  | ChooseLeft => issue_command net now NAV_STATE_TURNING_LEFT "L" v
  | UnhandledTurn =>
      set_current_path []
        (set_navigation_state NAV_STATE_PATH_BLOCKED (snd (send_command net "S" v)))
  end.
Proof.
  intros (Hst & Htime & Hpath & Hclear & Hstep).
  unfold execute_navigation_step. cbv zeta.
  assert (Hgate : state_in (navigation_state v)
            [NAV_STATE_IDLE; NAV_STATE_PLANNING; NAV_STATE_REACHED_GOAL;
             NAV_STATE_NO_PATH_FOUND; NAV_STATE_PATH_BLOCKED; NAV_STATE_ROBOT_CMD_ERROR]
          = false)
    by (destruct (navigation_state v); try discriminate Hst; reflexivity).
  rewrite Hgate, Htime, Hpath, Hclear. cbn [negb]. rewrite Hstep. reflexivity.
Qed.

Lemma issue_command_delivered now st command v :
  st <> NAV_STATE_IDLE ->
  net (length (wire_log v)) = Delivered ->
  issue_command net now st command v = after_delivery now st command v.
Proof.
  intros Hst Hnet. unfold issue_command, after_delivery. cbv zeta.
  rewrite (NavFacts.send_command_delivered net command (set_navigation_state st v)).
  - destruct st; reflexivity.
  - apply NavFacts.attempted_not_idle. exact Hst.
  - exact Hnet.
Qed.

Lemma issue_command_failed now st command v :
  st = NAV_STATE_MOVING_FORWARD \/ st = NAV_STATE_TURNING_LEFT \/ st = NAV_STATE_TURNING_RIGHT ->
  net (length (wire_log v)) <> Delivered ->
  navigation_state (issue_command net now st command v) = NAV_STATE_ROBOT_CMD_ERROR /\
  wire_log (issue_command net now st command v)
  = wire_log v ++ [(command, net (length (wire_log v)))] /\
  current_path (issue_command net now st command v) = current_path v /\
  robot_orientation_map_deg (issue_command net now st command v)
  = robot_orientation_map_deg v.
Proof.
  intros Hst Hnet. unfold issue_command. cbv zeta.
  rewrite (NavFacts.send_command_failed net command (set_navigation_state st v)).
  - unfold handle_command_send_error. destruct Hst as [-> | [-> | ->]]; cbn; tauto.
  - apply NavFacts.attempted_not_idle. destruct Hst as [-> | [-> | ->]]; discriminate.
  - exact Hnet.
Qed.

Lemma issue_command_log now st command v :
  st = NAV_STATE_MOVING_FORWARD \/ st = NAV_STATE_TURNING_LEFT \/ st = NAV_STATE_TURNING_RIGHT ->
  wire_log (issue_command net now st command v)
  = wire_log v ++ [(command, net (length (wire_log v)))].
Proof.
  intros Hst. destruct (net (length (wire_log v))) eqn:E.
  - rewrite issue_command_delivered; [| destruct Hst as [-> | [-> | ->]]; discriminate | exact E].
    destruct Hst as [-> | [-> | ->]]; reflexivity.
  - rewrite <- E. apply issue_command_failed; [exact Hst | congruence].
  - rewrite <- E. apply issue_command_failed; [exact Hst | congruence].
  - rewrite <- E. apply issue_command_failed; [exact Hst | congruence].
Qed.

(** [_on_action_completed] when the timed command had been delivered and the
    stop is delivered too. *)
Lemma on_action_completed_delivered v :
  last_command_sent_successful v = true ->
  net (length (wire_log v)) = Delivered ->
  on_action_completed net v =
  let v1 := set_last_command_sent_successful true
              (set_wire_log (wire_log v ++ [("S"%string, Delivered)])
                 (set_action_timer_id None v)) in
  if state_in (navigation_state v)
       [NAV_STATE_MOVING_FORWARD; NAV_STATE_TURNING_LEFT;
        NAV_STATE_TURNING_RIGHT; NAV_STATE_AWAITING_NEXT_STEP]
  then
    if match current_path v with [] => true | _ => false end
       && goal_is v (current_logical_robot_cell_on_path v)
    then set_navigation_state NAV_STATE_REACHED_GOAL v1
    else set_navigation_state NAV_STATE_AWAITING_NEXT_STEP v1
  else v1.
Proof.
  intros Hlast Hnet. unfold on_action_completed. cbv zeta.
  change (last_command_sent_successful (set_action_timer_id None v))
    with (last_command_sent_successful v). rewrite Hlast. cbn [negb].
  rewrite (NavFacts.send_command_delivered net "S" (set_action_timer_id None v));
    [| apply NavFacts.attempted_stop | exact Hnet].
  cbn [negb].
  change (navigation_state (set_last_command_sent_successful true _))
    with (navigation_state v).
  destruct (state_in (navigation_state v) _); [|reflexivity].
  change (current_path (set_last_command_sent_successful true _)) with (current_path v).
  destruct (current_path v); [|reflexivity]. cbn [andb].
  change (goal_is (set_last_command_sent_successful true _) _)
    with (goal_is v (current_logical_robot_cell_on_path v)).
  now destruct (goal_is v _).
Qed.

End Step.

End StepFacts.

(** C6: at a decision with a clear cardinal path head, a heading within the
    tolerance of the target sends ['F'] from [NAV_STATE_MOVING_FORWARD];
    otherwise, on the headings of the controller, exactly one quarter-turn
    command is sent, chosen from the heading delta modulo 360: ['R'] for 90,
    ['L'] for 270, which is -90, and ['R'] for 180; after 180 the next
    decision sends a second ['R'], which brings the heading to the target.
    The state of the command is kept when the command is delivered. *)
Theorem navigation_step_decision
    (net : nat -> Nav.transport_result) (now : Q) (v : Nav.viewer)
    (next_cell : cell) (rest : list cell) (target : Q) :
  NavSpec.at_decision now v next_cell rest target ->
  let h := Nav.robot_orientation_map_deg v in
  let diff := Nav.orientation_diff target h in
  let k := length (Nav.wire_log v) in
  let v' := Nav.execute_navigation_step net now v in
  (Nav.needs_turn diff = false ->
     Nav.wire_log v' = Nav.wire_log v ++ [("F"%string, net k)] /\
     (net k = Nav.Delivered -> Nav.navigation_state v' = Nav.NAV_STATE_MOVING_FORWARD) /\
     (net k <> Nav.Delivered -> Nav.navigation_state v' = Nav.NAV_STATE_ROBOT_CMD_ERROR)) /\
  (Nav.needs_turn diff = true -> NavSpec.heading_ok h ->
     exists command st,
       ((diff = 90%Q /\ command = "R"%string /\ st = Nav.NAV_STATE_TURNING_RIGHT) \/
        (diff = 270%Q /\ command = "L"%string /\ st = Nav.NAV_STATE_TURNING_LEFT) \/
        (diff = 180%Q /\ command = "R"%string /\ st = Nav.NAV_STATE_TURNING_RIGHT)) /\
       Nav.wire_log v' = Nav.wire_log v ++ [(command, net k)] /\
       (net k = Nav.Delivered -> Nav.navigation_state v' = st) /\
       (net k <> Nav.Delivered -> Nav.navigation_state v' = Nav.NAV_STATE_ROBOT_CMD_ERROR)) /\
  (NavSpec.heading_ok h -> diff = 180%Q ->
   net k = Nav.Delivered -> net (S k) = Nav.Delivered -> net (S (S k)) = Nav.Delivered ->
   forall now', (now + ACTION_DURATION_S <= now')%Q ->
     let v3 := Nav.execute_navigation_step net now' (Nav.action_timer_fires net v') in
     Nav.robot_orientation_map_deg v' = Nav.turned_right h /\
     Nav.wire_log v3 = Nav.wire_log v ++ [("R"%string, Nav.Delivered);
                                         ("S"%string, Nav.Delivered);
                                         ("R"%string, Nav.Delivered)] /\
     Nav.robot_orientation_map_deg v3 = target) /\
  Nav.orientation_diff 0 90 = 270%Q.
Proof.
  intros Hdec h diff k v'.
  pose proof (StepFacts.execute_at_decision net now v next_cell rest target Hdec) as Hexec.
  fold v' h in Hexec.
  assert (Htarget : NavSpec.heading_ok target).
  { destruct Hdec as (_ & _ & _ & _ & Hstep).
    exact (StepFacts.cardinal_targets _ _ _ Hstep). }
  split; [|split; [|split; [|vm_compute; reflexivity]]].
  - intros Hno. rewrite (StepFacts.forward_when_no_turn target h Hno) in Hexec.
    rewrite Hexec. split; [apply StepFacts.issue_command_log; tauto|]. split.
    + intros Hnet. rewrite StepFacts.issue_command_delivered;
        [reflexivity | discriminate | exact Hnet].
    + intros Hnet. apply StepFacts.issue_command_failed; [tauto | exact Hnet].
  - intros Hturn Hh.
    destruct (StepFacts.decision_table target h Htarget Hh)
      as [(Hd & _) | [(Hd & Hc & _) | [(Hd & Hc & _) | (Hd & Hc & _)]]];
      fold diff in Hd.
    + exfalso. rewrite Hd in Hturn. vm_compute in Hturn. discriminate.
    + exists "R"%string, Nav.NAV_STATE_TURNING_RIGHT. rewrite Hc in Hexec. rewrite Hexec.
      split; [tauto|]. split; [apply StepFacts.issue_command_log; tauto|]. split.
      * intros Hnet. rewrite StepFacts.issue_command_delivered;
          [reflexivity | discriminate | exact Hnet].
      * intros Hnet. apply StepFacts.issue_command_failed; [tauto | exact Hnet].
    + exists "L"%string, Nav.NAV_STATE_TURNING_LEFT. rewrite Hc in Hexec. rewrite Hexec.
      split; [tauto|]. split; [apply StepFacts.issue_command_log; tauto|]. split.
      * intros Hnet. rewrite StepFacts.issue_command_delivered;
          [reflexivity | discriminate | exact Hnet].
      * intros Hnet. apply StepFacts.issue_command_failed; [tauto | exact Hnet].
    + exists "R"%string, Nav.NAV_STATE_TURNING_RIGHT. rewrite Hc in Hexec. rewrite Hexec.
      split; [tauto|]. split; [apply StepFacts.issue_command_log; tauto|]. split.
      * intros Hnet. rewrite StepFacts.issue_command_delivered;
          [reflexivity | discriminate | exact Hnet].
      * intros Hnet. apply StepFacts.issue_command_failed; [tauto | exact Hnet].
  - intros Hh Hd Hn0 Hn1 Hn2 now' Hlater v3.
    destruct (StepFacts.decision_table target h Htarget Hh)
      as [(Hd' & _) | [(Hd' & _) | [(Hd' & _) | (_ & Hc & _ & Hc2 & Hfinal)]]];
      try (fold diff in Hd'; rewrite Hd in Hd'; discriminate Hd').
    rewrite Hc in Hexec.
    rewrite StepFacts.issue_command_delivered in Hexec; [| discriminate | exact Hn0].
    set (v1 := NavSpec.after_delivery now Nav.NAV_STATE_TURNING_RIGHT "R" v) in *.
    assert (Hlen1 : length (Nav.wire_log v1) = S k).
    { subst v1. cbn. rewrite length_app. cbn. fold k. lia. }
    assert (Hfire : Nav.action_timer_fires net v1
                    = Nav.set_navigation_state Nav.NAV_STATE_AWAITING_NEXT_STEP
                        (Nav.set_last_command_sent_successful true
                           (Nav.set_wire_log (Nav.wire_log v1 ++ [("S"%string, Nav.Delivered)])
                              (Nav.set_action_timer_id None v1)))).
    { unfold Nav.action_timer_fires.
      change (Nav.action_timer_id v1) with (Some Nav.OnActionCompleted).
      rewrite StepFacts.on_action_completed_delivered;
        [| reflexivity | rewrite Hlen1; exact Hn1].
      cbv zeta. change (Nav.navigation_state v1) with Nav.NAV_STATE_TURNING_RIGHT.
      change (Nav.current_path v1) with (Nav.current_path v).
      destruct Hdec as (_ & _ & Hpath & _). rewrite Hpath. reflexivity. }
    set (v2 := Nav.action_timer_fires net v1) in *.
    assert (Hdec2 : NavSpec.at_decision now' v2 next_cell rest target).
    { destruct Hdec as (_ & _ & Hpath & Hclear & Hstep).
      rewrite Hfire. repeat split.
      - cbn. apply Qltb_false. exact Hlater.
      - exact Hpath.
      - exact Hclear.
      - exact Hstep. }
    assert (Hh2 : Nav.robot_orientation_map_deg v2 = Nav.turned_right h)
      by (rewrite Hfire; reflexivity).
    assert (Hlen2 : length (Nav.wire_log v2) = S (S k)).
    { rewrite Hfire. cbn. rewrite !length_app. cbn. fold k. lia. }
    pose proof (StepFacts.execute_at_decision net now' v2 next_cell rest target Hdec2)
      as Hexec2.
    rewrite Hh2, Hc2 in Hexec2.
    rewrite StepFacts.issue_command_delivered in Hexec2;
      [| discriminate | rewrite Hlen2; exact Hn2].
    subst v3. rewrite Hexec. fold v1. fold v2. rewrite Hexec2.
    split; [reflexivity|]. split.
    + rewrite Hfire. cbn. rewrite <- !app_assoc. reflexivity.
    + change (Nav.turned_right (Nav.robot_orientation_map_deg v2) = target).
      rewrite Hh2. exact Hfinal.
Qed.

Lemma navigation_step_decision_witness :
  NavSpec.at_decision 1 NavSpec.viewer_behind (41, 40) [] 180 /\
  Nav.robot_orientation_map_deg
    (Nav.execute_navigation_step NavSpec.net_up 3
       (Nav.action_timer_fires NavSpec.net_up
          (Nav.execute_navigation_step NavSpec.net_up 1 NavSpec.viewer_behind))) = 180%Q.
Proof.
  assert (Hdec : NavSpec.at_decision 1 NavSpec.viewer_behind (41, 40) [] 180)
    by (repeat split; vm_compute; reflexivity).
  split; [exact Hdec|].
  destruct (navigation_step_decision NavSpec.net_up 1 NavSpec.viewer_behind
              (41, 40) [] 180 Hdec) as (_ & _ & H & _).
  refine (proj2 (proj2 (H (or_introl eq_refl) _ eq_refl eq_refl eq_refl 3%Q _))).
  - vm_compute. reflexivity.
  - vm_compute. discriminate.
Defined.

(** The forward command to the cell ahead pops the path as soon as it is
    delivered, and the left turn changes the heading as soon as it is
    delivered: the stop has not been sent, the action timer is still
    pending. *)
Lemma path_popped_before_stop :
  let v := Nav.execute_navigation_step NavSpec.net_up 1 NavSpec.viewer_ahead in
  let w := Nav.execute_navigation_step NavSpec.net_up 1 NavSpec.viewer_left in
  Nav.current_path NavSpec.viewer_ahead = [(39, 40)] /\
  Nav.current_path v = [] /\
  Nav.wire_log v = [("F"%string, Nav.Delivered)] /\
  Nav.action_timer_id v = Some Nav.OnActionCompleted /\
  Nav.robot_orientation_map_deg NavSpec.viewer_left = 0%Q /\
  Nav.robot_orientation_map_deg w = 270%Q /\
  Nav.wire_log w = [("L"%string, Nav.Delivered)] /\
  Nav.action_timer_id w = Some Nav.OnActionCompleted /\
  ~ NavSpec.update_waits_for_stop.
Proof.
  repeat (split; [vm_compute; reflexivity|]).
  intros H.
  destruct (H NavSpec.net_up 1%Q NavSpec.viewer_ahead (39, 40) [] 0%Q) as [Hpath _].
  - repeat split; vm_compute; reflexivity.
  - left. reflexivity.
  - vm_compute in Hpath. discriminate Hpath.
Qed.

(** C7, amended: the logical update of a timed command is made when the
    command is delivered, before its timer starts: a delivered forward pops
    the head of the path, a delivered turn changes the heading by a quarter
    turn, and only that command is on the wire.  When the timer fires, a stop
    is sent if the timed command had been delivered; the handler changes
    neither the path nor the heading; and if the stop is delivered in a
    stepping state, goal arrival is checked: the state becomes REACHED_GOAL
    or AWAITING_NEXT_STEP, and AWAITING_NEXT_STEP whenever cells remain on
    the path. *)
Theorem logical_update_precedes_stop
    (net : nat -> Nav.transport_result) (now : Q) (v : Nav.viewer)
    (next_cell : cell) (rest : list cell) (target : Q) :
  NavSpec.at_decision now v next_cell rest target ->
  net (length (Nav.wire_log v)) = Nav.Delivered ->
  let h := Nav.robot_orientation_map_deg v in
  let v' := Nav.execute_navigation_step net now v in
  match Nav.choose_motion target h with
  | Nav.ChooseForward =>
      v' = NavSpec.after_delivery now Nav.NAV_STATE_MOVING_FORWARD "F" v /\
      Nav.current_path v' = rest /\ Nav.robot_orientation_map_deg v' = h /\
      Nav.wire_log v' = Nav.wire_log v ++ [("F"%string, Nav.Delivered)]
  | Nav.ChooseLeft =>
      v' = NavSpec.after_delivery now Nav.NAV_STATE_TURNING_LEFT "L" v /\
      Nav.current_path v' = next_cell :: rest /\
      Nav.robot_orientation_map_deg v' = Nav.turned_left h /\
      Nav.wire_log v' = Nav.wire_log v ++ [("L"%string, Nav.Delivered)]
  | Nav.ChooseRight =>
      v' = NavSpec.after_delivery now Nav.NAV_STATE_TURNING_RIGHT "R" v /\
      Nav.current_path v' = next_cell :: rest /\
      Nav.robot_orientation_map_deg v' = Nav.turned_right h /\
      Nav.wire_log v' = Nav.wire_log v ++ [("R"%string, Nav.Delivered)]
  | Nav.UnhandledTurn => ~ NavSpec.heading_ok h
  end /\
  (NavSpec.heading_ok h ->
   Nav.action_timer_id v' = Some Nav.OnActionCompleted /\
   Nav.current_action_end_time v' = (now + ACTION_DURATION_S)%Q) /\
  (forall w,
     let w' := Nav.on_action_completed net w in
     let j := length (Nav.wire_log w) in
     Nav.current_path w' = Nav.current_path w /\
     Nav.robot_orientation_map_deg w' = Nav.robot_orientation_map_deg w /\
     (Nav.last_command_sent_successful w = false -> w' = Nav.set_action_timer_id None w) /\
     (Nav.last_command_sent_successful w = true ->
      Nav.wire_log w' = Nav.wire_log w ++ [("S"%string, net j)] /\
      (net j = Nav.Delivered ->
       if Nav.state_in (Nav.navigation_state w)
            [Nav.NAV_STATE_MOVING_FORWARD; Nav.NAV_STATE_TURNING_LEFT;
             Nav.NAV_STATE_TURNING_RIGHT; Nav.NAV_STATE_AWAITING_NEXT_STEP]
       then
         (Nav.navigation_state w' = Nav.NAV_STATE_REACHED_GOAL \/
          Nav.navigation_state w' = Nav.NAV_STATE_AWAITING_NEXT_STEP) /\
         (Nav.current_path w <> [] ->
          Nav.navigation_state w' = Nav.NAV_STATE_AWAITING_NEXT_STEP)
       else Nav.navigation_state w' = Nav.navigation_state w) /\
      (net j <> Nav.Delivered ->
       Nav.navigation_state w' =
         if Nav.state_in (Nav.navigation_state w)
              [Nav.NAV_STATE_IDLE; Nav.NAV_STATE_REACHED_GOAL; Nav.NAV_STATE_NO_PATH_FOUND]
         then Nav.navigation_state w else Nav.NAV_STATE_ROBOT_CMD_ERROR))).
Proof.
  intros Hdec Hnet h v'.
  pose proof (StepFacts.execute_at_decision net now v next_cell rest target Hdec) as Hexec.
  fold v' h in Hexec.
  assert (Htarget : NavSpec.heading_ok target).
  { destruct Hdec as (_ & _ & _ & _ & Hstep).
    exact (StepFacts.cardinal_targets _ _ _ Hstep). }
  assert (Hpath : Nav.current_path v = next_cell :: rest) by apply Hdec.
  split; [|split].
  - destruct (Nav.choose_motion target h) eqn:Hc.
    + rewrite StepFacts.issue_command_delivered in Hexec; [| discriminate | exact Hnet].
      rewrite Hexec. split; [reflexivity|]. cbn. rewrite Hpath. now repeat split.
    + rewrite StepFacts.issue_command_delivered in Hexec; [| discriminate | exact Hnet].
      rewrite Hexec. split; [reflexivity|]. cbn. now repeat split.
    + rewrite StepFacts.issue_command_delivered in Hexec; [| discriminate | exact Hnet].
      rewrite Hexec. split; [reflexivity|]. cbn. now repeat split.
    + intros Hh.
      destruct (StepFacts.decision_table target h Htarget Hh)
        as [(_ & _ & Hc') | [(_ & Hc' & _) | [(_ & Hc' & _) | (_ & Hc' & _)]]];
        congruence.
  - intros Hh.
    destruct (StepFacts.decision_table target h Htarget Hh)
      as [(_ & _ & Hc) | [(_ & Hc & _) | [(_ & Hc & _) | (_ & Hc & _)]]];
      rewrite Hc in Hexec;
      (rewrite StepFacts.issue_command_delivered in Hexec; [| discriminate | exact Hnet]);
      rewrite Hexec; split; reflexivity.
  - intros w w' j. subst w'.
    split; [apply HeadingFacts.on_action_completed_path|].
    split; [apply HeadingFacts.on_action_completed_heading|].
    split.
    + intros Hlast. unfold Nav.on_action_completed. cbv zeta.
      change (Nav.last_command_sent_successful (Nav.set_action_timer_id None w))
        with (Nav.last_command_sent_successful w). now rewrite Hlast.
    + intros Hlast. destruct (net j) eqn:Ej.
      * rewrite (StepFacts.on_action_completed_delivered net w Hlast Ej). cbv zeta.
        split; [|split; [intros _ | congruence]].
        -- destruct (Nav.state_in _ _); [destruct (_ && _)|]; reflexivity.
        -- destruct (Nav.state_in _ _); [|reflexivity].
           destruct (Nav.current_path w) as [|c0 rest0]; cbn [andb].
           ++ destruct (Nav.goal_is _ _); (split; [|congruence]); [now left | now right].
           ++ split; [now right | reflexivity].
      * unfold Nav.on_action_completed. cbv zeta.
        change (Nav.last_command_sent_successful (Nav.set_action_timer_id None w))
          with (Nav.last_command_sent_successful w). rewrite Hlast. cbn [negb].
        rewrite (NavFacts.send_command_failed net "S" (Nav.set_action_timer_id None w));
          [| apply NavFacts.attempted_stop | cbn; fold j; congruence].
        cbn [negb]. unfold Nav.handle_command_send_error.
        change (length (Nav.wire_log (Nav.set_action_timer_id None w))) with j.
        rewrite Ej. destruct w as [? ? ? ? ? ? st ? ? ? ? ? ? ?]. cbn.
        split; [|split; [congruence | intros _]]; destruct st; reflexivity.
      * unfold Nav.on_action_completed. cbv zeta.
        change (Nav.last_command_sent_successful (Nav.set_action_timer_id None w))
          with (Nav.last_command_sent_successful w). rewrite Hlast. cbn [negb].
        rewrite (NavFacts.send_command_failed net "S" (Nav.set_action_timer_id None w));
          [| apply NavFacts.attempted_stop | cbn; fold j; congruence].
        cbn [negb]. unfold Nav.handle_command_send_error.
        change (length (Nav.wire_log (Nav.set_action_timer_id None w))) with j.
        rewrite Ej. destruct w as [? ? ? ? ? ? st ? ? ? ? ? ? ?]. cbn.
        split; [|split; [congruence | intros _]]; destruct st; reflexivity.
      * unfold Nav.on_action_completed. cbv zeta.
        change (Nav.last_command_sent_successful (Nav.set_action_timer_id None w))
          with (Nav.last_command_sent_successful w). rewrite Hlast. cbn [negb].
        rewrite (NavFacts.send_command_failed net "S" (Nav.set_action_timer_id None w));
          [| apply NavFacts.attempted_stop | cbn; fold j; congruence].
        cbn [negb]. unfold Nav.handle_command_send_error.
        change (length (Nav.wire_log (Nav.set_action_timer_id None w))) with j.
        rewrite Ej. destruct w as [? ? ? ? ? ? st ? ? ? ? ? ? ?]. cbn.
        split; [|split; [congruence | intros _]]; destruct st; reflexivity.
Qed.

Lemma logical_update_precedes_stop_witness :
  NavSpec.at_decision 1 NavSpec.viewer_ahead (39, 40) [] 0 /\
  Nav.current_path (Nav.execute_navigation_step NavSpec.net_up 1 NavSpec.viewer_ahead) = [] /\
  Nav.wire_log (Nav.execute_navigation_step NavSpec.net_up 1 NavSpec.viewer_ahead)
  = [("F"%string, Nav.Delivered)].
Proof.
  assert (Hdec : NavSpec.at_decision 1 NavSpec.viewer_ahead (39, 40) [] 0)
    by (repeat split; vm_compute; reflexivity).
  split; [exact Hdec|].
  destruct (logical_update_precedes_stop NavSpec.net_up 1 NavSpec.viewer_ahead
              (39, 40) [] 0 Hdec eq_refl) as (H & _).
  change (Nav.choose_motion 0 (Nav.robot_orientation_map_deg NavSpec.viewer_ahead))
    with Nav.ChooseForward in H.
  destruct H as (_ & Hp & _ & Hw). split; [exact Hp | exact Hw].
Defined.

(** ** The grid under the handlers *)

Module GridFacts.

Import Planner Nav NavSpec.

Section Handlers.

Variable rnd : Q -> Q.
Variables fl sin_deg cos_deg : Q -> Q.
Variable net : nat -> transport_result.

Lemma send_command_grid command v :
  occupancy_grid (snd (send_command net command v)) = occupancy_grid v.
Proof. apply (NavFacts.send_command_frame net command v). Qed.

Ltac via_send_grid := etransitivity; [apply send_command_grid | reflexivity].

Lemma issue_command_grid now st command v :
  occupancy_grid (issue_command net now st command v) = occupancy_grid v.
Proof.
  unfold issue_command. cbv zeta.
  pose proof (send_command_grid command (set_navigation_state st v)) as H.
  destruct (send_command net command (set_navigation_state st v)) as [ok v1]. cbn in H.
  destruct ok; [|exact H]. destruct (navigation_state v1); exact H.
Qed.

Lemma execute_navigation_step_grid now v :
  occupancy_grid (execute_navigation_step net now v) = occupancy_grid v.
Proof.
  unfold execute_navigation_step. cbv zeta.
  destruct (state_in (navigation_state v) _); [reflexivity|].
  destruct (Qltb now (current_action_end_time v)); [reflexivity|].
  destruct (current_path v) as [|next rest].
  - destruct (goal_is v _); [reflexivity|]. now destruct (negb _).
  - destruct (negb (is_valid_and_clear _ _ _)).
    + destruct (negb _); via_send_grid.
    + destruct (classify_step _ _) as [target | |];
        [destruct (choose_motion _ _) | reflexivity | via_send_grid];
        try apply issue_command_grid.
      via_send_grid.
Qed.

Lemma action_timer_fires_grid v :
  occupancy_grid (action_timer_fires net v) = occupancy_grid v.
Proof.
  unfold action_timer_fires. destruct (action_timer_id v) as [[|]|]; [| |reflexivity].
  - unfold on_action_completed. cbv zeta.
    destruct (negb (last_command_sent_successful _)); [reflexivity|].
    pose proof (send_command_grid "S" (set_action_timer_id None v)) as H.
    destruct (send_command net "S" (set_action_timer_id None v)) as [ok v1]. cbn in H.
    destruct (negb ok); [exact H|].
    destruct (state_in _ _); [|exact H].
    destruct (current_path v1); [destruct (goal_is _ _)|]; exact H.
  - unfold on_action_completed_no_command. cbv zeta. now destruct (negb _).
Qed.

Lemma handle_map_click_grid confirm r c v :
  occupancy_grid (handle_map_click net confirm r c v) = occupancy_grid v.
Proof.
  unfold handle_map_click. cbv zeta.
  destruct (negb (is_udp_running v)); [reflexivity|].
  destruct (state_in _ _); cbn [andb].
  - destruct (negb confirm); [reflexivity|].
    destruct (in_bounds r c); [|via_send_grid].
    destruct (grid_get _ r c); [|via_send_grid].
    destruct (negb _); [via_send_grid|].
    destruct (planner_alive _); via_send_grid.
  - destruct (in_bounds r c); [|reflexivity].
    destruct (grid_get _ r c); [|reflexivity].
    destruct (negb _); [reflexivity|].
    now destruct (planner_alive _).
Qed.

Lemma planner_events_grid v :
  occupancy_grid (planner_thread_runs v) = occupancy_grid v /\
  occupancy_grid (planner_callback_runs net v) = occupancy_grid v.
Proof.
  split.
  - unfold planner_thread_runs. destruct (planner_alive v); [|reflexivity].
    now destruct (plan_path _ _ _).
  - unfold planner_callback_runs. destruct (planner_callbacks v) as [|[path | reason] rest];
      [reflexivity | | reflexivity].
    unfold path_planning_succeeded. cbv zeta. destruct path; [|reflexivity].
    destruct (goal_is _ _); [|reflexivity]. via_send_grid.
Qed.

Lemma toggle_connection_grid ip_given bind_ok v :
  occupancy_grid (toggle_connection net ip_given bind_ok v) = occupancy_grid v \/
  occupancy_grid (toggle_connection net ip_given bind_ok v) = zeros.
Proof.
  unfold toggle_connection, start_udp_listener, stop_udp_listener. cbv zeta.
  destruct (is_udp_running v) eqn:E.
  - left. destruct (negb _).
    + pose proof (NavFacts.send_command_frame net "S" v) as (Hg & _ & Hr & _).
      rewrite Hr, E. exact Hg.
    + rewrite E. reflexivity.
  - destruct ip_given; [right | left]; reflexivity.
Qed.

Lemma on_close_grid v : occupancy_grid (on_close net v) = occupancy_grid v.
Proof.
  unfold on_close, stop_udp_listener. cbv zeta.
  destruct (is_udp_running v && _).
  - destruct (is_udp_running _); via_send_grid.
  - now destruct (is_udp_running _).
Qed.

(** A handler leaves the grid as it is, clears it, or runs one processing
    cycle on it. *)
Lemma handle_grid e v :
  occupancy_grid (handle rnd fl sin_deg cos_deg net e v) = occupancy_grid v \/
  occupancy_grid (handle rnd fl sin_deg cos_deg net e v) = zeros \/
  occupancy_grid (handle rnd fl sin_deg cos_deg net e v)
  = fst (process_queued_data rnd fl sin_deg cos_deg (is_udp_running v)
           (robot_orientation_map_deg v) (occupancy_grid v) (data_queue v)).
Proof.
  destruct e; cbn [handle].
  - destruct (toggle_connection_grid ip_given bind_ok v); tauto.
  - left. unfold udp_receive. now destruct (is_udp_running v).
  - left. apply handle_map_click_grid.
  - left. apply planner_events_grid.
  - left. apply planner_events_grid.
  - right. right. unfold periodic_update.
    destruct (process_queued_data _ _ _ _ _ _ _) as [g q]. cbv zeta. cbn [fst].
    destruct (is_udp_running _); [|reflexivity].
    etransitivity; [apply execute_navigation_step_grid | reflexivity].
  - left. apply action_timer_fires_grid.
  - left. apply on_close_grid.
Qed.

Hypothesis rnd_ok : rounding_ok rnd.

Lemma reachable_grid_in_range v :
  reachable rnd fl sin_deg cos_deg net v -> grid_in_range (occupancy_grid v).
Proof.
  induction 1 as [|e v Hv IH].
  - exact zeros_in_range.
  - destruct (handle_grid e v) as [-> | [-> | ->]].
    + exact IH.
    + exact zeros_in_range.
    + now apply process_queued_data_in_range.
Qed.

End Handlers.

End GridFacts.

(** C3: every cell of the grid stays within [0, MAX_CELL_VALUE]: the grid
    starts in range, decay, the integration of a packet and a processing
    cycle keep it in range, so the grid of every state the viewer reaches is
    in range; and any number of hits on one cell, each of which sets it to
    [min (old + HIT_INCREMENT) MAX_CELL_VALUE], never exceeds
    [MAX_CELL_VALUE]. *)
Theorem cell_values_stay_in_range (rnd fl sin_deg cos_deg : Q -> Q) :
  rounding_ok rnd ->
  grid_in_range zeros /\
  (forall g, grid_in_range g -> grid_in_range (decay_grid rnd g)) /\
  (forall heading g points, grid_in_range g ->
     grid_in_range (update_occupancy_grid rnd fl sin_deg cos_deg heading g points)) /\
  (forall running heading g queue, grid_in_range g ->
     grid_in_range (fst (process_queued_data rnd fl sin_deg cos_deg running heading g queue))) /\
  (forall net v, Nav.reachable rnd fl sin_deg cos_deg net v ->
     grid_in_range (Nav.occupancy_grid v)) /\
  (forall v, hit_cell rnd v = py_min (rnd (v + HIT_INCREMENT)%Q) MAX_CELL_VALUE) /\
  (forall n v, cell_in_range v ->
     (0 <= Nat.iter n (hit_cell rnd) v)%Q /\
     (Nat.iter n (hit_cell rnd) v <= MAX_CELL_VALUE)%Q) /\
  (forall n g r c, grid_in_range g ->
     grid_in_range (Nat.iter n (fun g' => grid_alter (hit_cell rnd) g' r c) g)).
Proof.
  intros Hok.
  split; [exact zeros_in_range|].
  split; [intros g; now apply decay_grid_in_range|].
  split; [intros heading g points; now apply update_occupancy_grid_in_range|].
  split; [intros running heading g queue; now apply process_queued_data_in_range|].
  split; [intros net v; now apply GridFacts.reachable_grid_in_range|].
  split; [reflexivity|].
  split; [intros n v Hv; exact (repeated_hits_in_range rnd Hok n v Hv)|].
  intros n g r c Hg. induction n as [|n IH]; simpl; [exact Hg|].
  apply grid_alter_in_range; [|exact IH]. intros w. now apply hit_cell_in_range.
Qed.

Lemma cell_values_stay_in_range_witness :
  rounding_ok (fun x => x) /\
  grid_in_range
    (update_occupancy_grid (fun x => x) (fun x => x) quadrant_sin quadrant_cos 0 one_hot_grid
       [Reading 0 100; Reading 0 100; Reading 90 5000; Malformed]).
Proof.
  split; [exact exact_rounding_ok|].
  apply (cell_values_stay_in_range (fun x => x) (fun x => x) quadrant_sin quadrant_cos exact_rounding_ok).
  apply grid_in_rangeb_sound. vm_compute. reflexivity.
Defined.

(** ** Path planner *)

Module SearchFacts.

Import Planner PlanSpec.

Lemma elem_of_heappush h e e' : e' ∈ heappush h e <-> e' = e \/ e' ∈ h.
Proof.
  induction h as [|x t IH]; simpl.
  - rewrite list_elem_of_singleton, elem_of_nil. tauto.
  - destruct (entry_ltb e x).
    + rewrite elem_of_cons. tauto.
    + rewrite !elem_of_cons, IH. tauto.
Qed.

Lemma offsets_adjacent cur d :
  d ∈ neighbour_offsets -> adjacent cur (cur.1 + d.1, cur.2 + d.2).
Proof.
  unfold neighbour_offsets, adjacent. rewrite !elem_of_cons, elem_of_nil.
  intros [-> | [-> | [-> | [-> | []]]]]; simpl; lia.
Qed.

Section Invariant.

Variable clear : Z -> Z -> bool.
Variables start goal : cell.

Lemma initial_search_inv : search_inv clear start (initial_search start goal).
Proof.
  unfold initial_search. split; simpl.
  - apply lookup_singleton_eq.
  - intros c x H. apply lookup_singleton_Some in H. lia.
  - intros n p H. rewrite lookup_empty in H. discriminate.
  - intros e H. apply list_elem_of_singleton in H. subst e. now left.
Qed.

Lemma came_from_improve cur nb t s :
  came_from (improve goal cur nb t s) = <[nb := cur]> (came_from s).
Proof. unfold improve. cbv zeta. now destruct (bool_decide _). Qed.

Lemma g_score_improve cur nb t s :
  g_score (improve goal cur nb t s) = <[nb := t]> (g_score s).
Proof. unfold improve. cbv zeta. now destruct (bool_decide _). Qed.

Lemma open_set_improve cur nb t s e :
  e ∈ open_set (improve goal cur nb t s) ->
  e ∈ open_set s \/ e = (t + heuristic nb goal, count s + 1, nb).
Proof.
  unfold improve. cbv zeta. destruct (bool_decide _); simpl.
  - now left.
  - rewrite elem_of_heappush. tauto.
Qed.

Lemma improve_inv cur nb gc s :
  clear nb.1 nb.2 = true ->
  adjacent cur nb ->
  g_score s !! cur = Some gc ->
  is_better (gc + 1) (g_score s !! nb) = true ->
  cur = start \/ is_Some (came_from s !! cur) ->
  search_inv clear start s ->
  search_inv clear start (improve goal cur nb (gc + 1) s) /\
  (cur = start \/ is_Some (came_from (improve goal cur nb (gc + 1) s) !! cur)).
Proof.
  intros Hclear Hadj Hgc Hbetter Hcur Hinv.
  assert (Hlt : forall gn, g_score s !! nb = Some gn -> gc + 1 < gn).
  { intros gn Hgn. rewrite Hgn in Hbetter. now apply Z.ltb_lt. }
  assert (Hgc0 : 0 <= gc) by exact (inv_nonneg _ _ _ Hinv _ _ Hgc).
  assert (Hne : nb <> start).
  { intros ->. specialize (Hlt 0 (inv_start _ _ _ Hinv)). lia. }
  assert (Hnecur : nb <> cur).
  { intros E. rewrite E in Hlt. specialize (Hlt gc Hgc). lia. }
  assert (Hcf : forall x, x = start \/ is_Some (came_from s !! x) ->
                x = start \/ is_Some (<[nb := cur]> (came_from s) !! x)).
  { intros x [-> | Hx]; [now left | right].
    destruct (decide (nb = x)) as [-> | Hnx];
      [rewrite lookup_insert_eq | rewrite lookup_insert_ne by exact Hnx]; eauto. }
  assert (Hparent : forall n p, <[nb := cur]> (came_from s) !! n = Some p ->
    clear n.1 n.2 = true /\ adjacent p n /\
    (p = start \/ is_Some (<[nb := cur]> (came_from s) !! p)) /\
    exists gn gp, <[nb := gc + 1]> (g_score s) !! n = Some gn /\
                  <[nb := gc + 1]> (g_score s) !! p = Some gp /\ gp < gn).
  { intros n p Hnp. destruct (decide (nb = n)) as [<- | Hnn].
    - rewrite lookup_insert_eq in Hnp. injection Hnp as <-.
      split; [exact Hclear|]. split; [exact Hadj|]. split; [now apply Hcf|].
      exists (gc + 1), gc. rewrite lookup_insert_eq.
      rewrite lookup_insert_ne by exact Hnecur. split; [reflexivity|]. split; [exact Hgc | lia].
    - rewrite lookup_insert_ne in Hnp by exact Hnn.
      destruct (inv_parent _ _ _ Hinv n p Hnp) as (Hc & Ha & Hp & gn & gp & Hgn & Hgp & Hl).
      split; [exact Hc|]. split; [exact Ha|]. split; [now apply Hcf|].
      rewrite lookup_insert_ne by exact Hnn.
      destruct (decide (nb = p)) as [<- | Hnp'].
      + exists gn, (gc + 1). rewrite lookup_insert_eq. split; [exact Hgn|].
        split; [reflexivity|]. specialize (Hlt gp Hgp). lia.
      + exists gn, gp. rewrite lookup_insert_ne by exact Hnp'. tauto. }
  assert (Hstart : <[nb := gc + 1]> (g_score s) !! start = Some 0).
  { rewrite lookup_insert_ne by exact Hne. exact (inv_start _ _ _ Hinv). }
  assert (Hnonneg : forall c x, <[nb := gc + 1]> (g_score s) !! c = Some x -> 0 <= x).
  { intros c x. destruct (decide (nb = c)) as [<- | Hnc].
    - rewrite lookup_insert_eq. intros [= <-]. lia.
    - rewrite lookup_insert_ne by exact Hnc. apply (inv_nonneg _ _ _ Hinv). }
  split; [|rewrite came_from_improve; now apply Hcf].
  split; rewrite ?came_from_improve, ?g_score_improve; try assumption.
  intros e He. apply open_set_improve in He. destruct He as [He | ->].
  - apply Hcf. exact (inv_open _ _ _ Hinv e He).
  - right. simpl. rewrite lookup_insert_eq. eauto.
Qed.

Lemma relax_inv cur s d :
  d ∈ neighbour_offsets ->
  cur = start \/ is_Some (came_from s !! cur) ->
  search_inv clear start s ->
  search_inv clear start (relax clear goal cur s d) /\
  (cur = start \/ is_Some (came_from (relax clear goal cur s d) !! cur)).
Proof.
  intros Hd Hcur Hinv. unfold relax. cbv zeta.
  set (nb := (cur.1 + d.1, cur.2 + d.2)).
  destruct (clear nb.1 nb.2) eqn:Hclear; [|split; [exact Hinv | exact Hcur]].
  destruct (g_score s !! cur) as [gc|] eqn:Hgc; [|split; [exact Hinv | exact Hcur]].
  destruct (is_better (gc + 1) (g_score s !! nb)) eqn:Hbetter;
    [|split; [exact Hinv | exact Hcur]].
  apply improve_inv; try assumption. now apply offsets_adjacent.
Qed.

Lemma relax_all_inv cur ds s :
  Forall (fun d => d ∈ neighbour_offsets) ds ->
  cur = start \/ is_Some (came_from s !! cur) ->
  search_inv clear start s ->
  search_inv clear start (fold_left (relax clear goal cur) ds s).
Proof.
  intros Hds. revert s. induction Hds as [|d ds Hd _ IH]; intros s Hcur Hinv; simpl.
  - exact Hinv.
  - destruct (relax_inv cur s d Hd Hcur Hinv) as [Hinv' Hcur']. now apply IH.
Qed.

Lemma astar_loop_inv fuel s found s' :
  search_inv clear start s ->
  astar_loop clear goal fuel s = (found, s') ->
  search_inv clear start s' /\
  (found = true -> goal = start \/ is_Some (came_from s' !! goal)).
Proof.
  revert s. induction fuel as [|fuel IH]; intros s Hinv; simpl.
  - intros [= <- <-]. split; [exact Hinv | discriminate].
  - destruct (open_set s) as [|[[f c] cur] rest] eqn:Hopen.
    + intros [= <- <-]. split; [exact Hinv | discriminate].
    + assert (Hcur : cur = start \/ is_Some (came_from s !! cur)).
      { apply (inv_open _ _ _ Hinv (f, c, cur)). rewrite Hopen. left. }
      set (s1 := mkAstar rest _ _ _ _ _).
      assert (Hinv1 : search_inv clear start s1).
      { split; simpl; try apply Hinv.
        intros e He. apply (inv_open _ _ _ Hinv e). rewrite Hopen. now right. }
      destruct (bool_decide (cur = goal)) eqn:Hgoal.
      * intros [= <- <-]. split; [exact Hinv1|]. intros _.
        apply bool_decide_eq_true in Hgoal. subst cur. exact Hcur.
      * apply IH. apply (relax_all_inv cur neighbour_offsets s1); [| exact Hcur | exact Hinv1].
        apply Forall_forall. tauto.
Qed.

End Invariant.

End SearchFacts.

Module PathFacts.

Import Planner PlanSpec.

Lemma cell_eqb_eq (a b : cell) : cell_eqb a b = true <-> a = b.
Proof.
  unfold cell_eqb. rewrite andb_true_iff, !Z.eqb_eq.
  destruct a, b; simpl. split; [intros [-> ->]; reflexivity | intros [= -> ->]; tauto].
Qed.

Lemma last_cons_default {A} (x : A) l a : List.last (x :: l) a = List.last l x.
Proof.
  revert x a. induction l as [|y l IH]; intros x a; [reflexivity|].
  change (List.last (x :: y :: l) a) with (List.last (y :: l) a).
  now rewrite !IH.
Qed.

Lemma route_from_snoc clear a l c :
  route_from clear a (l ++ [c]) <->
  route_from clear a l /\ adjacent (List.last l a) c /\ clear c.1 c.2 = true.
Proof.
  revert a. induction l as [|x l IH]; intros a.
  - simpl. tauto.
  - change ((x :: l) ++ [c]) with (x :: (l ++ [c])).
    cbn [route_from]. rewrite IH.
    rewrite (last_cons_default x l a). tauto.
Qed.

Lemma route_from_clear clear a l :
  route_from clear a l -> Forall (fun c => clear c.1 c.2 = true) l.
Proof.
  revert a. induction l as [|x l IH]; intros a; [constructor|].
  intros (_ & Hc & Hr). constructor; [exact Hc | exact (IH x Hr)].
Qed.

Section Walk.

Variable clear : Z -> Z -> bool.
Variable start : cell.
Variable cf : gmap cell cell.

Hypothesis parents : forall n p, cf !! n = Some p ->
  clear n.1 n.2 = true /\ adjacent p n /\ (p = start \/ is_Some (cf !! p)).

Lemma reconstruct_route fuel temp acc res :
  temp = start \/ is_Some (cf !! temp) ->
  reconstruct fuel cf temp acc = Some res ->
  exists chain,
    res = acc ++ chain /\
    route_from clear start (rev chain) /\
    List.last (rev chain) start = temp /\
    Forall (fun c => is_Some (cf !! c)) chain.
Proof.
  revert temp acc. induction fuel as [|fuel IH]; intros temp acc Htemp; simpl.
  - destruct (cf !! temp) eqn:E; [discriminate|]. intros [= <-].
    exists []. rewrite app_nil_r. destruct Htemp as [-> | [x Hx]]; [|congruence].
    repeat split. constructor.
  - destruct (cf !! temp) as [p|] eqn:E.
    + intros Hres. destruct (parents temp p E) as (Hc & Ha & Hp).
      destruct (IH p (acc ++ [temp]) Hp Hres) as (chain & -> & Hroute & Hlast & Hall).
      exists (temp :: chain). rewrite <- app_assoc. split; [reflexivity|].
      cbn [rev]. split; [|split].
      * apply route_from_snoc. rewrite Hlast. tauto.
      * apply last_last.
      * constructor; [eauto | exact Hall].
    + intros [= <-]. exists []. rewrite app_nil_r.
      destruct Htemp as [-> | [x Hx]]; [|congruence].
      repeat split. constructor.
Qed.

End Walk.

(** The walk ends: along the links [g] goes down, so no cell comes twice,
    and there are not more cells than keys. *)
Lemma reconstruct_skip (cf : gmap cell cell) (g : gmap cell Z) t y fuel :
  links_decrease cf g -> g !! t = Some y ->
  forall temp x acc, g !! temp = Some x -> x < y ->
    reconstruct fuel cf temp acc = reconstruct fuel (delete t cf) temp acc.
Proof.
  intros Hdec Ht. induction fuel as [|fuel IH]; intros temp x acc Hx Hlt; simpl.
  - assert (Hne : t <> temp) by (intros ->; rewrite Hx in Ht; injection Ht; lia).
    rewrite lookup_delete_ne by exact Hne. reflexivity.
  - assert (Hne : t <> temp) by (intros ->; rewrite Hx in Ht; injection Ht; lia).
    rewrite lookup_delete_ne by exact Hne.
    destruct (cf !! temp) as [p|] eqn:E; [|reflexivity].
    destruct (Hdec temp p E) as (gn & gp & Hgn & Hgp & Hl).
    apply (IH p gp); [exact Hgp|]. rewrite Hx in Hgn. injection Hgn as <-. lia.
Qed.

Lemma links_decrease_delete (cf : gmap cell cell) g t :
  links_decrease cf g -> links_decrease (delete t cf) g.
Proof.
  intros H n p Hnp. apply lookup_delete_Some in Hnp. apply H. tauto.
Qed.

Lemma reconstruct_total (g : gmap cell Z) fuel :
  forall (cf : gmap cell cell) temp acc,
    links_decrease cf g -> (size cf < fuel)%nat ->
    reconstruct fuel cf temp acc <> None.
Proof.
  induction fuel as [|fuel IH]; intros cf temp acc Hdec Hsize; [lia|].
  simpl. destruct (cf !! temp) as [p|] eqn:E; [|discriminate].
  destruct (Hdec temp p E) as (gn & gp & Hgn & Hgp & Hl).
  rewrite (reconstruct_skip cf g temp gn fuel Hdec Hgn p gp _ Hgp Hl).
  apply IH; [now apply links_decrease_delete|].
  assert (size cf = S (size (delete temp cf))); [|lia].
  rewrite <- (insert_delete_id cf temp p E) at 1.
  apply map_size_insert_None. apply lookup_delete_eq.
Qed.

End PathFacts.

Module PlanFacts.

Import Planner PlanSpec.

Lemma search_inv_links clear start s :
  search_inv clear start s -> links_decrease (came_from s) (g_score s).
Proof. intros Hinv n p Hnp. apply (inv_parent _ _ _ Hinv n p Hnp). Qed.

Lemma search_inv_start_unlinked clear start s :
  search_inv clear start s -> came_from s !! start = None.
Proof.
  intros Hinv. destruct (came_from s !! start) as [p|] eqn:E; [|reflexivity].
  destruct (inv_parent _ _ _ Hinv start p E) as (_ & _ & _ & gn & gp & Hgn & Hgp & Hlt).
  rewrite (inv_start _ _ _ Hinv) in Hgn. injection Hgn as <-.
  pose proof (inv_nonneg _ _ _ Hinv p gp Hgp). lia.
Qed.

Lemma drop_start_id (start : cell) (path : list cell) :
  (forall first tl, path = first :: tl -> first <> start) ->
  match path with
  | first :: tl => if cell_eqb first start then tl else path
  | [] => path
  end = path.
Proof.
  destruct path as [|first tl]; [reflexivity|]. intros H.
  destruct (cell_eqb first start) eqn:E; [|reflexivity].
  apply PathFacts.cell_eqb_eq in E. now destruct (H first tl eq_refl).
Qed.

(** The planner either fails with a reason or returns a route. *)
Lemma plan_path_cases g start goal :
  (exists reason, plan_path g start (Some goal) = Some (PlanningFailed reason)) \/
  (exists path, plan_path g start (Some goal) = Some (PathFound path) /\
                route (is_valid_and_clear g) start goal path).
Proof.
  unfold plan_path.
  destruct (is_valid_and_clear g goal.1 goal.2) eqn:Hgoal; cbn [negb]; [|left; eauto].
  destruct (astar_loop _ _ _ _) as [found s] eqn:Hloop.
  destruct (SearchFacts.astar_loop_inv (is_valid_and_clear g) start goal _ _ _ _
              (SearchFacts.initial_search_inv _ start goal) Hloop) as [Hinv Hfound].
  destruct found; [|left; eauto]. specialize (Hfound eq_refl).
  pose proof (search_inv_links _ _ _ Hinv) as Hdec.
  pose proof (search_inv_start_unlinked _ _ _ Hinv) as Hstart.
  destruct (reconstruct (S (size (came_from s))) (came_from s) goal []) as [res|] eqn:Hrec.
  2:{ exfalso. revert Hrec.
      apply (PathFacts.reconstruct_total (g_score s)); [exact Hdec | lia]. }
  right.
  destruct (PathFacts.reconstruct_route (is_valid_and_clear g) start (came_from s)
              (fun n p H => let '(conj a (conj b (conj c _))) := inv_parent _ _ _ Hinv n p H
                            in conj a (conj b c))
              _ goal [] res Hfound Hrec) as (chain & -> & Hroute & Hlast & Hall).
  cbn [app]. cbv zeta. exists (rev chain). split; [|split; [exact Hroute | exact Hlast]].
  rewrite drop_start_id; [reflexivity|].
  intros first tl Hrev Hfirst. subst first.
  assert (Hin : start ∈ chain).
  { apply elem_of_reverse. unfold reverse. rewrite <- rev_alt, Hrev. left. }
  rewrite Forall_forall in Hall. destruct (Hall start Hin) as [p Hp]. congruence.
Qed.

End PlanFacts.

Lemma is_valid_and_clear_traversable g (c : cell) :
  is_valid_and_clear g c.1 c.2 = true <-> PlanSpec.traversable g c.
Proof.
  unfold is_valid_and_clear, PlanSpec.traversable. rewrite andb_true_iff.
  destruct (grid_get g c.1 c.2) as [v|].
  - rewrite Qltb_true. split.
    + intros [Hb Hv]. split; [exact Hb|]. now exists v.
    + intros [Hb (w & [= <-] & Hv)]. now split.
  - split; [intros [_ H]; discriminate|]. intros [_ (w & H & _)]. discriminate.
Qed.

(** C1: the planner always answers; a path it returns is a route of single
    steps from the grid centre to the goal whose cells are all inside the grid
    and below the obstacle threshold; and when no such route exists it reports
    a failure, "Goal blocked" or "No path found by A*". *)
Theorem planner_never_crosses_obstacles (g : grid) (goal : cell) :
  (exists r, Planner.plan_path g PlanSpec.grid_center (Some goal) = Some r) /\
  (forall path,
     Planner.plan_path g PlanSpec.grid_center (Some goal) = Some (Planner.PathFound path) ->
     PlanSpec.route (is_valid_and_clear g) PlanSpec.grid_center goal path /\
     Forall (PlanSpec.traversable g) path) /\
  ((forall path, ~ PlanSpec.route (is_valid_and_clear g) PlanSpec.grid_center goal path) ->
   exists reason,
     Planner.plan_path g PlanSpec.grid_center (Some goal)
     = Some (Planner.PlanningFailed reason)).
Proof.
  destruct (PlanFacts.plan_path_cases g PlanSpec.grid_center goal)
    as [[reason Hfail] | (path & Hfound & Hroute)].
  - split; [eauto|]. split; [|eauto]. intros path Hpath. congruence.
  - split; [eauto|]. split.
    + intros path' Hpath'. rewrite Hfound in Hpath'. injection Hpath' as <-.
      split; [exact Hroute|]. destruct Hroute as [Hfrom _].
      apply PathFacts.route_from_clear in Hfrom.
      eapply Forall_impl; [exact Hfrom|]. intros c Hc.
      now apply is_valid_and_clear_traversable.
    + intros Hnone. destruct (Hnone path Hroute).
Qed.

Lemma planner_never_crosses_obstacles_witness :
  Planner.plan_path zeros PlanSpec.grid_center (Some (39, 41))
  = Some (Planner.PathFound [(40, 41); (39, 41)]) /\
  Forall (PlanSpec.traversable zeros) [(40, 41); (39, 41)].
Proof.
  assert (H : Planner.plan_path zeros PlanSpec.grid_center (Some (39, 41))
              = Some (Planner.PathFound [(40, 41); (39, 41)]))
    by (vm_compute; reflexivity).
  split; [exact H|].
  apply (planner_never_crosses_obstacles zeros (39, 41)). exact H.
Defined.

(** With the four cells around the robot occupied the search runs out of
    cells at once. *)
Lemma boxed_robot_has_no_path :
  Planner.plan_path PlanSpec.boxed_grid PlanSpec.grid_center (Some (38, 40))
  = Some (Planner.PlanningFailed Planner.NoPathFoundByAStar).
Proof. vm_compute. reflexivity. Qed.

(** ** The search of an obstacle-free grid *)

Module BfsFacts.

Import Planner PlanSpec BfsSpec.

Lemma entry_ltb_later f c (n : cell) (x : heap_entry) :
  x.1.1 < f \/ (x.1.1 = f /\ x.1.2 < c) -> entry_ltb (f, c, n) x = false.
Proof.
  destruct x as [[fx cx] [rx kx]], n as [rn kn]. simpl. intros H.
  apply orb_false_iff. split; [apply Z.ltb_ge; lia|].
  apply andb_false_iff.
  destruct (Z.eq_dec f fx) as [-> | Hne]; [right | left; apply Z.eqb_neq; exact Hne].
  apply orb_false_iff. split; [apply Z.ltb_ge; lia|].
  apply andb_false_iff. left. apply Z.eqb_neq. lia.
Qed.

Lemma entry_ltb_sooner f c (n : cell) (x : heap_entry) :
  f < x.1.1 -> entry_ltb (f, c, n) x = true.
Proof.
  destruct x as [[fx cx] [rx kx]], n as [rn kn]. simpl. intros H.
  apply orb_true_iff. left. apply Z.ltb_lt. exact H.
Qed.

(** An entry goes behind the entries it does not precede. *)
Lemma heappush_behind l h e :
  (forall x, x ∈ l -> entry_ltb e x = false) ->
  heappush (l ++ h) e = l ++ heappush h e.
Proof.
  induction l as [|x l IH]; intros H; [reflexivity|].
  simpl. rewrite (H x) by left. f_equal. apply IH. intros y Hy. apply H. now right.
Qed.

Lemma heappush_before h e :
  (forall x, x ∈ h -> entry_ltb e x = true) -> heappush h e = e :: h.
Proof.
  destruct h as [|x h]; intros H; [reflexivity|]. simpl. now rewrite (H x) by left.
Qed.

Lemma length_heappush h e : length (heappush h e) = S (length h).
Proof.
  induction h as [|x h IH]; [reflexivity|]. simpl.
  destruct (entry_ltb e x); simpl; [reflexivity | now rewrite IH].
Qed.

Ltac in_list := repeat (apply elem_of_cons; ((left; reflexivity) || right)).

Lemma adjacent_offsets (cur m : cell) :
  adjacent cur m -> exists d, d ∈ neighbour_offsets /\ m = (cur.1 + d.1, cur.2 + d.2).
Proof.
  destruct cur as [r c], m as [r' c']. unfold adjacent, neighbour_offsets. simpl.
  intros H.
  assert (Hc : (r' = r /\ c' = c + 1) \/ (r' = r /\ c' = c - 1) \/
               (r' = r + 1 /\ c' = c) \/ (r' = r - 1 /\ c' = c)) by lia.
  destruct Hc as [[-> ->] | [[-> ->] | [[-> ->] | [-> ->]]]].
  - exists (0, 1). split; [in_list | simpl; f_equal; lia].
  - exists (0, -1). split; [in_list | simpl; f_equal; lia].
  - exists (1, 0). split; [in_list | simpl; f_equal; lia].
  - exists (-1, 0). split; [in_list | simpl; f_equal; lia].
Qed.

Lemma adjacent_sym (a b : cell) : adjacent a b <-> adjacent b a.
Proof. unfold adjacent. lia. Qed.

Section Geometry.

Variables start goal : cell.

Lemma triangle n : span start goal <= dist start n + togo goal n.
Proof. unfold span, dist, togo, heuristic. lia. Qed.

Lemma dist_start : dist start start = 0.
Proof. unfold dist, heuristic. lia. Qed.

Lemma dist_goal : dist start goal = span start goal.
Proof. unfold dist, span, heuristic. lia. Qed.

Lemma togo_zero n : togo goal n = 0 -> n = goal.
Proof.
  unfold togo, heuristic. destruct n as [r c], goal as [gr gc]. simpl. intros H.
  f_equal; lia.
Qed.

Lemma adjacent_dist a b :
  adjacent a b -> dist start b = dist start a + 1 \/ dist start b = dist start a - 1.
Proof. unfold adjacent, dist, heuristic. lia. Qed.

Lemma adjacent_togo a b :
  adjacent a b -> togo goal b = togo goal a + 1 \/ togo goal b = togo goal a - 1.
Proof. unfold adjacent, togo, heuristic. lia. Qed.

(** Two neighbours of [n] one step nearer to the start share a neighbour
    two steps nearer, and it is inside the grid when they are. *)
Lemma common_pred (n a b : cell) :
  adjacent a n -> adjacent b n -> a <> b ->
  dist start a < dist start n -> dist start b < dist start n ->
  in_bounds a.1 a.2 = true -> in_bounds b.1 b.2 = true ->
  exists p, adjacent p a /\ adjacent p b /\ dist start p < dist start a /\
            in_bounds p.1 p.2 = true.
Proof.
  destruct n as [nr nc], a as [ar ac], b as [br bc], start as [sr sc].
  unfold adjacent, dist, heuristic. cbn [fst snd].
  intros Ha Hb.
  assert (Ha' : (ar = nr /\ (ac = nc + 1 \/ ac = nc - 1)) \/
                (ac = nc /\ (ar = nr + 1 \/ ar = nr - 1))) by lia.
  assert (Hb' : (br = nr /\ (bc = nc + 1 \/ bc = nc - 1)) \/
                (bc = nc /\ (br = nr + 1 \/ br = nr - 1))) by lia.
  clear Ha Hb. intros Hne Hda Hdb Hia Hib.
  apply in_bounds_spec in Hia, Hib. change GRID_DIMENSION with 80 in *.
  cbn [fst snd] in Hia, Hib.
  assert (Hne' : ar <> br \/ ac <> bc).
  { destruct (Z.eq_dec ar br) as [-> | ?]; [|now left].
    destruct (Z.eq_dec ac bc) as [-> | ?]; [|now right]. now destruct Hne. }
  clear Hne.
  assert (Hbounds : forall m : cell,
            0 <= m.1 < 80 /\ 0 <= m.2 < 80 -> in_bounds m.1 m.2 = true)
    by (intros m Hm; apply in_bounds_spec; exact Hm).
  destruct Ha' as [[-> [-> | ->]] | [-> [-> | ->]]];
    destruct Hb' as [[-> [-> | ->]] | [-> [-> | ->]]];
    try (exfalso; lia).
  - exists (nr + 1, nc + 1). repeat split; try apply Hbounds; cbn [fst snd]; lia.
  - exists (nr - 1, nc + 1). repeat split; try apply Hbounds; cbn [fst snd]; lia.
  - exists (nr + 1, nc - 1). repeat split; try apply Hbounds; cbn [fst snd]; lia.
  - exists (nr - 1, nc - 1). repeat split; try apply Hbounds; cbn [fst snd]; lia.
  - exists (nr + 1, nc + 1). repeat split; try apply Hbounds; cbn [fst snd]; lia.
  - exists (nr + 1, nc - 1). repeat split; try apply Hbounds; cbn [fst snd]; lia.
  - exists (nr - 1, nc + 1). repeat split; try apply Hbounds; cbn [fst snd]; lia.
  - exists (nr - 1, nc - 1). repeat split; try apply Hbounds; cbn [fst snd]; lia.
Qed.

(** A cell on a shortest route, not the goal, has a neighbour one step
    nearer to the goal, inside the grid when the cell and the goal are. *)
Lemma successor_exists (n : cell) :
  n <> goal -> in_bounds n.1 n.2 = true -> in_bounds goal.1 goal.2 = true ->
  exists m, adjacent n m /\ togo goal m = togo goal n - 1 /\ in_bounds m.1 m.2 = true.
Proof.
  destruct n as [r c], goal as [gr gc]. unfold adjacent, togo, heuristic.
  cbn [fst snd]. intros Hne Hn Hg. apply in_bounds_spec in Hn, Hg.
  assert (Hb : forall m : cell, 0 <= m.1 < 80 /\ 0 <= m.2 < 80 -> in_bounds m.1 m.2 = true)
    by (intros m Hm; apply in_bounds_spec; exact Hm).
  change GRID_DIMENSION with 80 in *.
  destruct (Z.eq_dec r gr) as [-> | Hr].
  - assert (c <> gc) by congruence.
    destruct (Z_lt_dec c gc).
    + exists (gr, c + 1). split; [|split; [|apply Hb]]; cbn [fst snd]; lia.
    + exists (gr, c - 1). split; [|split; [|apply Hb]]; cbn [fst snd]; lia.
  - destruct (Z_lt_dec r gr).
    + exists (r + 1, c). split; [|split; [|apply Hb]]; cbn [fst snd]; lia.
    + exists (r - 1, c). split; [|split; [|apply Hb]]; cbn [fst snd]; lia.
Qed.

End Geometry.

End BfsFacts.

Module BfsStep.

Import Planner PlanSpec BfsSpec BfsFacts.

Section Bfs.

Variable clear : Z -> Z -> bool.
Variables start goal : cell.
Hypothesis clear_spec : forall r c, clear r c = in_bounds r c.

Lemma is_Some_insert_mono (g : gmap cell Z) nb t n :
  is_Some (g !! n) -> is_Some (<[nb := t]> g !! n).
Proof.
  intros H. destruct (decide (nb = n)) as [-> | Hne].
  - rewrite lookup_insert_eq. eauto.
  - now rewrite lookup_insert_ne.
Qed.

(** A cell on a shortest route that has a score and lies fewer than [k]
    steps from the start is not in the queue, so it has been expanded. *)
Lemma earlier_layer_expanded k cur A B C s p :
  bfs_inv start goal k (Some cur) A B C s ->
  dist start cur = k ->
  is_Some (g_score s !! p) -> dist start p < k ->
  dist start p + togo goal p = span start goal ->
  expanded s p.
Proof.
  intros Hinv Hcur Hp Hlt Hon.
  apply (bfs_closed _ _ _ _ _ _ _ _ Hinv p Hp).
  - intros (e & He & <-). rewrite (bfs_heap _ _ _ _ _ _ _ _ Hinv) in He.
    pose proof (bfs_entry _ _ _ _ _ _ _ _ Hinv e) as Hentry.
    rewrite (bfs_heap _ _ _ _ _ _ _ _ Hinv) in Hentry. specialize (Hentry He).
    apply elem_of_app in He. destruct He as [He | He].
    + destruct (bfs_A _ _ _ _ _ _ _ _ Hinv e He). lia.
    + apply elem_of_app in He. destruct He as [He | He].
      * destruct (bfs_B _ _ _ _ _ _ _ _ Hinv e He). lia.
      * pose proof (bfs_C _ _ _ _ _ _ _ _ Hinv e He). lia.
  - intros [= ->]. lia.
Qed.

Lemma relax_bfs k cur A B C s d :
  d ∈ neighbour_offsets ->
  bfs_inv start goal k (Some cur) A B C s ->
  g_score s !! cur = Some k -> dist start cur = k ->
  togo goal cur = span start goal - k ->
  preds_known start s cur ->
  let s' := relax clear goal cur s d in
  let nb : cell := (cur.1 + d.1, cur.2 + d.2) in
  exists B' C',
    bfs_inv start goal k (Some cur) A B' C' s' /\
    (forall n, is_Some (g_score s !! n) -> is_Some (g_score s' !! n)) /\
    g_score s' !! cur = Some k /\
    (in_bounds nb.1 nb.2 = true -> is_Some (g_score s' !! nb)) /\
    (size (g_score s') + length (open_set s) = size (g_score s) + length (open_set s'))%nat /\
    (forall e, e ∈ B -> e ∈ B').
Proof.
  intros Hd Hinv Hgcur Hdcur Htcur Hpreds s' nb. subst s'.
  assert (Hadj : adjacent cur nb) by now apply SearchFacts.offsets_adjacent.
  unfold relax. cbv zeta. fold nb. rewrite clear_spec.
  destruct (in_bounds nb.1 nb.2) eqn:Hin.
  2:{ exists B, C. split; [exact Hinv|]. split; [tauto|]. split; [exact Hgcur|].
      split; [discriminate|]. split; [reflexivity | tauto]. }
  rewrite Hgcur.
  destruct (adjacent_dist start cur nb Hadj) as [Hdnb | Hdnb];
    destruct (g_score s !! nb) as [gn|] eqn:Hgn; cbn [is_better].
  - destruct (bfs_g _ _ _ _ _ _ _ _ Hinv nb gn Hgn) as [-> _].
    replace (k + 1 <? dist start nb) with false by (symmetry; apply Z.ltb_ge; lia).
    exists B, C. split; [exact Hinv|]. split; [tauto|]. split; [exact Hgcur|].
    split; [rewrite Hgn; eauto|]. split; [reflexivity | tauto].
  - (* the neighbour is new and one step farther from the start *)
    assert (Hnothash : nb ∉ open_set_hash s).
    { intros Hh. destruct (bfs_hash _ _ _ _ _ _ _ _ Hinv nb Hh) as [x Hx]. congruence. }
    assert (Hnecur : nb <> cur) by (intros E; rewrite E in Hgn; congruence).
    unfold improve. cbv zeta. rewrite (bool_decide_eq_false_2 _ Hnothash).
    fold (togo goal nb).
    set (e := (k + 1 + togo goal nb, count s + 1, nb)).
    set (g' := <[nb := k + 1]> (g_score s)).
    assert (Hmono : forall n, is_Some (g_score s !! n) -> is_Some (g' !! n))
      by (intros n; apply is_Some_insert_mono).
    assert (Hg' : forall n x, g' !! n = Some x -> x = dist start n /\ in_bounds n.1 n.2 = true).
    { intros n x. unfold g'. destruct (decide (nb = n)) as [<- | Hne].
      - rewrite lookup_insert_eq. intros [= <-]. split; [lia | exact Hin].
      - rewrite lookup_insert_ne by exact Hne. apply (bfs_g _ _ _ _ _ _ _ _ Hinv). }
    assert (Hpnb : forall m, adjacent m nb -> in_bounds m.1 m.2 = true ->
                     dist start m < dist start nb -> is_Some (g' !! m)).
    { intros m Hm Hmin Hml. destruct (decide (m = cur)) as [-> | Hmc].
      - apply Hmono. eauto.
      - apply Hmono.
        assert (Hin_cur : in_bounds cur.1 cur.2 = true)
          by exact (proj2 (bfs_g _ _ _ _ _ _ _ _ Hinv cur k Hgcur)).
        destruct (common_pred start nb m cur Hm Hadj Hmc Hml ltac:(lia) Hmin Hin_cur)
          as (p & Hpm & Hpc & Hpd & Hpin).
        assert (Hpk : dist start p = k - 1).
        { destruct (adjacent_dist start p cur Hpc); destruct (adjacent_dist start p m Hpm);
            lia. }
        assert (Hp : is_Some (g_score s !! p)) by (apply (Hpreds p Hpc Hpin); lia).
        assert (Hon : dist start p + togo goal p = span start goal).
        { pose proof (triangle start goal p).
          destruct (adjacent_togo goal p cur Hpc); lia. }
        apply (earlier_layer_expanded k cur A B C s p Hinv Hdcur Hp ltac:(lia) Hon m Hpm Hmin). }
    assert (Hclosed : forall heap' : list heap_entry,
              (forall x, x ∈ heap' <-> x = e \/ x ∈ open_set s) ->
              forall n, is_Some (g' !! n) -> ~ queued heap' n ->
              dist start n <= k /\
              (Some n <> Some cur ->
               forall m, adjacent n m -> in_bounds m.1 m.2 = true -> is_Some (g' !! m))).
    { intros heap' Hheap n Hn Hnq.
      assert (Hnnb : nb <> n).
      { intros <-. apply Hnq. exists e. split; [apply Hheap; now left | reflexivity]. }
      unfold g' in Hn. rewrite lookup_insert_ne in Hn by exact Hnnb.
      destruct (bfs_closed _ _ _ _ _ _ _ _ Hinv n Hn) as [Hle Hexp].
      - intros (x & Hx & Hxn). apply Hnq. exists x. split; [apply Hheap; now right | exact Hxn].
      - split; [exact Hle|]. intros Hc m Hm Hmin. apply Hmono. now apply (Hexp Hc). }
    assert (Hentry : forall heap' : list heap_entry,
              (forall x, x ∈ heap' <-> x = e \/ x ∈ open_set s) ->
              forall x, x ∈ heap' ->
              x.1.2 <= count s + 1 /\ x.1.1 = dist start x.2 + togo goal x.2 /\
              is_Some (g' !! x.2)).
    { intros heap' Hheap x Hx. apply Hheap in Hx. destruct Hx as [-> | Hx].
      - unfold e. cbn [fst snd]. split; [lia|]. split; [lia|].
        unfold g'. rewrite lookup_insert_eq. eauto.
      - destruct (bfs_entry _ _ _ _ _ _ _ _ Hinv x Hx) as (Hc & Hf & Hs).
        split; [lia|]. split; [exact Hf | now apply Hmono]. }
    assert (Hhash : forall n, n ∈ open_set_hash s ∪ {[nb]} -> is_Some (g' !! n)).
    { intros n Hn. apply elem_of_union in Hn. destruct Hn as [Hn | Hn].
      - apply Hmono. exact (bfs_hash _ _ _ _ _ _ _ _ Hinv n Hn).
      - apply elem_of_singleton in Hn. subst n. unfold g'. rewrite lookup_insert_eq. eauto. }
    assert (Hold : forall x, x ∈ A ++ B ->
              forall m, adjacent m x.2 -> in_bounds m.1 m.2 = true ->
                        dist start m < dist start x.2 -> is_Some (g' !! m)).
    { intros x Hx m Hm Hmin Hml. apply Hmono.
      exact (bfs_preds _ _ _ _ _ _ _ _ Hinv x Hx m Hm Hmin Hml). }
    assert (Hbehind : forall x, x ∈ A ++ B -> entry_ltb e x = false).
    { intros x Hx. apply entry_ltb_later.
      assert (Hx' : x ∈ open_set s).
      { rewrite (bfs_heap _ _ _ _ _ _ _ _ Hinv), app_assoc. apply elem_of_app. now left. }
      destruct (bfs_entry _ _ _ _ _ _ _ _ Hinv x Hx') as (Hc & _ & _).
      assert (Hfx : x.1.1 = span start goal).
      { apply elem_of_app in Hx. destruct Hx as [Hx | Hx];
          [apply (bfs_A _ _ _ _ _ _ _ _ Hinv x Hx) | apply (bfs_B _ _ _ _ _ _ _ _ Hinv x Hx)]. }
      pose proof (triangle start goal nb). lia. }
    assert (Hsize : (size g' = S (size (g_score s)))%nat)
      by (apply map_size_insert_None; exact Hgn).
    destruct (adjacent_togo goal cur nb Hadj) as [Htnb | Htnb].
    + (* off the shortest routes: behind every entry of the two layers *)
      exists B, (heappush C e).
      assert (Hheap : heappush (open_set s) e = A ++ B ++ heappush C e).
      { rewrite (bfs_heap _ _ _ _ _ _ _ _ Hinv), !app_assoc.
        apply heappush_behind. exact Hbehind. }
      assert (Hmem : forall x, x ∈ heappush (open_set s) e <-> x = e \/ x ∈ open_set s)
        by (intros x; apply SearchFacts.elem_of_heappush).
      split; [|split; [exact Hmono|split; [|split; [|split; [|tauto]]]]].
      * split; cbn [open_set open_set_hash g_score count].
        -- exact Hheap.
        -- apply (bfs_A _ _ _ _ _ _ _ _ Hinv).
        -- apply (bfs_B _ _ _ _ _ _ _ _ Hinv).
        -- intros x Hx. apply SearchFacts.elem_of_heappush in Hx. destruct Hx as [-> | Hx].
           ++ unfold e. cbn [fst]. lia.
           ++ exact (bfs_C _ _ _ _ _ _ _ _ Hinv x Hx).
        -- exact (Hentry _ Hmem).
        -- exact Hhash.
        -- exact Hg'.
        -- exact Hold.
        -- exact (Hclosed _ Hmem).
      * cbn [g_score]. unfold g'. rewrite lookup_insert_ne by exact Hnecur. exact Hgcur.
      * intros _. cbn [g_score]. unfold g'. rewrite lookup_insert_eq. eauto.
      * cbn [g_score open_set]. rewrite length_heappush. fold g'. lia.
    + (* on a shortest route: last of the next layer *)
      exists (B ++ [e]), C.
      assert (Hfe : k + 1 + togo goal nb = span start goal) by lia.
      assert (Hheap : heappush (open_set s) e = A ++ (B ++ [e]) ++ C).
      { rewrite (bfs_heap _ _ _ _ _ _ _ _ Hinv), !app_assoc.
        rewrite heappush_behind by exact Hbehind. rewrite heappush_before.
        - rewrite <- !app_assoc. reflexivity.
        - intros x Hx. apply entry_ltb_sooner. rewrite Hfe.
          exact (bfs_C _ _ _ _ _ _ _ _ Hinv x Hx). }
      assert (Hmem : forall x, x ∈ heappush (open_set s) e <-> x = e \/ x ∈ open_set s)
        by (intros x; apply SearchFacts.elem_of_heappush).
      split; [|split; [exact Hmono|split; [|split; [|split]]]].
      * split; cbn [open_set open_set_hash g_score count].
        -- exact Hheap.
        -- apply (bfs_A _ _ _ _ _ _ _ _ Hinv).
        -- intros x Hx. apply elem_of_app in Hx. destruct Hx as [Hx | Hx].
           ++ exact (bfs_B _ _ _ _ _ _ _ _ Hinv x Hx).
           ++ apply list_elem_of_singleton in Hx. subst x. unfold e. cbn [fst snd]. lia.
        -- apply (bfs_C _ _ _ _ _ _ _ _ Hinv).
        -- exact (Hentry _ Hmem).
        -- exact Hhash.
        -- exact Hg'.
        -- intros x Hx. rewrite app_assoc in Hx. apply elem_of_app in Hx.
           destruct Hx as [Hx | Hx]; [exact (Hold x Hx)|].
           apply list_elem_of_singleton in Hx. subst x. exact Hpnb.
        -- exact (Hclosed _ Hmem).
      * cbn [g_score]. unfold g'. rewrite lookup_insert_ne by exact Hnecur. exact Hgcur.
      * intros _. cbn [g_score]. unfold g'. rewrite lookup_insert_eq. eauto.
      * cbn [g_score open_set]. rewrite length_heappush. fold g'. lia.
      * intros x Hx. apply elem_of_app. now left.
  - destruct (bfs_g _ _ _ _ _ _ _ _ Hinv nb gn Hgn) as [-> _].
    replace (k + 1 <? dist start nb) with false by (symmetry; apply Z.ltb_ge; lia).
    exists B, C. split; [exact Hinv|]. split; [tauto|]. split; [exact Hgcur|].
    split; [rewrite Hgn; eauto|]. split; [reflexivity | tauto].
  - (* a neighbour nearer to the start has a score already *)
    exfalso. destruct (Hpreds nb (proj1 (adjacent_sym _ _) Hadj) Hin ltac:(lia)) as [x Hx].
    congruence.
Qed.

End Bfs.

End BfsStep.

Module BfsLoop.

Import Planner PlanSpec BfsSpec BfsFacts BfsStep.

Lemma size_list_to_set_le (l : list cell) : (size (list_to_set l : gset cell) <= length l)%nat.
Proof.
  induction l as [|x l IH]; [now rewrite list_to_set_nil, size_empty|].
  rewrite list_to_set_cons, size_union_alt, size_singleton. simpl.
  assert (size (list_to_set l ∖ {[x]} : gset cell) <= size (list_to_set l : gset cell))%nat
    by (apply subseteq_size; intros y Hy; apply elem_of_difference in Hy; tauto).
  lia.
Qed.

Lemma in_all_cells (n : cell) : in_bounds n.1 n.2 = true -> n ∈ all_cells.
Proof.
  intros H. apply in_bounds_spec in H. unfold all_cells.
  apply list_elem_of_bind. exists n.1. split.
  - apply list_elem_of_fmap. exists n.2. split; [now destruct n|].
    apply elem_of_seqZ. lia.
  - apply elem_of_seqZ. lia.
Qed.

Lemma length_all_cells : length all_cells = (80 * 80)%nat.
Proof. vm_compute. reflexivity. Qed.

Lemma scored_cells_bound (g : gmap cell Z) :
  (forall n x, g !! n = Some x -> in_bounds n.1 n.2 = true) -> (size g <= 80 * 80)%nat.
Proof.
  intros H. rewrite <- size_dom, <- length_all_cells.
  etransitivity; [|apply size_list_to_set_le].
  apply subseteq_size. intros n Hn. apply elem_of_dom in Hn. destruct Hn as [x Hx].
  apply elem_of_list_to_set. apply in_all_cells. exact (H n x Hx).
Qed.

Section Bfs.

Variable clear : Z -> Z -> bool.
Variables start goal : cell.
Hypothesis clear_spec : forall r c, clear r c = in_bounds r c.
Hypothesis goal_inside : in_bounds goal.1 goal.2 = true.

Lemma relax_all_bfs k cur A ds :
  forall B C s,
    Forall (fun d => d ∈ neighbour_offsets) ds ->
    bfs_inv start goal k (Some cur) A B C s ->
    g_score s !! cur = Some k -> dist start cur = k ->
    togo goal cur = span start goal - k ->
    preds_known start s cur ->
    let s' := fold_left (relax clear goal cur) ds s in
    exists B' C',
      bfs_inv start goal k (Some cur) A B' C' s' /\
      (forall n, is_Some (g_score s !! n) -> is_Some (g_score s' !! n)) /\
      (forall d, d ∈ ds -> in_bounds (cur.1 + d.1) (cur.2 + d.2) = true ->
                 is_Some (g_score s' !! (cur.1 + d.1, cur.2 + d.2))) /\
      (size (g_score s') + length (open_set s) = size (g_score s) + length (open_set s'))%nat /\
      (forall e, e ∈ B -> e ∈ B').
Proof.
  induction ds as [|d ds IH]; intros B C s Hds Hinv Hg Hd Ht Hp; cbn [fold_left].
  - exists B, C. split; [exact Hinv|]. split; [tauto|]. split; [|split; [reflexivity | tauto]].
    intros d Hd'. apply elem_of_nil in Hd'. destruct Hd'.
  - apply Forall_cons in Hds. destruct Hds as [Hd0 Hds].
    destruct (relax_bfs clear start goal clear_spec k cur A B C s d Hd0 Hinv Hg Hd Ht Hp)
      as (B1 & C1 & Hinv1 & Hmono1 & Hg1 & Hnb1 & Hsize1 & HB1).
    assert (Hp1 : preds_known start (relax clear goal cur s d) cur).
    { intros m Hm Hmin Hml. apply Hmono1. exact (Hp m Hm Hmin Hml). }
    destruct (IH B1 C1 _ Hds Hinv1 Hg1 Hd Ht Hp1)
      as (B2 & C2 & Hinv2 & Hmono2 & Hnb2 & Hsize2 & HB2).
    exists B2, C2. split; [exact Hinv2|]. split; [intros n Hn; now apply Hmono2, Hmono1|].
    split; [|split; [lia | intros e He; now apply HB2, HB1]].
    intros d' Hd' Hin. apply elem_of_cons in Hd'. destruct Hd' as [-> | Hd'].
    + apply Hmono2. exact (Hnb1 Hin).
    + exact (Hnb2 d' Hd' Hin).
Qed.

(** Popping the head of the current layer and relaxing its four neighbours
    keeps the layers, with the popped cell expanded. *)
Lemma expand_bfs k f c cur A B C s :
  bfs_inv start goal k None ((f, c, cur) :: A) B C s ->
  let s1 := mkAstar (A ++ B ++ C) (open_set_hash s ∖ {[cur]})
                    (came_from s) (g_score s) (f_score s) (count s) in
  let s' := fold_left (relax clear goal cur) neighbour_offsets s1 in
  exists B' C',
    bfs_inv start goal k None A B' C' s' /\
    (size (g_score s') + length (open_set s) = S (size (g_score s) + length (open_set s')))%nat /\
    (forall e, e ∈ B -> e ∈ B') /\
    dist start cur = k /\ togo goal cur = span start goal - k /\
    in_bounds cur.1 cur.2 = true /\ expanded s' cur.
Proof.
  intros Hinv s1 s'.
  assert (Hhead : (f, c, cur) ∈ open_set s)
    by (rewrite (bfs_heap _ _ _ _ _ _ _ _ Hinv); left).
  destruct (bfs_A _ _ _ _ _ _ _ _ Hinv (f, c, cur)) as [Hf Hd]; [left|]. cbn [fst snd] in Hf, Hd.
  destruct (bfs_entry _ _ _ _ _ _ _ _ Hinv _ Hhead) as (_ & Hfe & [x Hx]).
  cbn [fst snd] in Hfe, Hx.
  destruct (bfs_g _ _ _ _ _ _ _ _ Hinv cur x Hx) as [-> Hin]. rewrite Hd in Hx.
  assert (Hsub : forall e, e ∈ open_set s1 -> e ∈ open_set s).
  { intros e He. rewrite (bfs_heap _ _ _ _ _ _ _ _ Hinv). now right. }
  assert (Hinv1 : bfs_inv start goal k (Some cur) A B C s1).
  { split; cbn [open_set open_set_hash g_score count].
    - reflexivity.
    - intros e He. apply (bfs_A _ _ _ _ _ _ _ _ Hinv). now right.
    - apply (bfs_B _ _ _ _ _ _ _ _ Hinv).
    - apply (bfs_C _ _ _ _ _ _ _ _ Hinv).
    - intros e He. apply (bfs_entry _ _ _ _ _ _ _ _ Hinv). now apply Hsub.
    - intros n Hn. apply (bfs_hash _ _ _ _ _ _ _ _ Hinv).
      apply elem_of_difference in Hn. tauto.
    - apply (bfs_g _ _ _ _ _ _ _ _ Hinv).
    - intros e He. apply (bfs_preds _ _ _ _ _ _ _ _ Hinv e). now right.
    - intros n Hn Hnq. destruct (decide (n = cur)) as [-> | Hne].
      + split; [lia | congruence].
      + destruct (bfs_closed _ _ _ _ _ _ _ _ Hinv n Hn) as [Hle Hexp].
        * intros (e & He & Hen). rewrite (bfs_heap _ _ _ _ _ _ _ _ Hinv) in He.
          apply elem_of_cons in He. destruct He as [-> | He]; [now apply Hne|].
          apply Hnq. now exists e.
        * split; [exact Hle|]. intros _. apply Hexp. discriminate. }
  assert (Hp : preds_known start s1 cur)
    by (apply (bfs_preds _ _ _ _ _ _ _ _ Hinv (f, c, cur)); left).
  destruct (relax_all_bfs k cur A neighbour_offsets B C s1
              ltac:(apply Forall_forall; tauto) Hinv1 Hx Hd ltac:(lia) Hp)
    as (B' & C' & Hinv' & Hmono & Hnb & Hsize & HB).
  fold s' in Hinv', Hmono, Hnb, Hsize.
  assert (Hexp : expanded s' cur).
  { intros m Hm Hmin. destruct (adjacent_offsets cur m Hm) as (d & Hd' & ->).
    exact (Hnb d Hd' Hmin). }
  exists B', C'.
  split; [|split; [|split; [exact HB | split; [exact Hd | split; [lia | split; [exact Hin | exact Hexp]]]]]].
  - split; try apply Hinv'.
    intros n Hn Hnq. destruct (bfs_closed _ _ _ _ _ _ _ _ Hinv' n Hn Hnq) as [Hle Hexp0].
    split; [exact Hle|]. intros _. destruct (decide (n = cur)) as [-> | Hne].
    + exact Hexp.
    + apply Hexp0. congruence.
  - rewrite (bfs_heap _ _ _ _ _ _ _ _ Hinv). cbn [app length].
    change (open_set s1) with (A ++ B ++ C) in Hsize. change (g_score s1) with (g_score s) in Hsize.
    lia.
Qed.

(** When the current layer is used up, the next one is not empty as long
    as the goal has not been popped, and it becomes the current layer. *)
Lemma next_layer k cur B C s :
  bfs_inv start goal k None [] B C s ->
  cur <> goal -> in_bounds cur.1 cur.2 = true ->
  dist start cur = k -> togo goal cur = span start goal - k ->
  expanded s cur ->
  B <> [] /\ bfs_inv start goal (k + 1) None B [] C s.
Proof.
  intros Hinv Hgoal Hin Hd Ht Hexp. split.
  - intros ->.
    destruct (successor_exists goal cur Hgoal Hin goal_inside) as (m & Hm & Htm & Hmin).
    assert (Hdm : dist start m = k + 1).
    { pose proof (triangle start goal m). destruct (adjacent_dist start cur m Hm); lia. }
    pose proof (Hexp m Hm Hmin) as Hsm.
    destruct (bfs_closed _ _ _ _ _ _ _ _ Hinv m Hsm) as [Hle _]; [|lia].
    intros (e & He & <-).
    destruct (bfs_entry _ _ _ _ _ _ _ _ Hinv e He) as (_ & Hf & _).
    rewrite (bfs_heap _ _ _ _ _ _ _ _ Hinv) in He. cbn [app] in He.
    pose proof (bfs_C _ _ _ _ _ _ _ _ Hinv e He). lia.
  - split.
    + rewrite (bfs_heap _ _ _ _ _ _ _ _ Hinv). reflexivity.
    + apply (bfs_B _ _ _ _ _ _ _ _ Hinv).
    + intros e He. apply elem_of_nil in He. destruct He.
    + apply (bfs_C _ _ _ _ _ _ _ _ Hinv).
    + apply (bfs_entry _ _ _ _ _ _ _ _ Hinv).
    + apply (bfs_hash _ _ _ _ _ _ _ _ Hinv).
    + apply (bfs_g _ _ _ _ _ _ _ _ Hinv).
    + intros e He. rewrite app_nil_r in He. apply (bfs_preds _ _ _ _ _ _ _ _ Hinv e He).
    + intros n Hn Hnq. destruct (bfs_closed _ _ _ _ _ _ _ _ Hinv n Hn Hnq) as [Hle Hex].
      split; [lia | exact Hex].
Qed.

(** On an obstacle-free grid the loop reaches the goal before it runs out
    of iterations, and every score is the distance from the start. *)
Lemma bfs_loop fuel :
  forall s k A B C,
    bfs_inv start goal k None A B C s -> A <> [] ->
    (80 * 80 + length (open_set s) <= fuel + size (g_score s))%nat ->
    exists s', astar_loop clear goal fuel s = (true, s') /\
               forall n x, g_score s' !! n = Some x -> x = dist start n.
Proof.
  induction fuel as [|fuel IH]; intros s k A B C Hinv HA Hfuel.
  - exfalso.
    assert (size (g_score s) <= 80 * 80)%nat.
    { apply scored_cells_bound. intros n x Hx. apply (bfs_g _ _ _ _ _ _ _ _ Hinv n x Hx). }
    rewrite (bfs_heap _ _ _ _ _ _ _ _ Hinv) in Hfuel. destruct A; [congruence|].
    cbn [length app] in Hfuel. lia.
  - destruct A as [|[[f c] cur] A]; [congruence|]. clear HA.
    cbn [astar_loop]. rewrite (bfs_heap _ _ _ _ _ _ _ _ Hinv). cbn [app].
    destruct (bool_decide (cur = goal)) eqn:Hgoal.
    + eexists. split; [reflexivity|]. cbn [g_score]. intros n x Hx.
      apply (bfs_g _ _ _ _ _ _ _ _ Hinv n x Hx).
    + apply bool_decide_eq_false in Hgoal.
      destruct (expand_bfs k f c cur A B C s Hinv)
        as (B' & C' & Hinv' & Hsize & HB & Hd & Ht & Hin & Hexp).
      set (s' := fold_left _ _ _) in *.
      assert (Hfuel' : (80 * 80 + length (open_set s') <= fuel + size (g_score s'))%nat)
        by lia.
      destruct A as [|a A].
      * destruct (next_layer k cur B' C' s' Hinv' Hgoal Hin Hd Ht Hexp) as [HB' Hnext].
        exact (IH s' (k + 1) B' [] C' Hnext HB' Hfuel').
      * exact (IH s' k (a :: A) B' C' Hinv' ltac:(discriminate) Hfuel').
Qed.

(** The variables before the first iteration. *)
Lemma initial_bfs_inv :
  in_bounds start.1 start.2 = true ->
  bfs_inv start goal 0 None [(span start goal, 0, start)] [] [] (initial_search start goal).
Proof.
  intros Hstart. unfold initial_search.
  split; cbn [open_set open_set_hash g_score count].
  - reflexivity.
  - intros e He. apply list_elem_of_singleton in He. subst e. cbn [fst snd].
    split; [reflexivity | apply dist_start].
  - intros e He. apply elem_of_nil in He. destruct He.
  - intros e He. apply elem_of_nil in He. destruct He.
  - intros e He. apply list_elem_of_singleton in He. subst e. cbn [fst snd].
    split; [lia|]. split.
    + rewrite dist_start. unfold span, togo. lia.
    + rewrite lookup_singleton_eq. eauto.
  - intros n Hn. apply elem_of_singleton in Hn. subst n. rewrite lookup_singleton_eq. eauto.
  - intros n x Hx. apply lookup_singleton_Some in Hx. destruct Hx as [<- <-].
    split; [symmetry; apply dist_start | exact Hstart].
  - intros e He. rewrite app_nil_r in He. apply list_elem_of_singleton in He. subst e.
    intros m Hm _ Hml. cbn [snd] in Hml. rewrite dist_start in Hml.
    unfold dist, heuristic in Hml. lia.
  - intros n [x Hx] Hnq. apply lookup_singleton_Some in Hx. destruct Hx as [<- _].
    exfalso. apply Hnq. eexists. split; [left | reflexivity].
Qed.

End Bfs.

End BfsLoop.

Module ShortestFacts.

Import Planner PlanSpec BfsSpec BfsFacts.

(** On an obstacle-free grid of the right shape the traversable cells are
    the cells of the grid. *)
Lemma obstacle_free_clear g r c :
  grid_shape g -> obstacle_free g -> is_valid_and_clear g r c = in_bounds r c.
Proof.
  intros [Hrows Hcols] Hfree. unfold is_valid_and_clear.
  destruct (in_bounds r c) eqn:Hin; [|reflexivity]. cbn [andb].
  apply in_bounds_spec in Hin. unfold grid_get.
  destruct (lookup_lt_is_Some_2 g (Z.to_nat r)) as [row Hrow]; [lia|].
  rewrite Hrow. cbn [mbind option_bind].
  assert (Hlen : length row = Z.to_nat GRID_DIMENSION).
  { rewrite Forall_forall in Hcols. apply Hcols. eapply list_elem_of_lookup_2. exact Hrow. }
  destruct (lookup_lt_is_Some_2 row (Z.to_nat c)) as [v Hv]; [lia|].
  rewrite Hv. apply Qltb_true.
  unfold obstacle_free in Hfree. rewrite Forall_forall in Hfree.
  assert (Hr : Forall (fun v => (v < RENDER_THRESHOLD)%Q) row)
    by (apply Hfree; eapply list_elem_of_lookup_2; exact Hrow).
  rewrite Forall_forall in Hr. apply Hr. eapply list_elem_of_lookup_2. exact Hv.
Qed.

Section Length.

Variable start : cell.
Variable cf : gmap cell cell.

Hypothesis links : forall n p, cf !! n = Some p ->
  dist start n = dist start p + 1 /\ (p = start \/ is_Some (cf !! p)).

Lemma reconstruct_length fuel temp acc res :
  temp = start \/ is_Some (cf !! temp) ->
  reconstruct fuel cf temp acc = Some res ->
  Z.of_nat (length res) = Z.of_nat (length acc) + dist start temp.
Proof.
  revert temp acc. induction fuel as [|fuel IH]; intros temp acc Htemp; simpl.
  - destruct (cf !! temp) eqn:E; [discriminate|]. intros [= <-].
    destruct Htemp as [-> | [x Hx]]; [|congruence]. rewrite dist_start. lia.
  - destruct (cf !! temp) as [p|] eqn:E.
    + intros Hres. destruct (links temp p E) as (Hd & Hp).
      rewrite (IH p (acc ++ [temp]) Hp Hres), length_app. cbn [length]. lia.
    + intros [= <-]. destruct Htemp as [-> | [x Hx]]; [|congruence].
      rewrite dist_start. lia.
Qed.

End Length.

End ShortestFacts.

(** C2: on a grid with no occupied cell, for every goal inside the grid at
    offset [(dr, dc)] from the grid centre, the planner succeeds, and the
    path it returns, start excluded, has [|dr| + |dc|] cells. *)
Theorem obstacle_free_paths_are_shortest (g : grid) (goal : cell) (dr dc : Z) :
  grid_shape g ->
  BfsSpec.obstacle_free g ->
  in_bounds goal.1 goal.2 = true ->
  goal = (PlanSpec.grid_center.1 + dr, PlanSpec.grid_center.2 + dc) ->
  exists path,
    Planner.plan_path g PlanSpec.grid_center (Some goal) = Some (Planner.PathFound path) /\
    Z.of_nat (length path) = Z.abs dr + Z.abs dc.
Proof.
  intros Hshape Hfree Hgoal Hoff.
  set (start := PlanSpec.grid_center).
  assert (Hclear : forall r c, is_valid_and_clear g r c = in_bounds r c)
    by (intros r c; now apply ShortestFacts.obstacle_free_clear).
  assert (Hstart : in_bounds start.1 start.2 = true) by reflexivity.
  assert (Hfuel : (80 * 80 + length (Planner.open_set (Planner.initial_search start goal))
                   <= max_iterations
                      + size (Planner.g_score (Planner.initial_search start goal)))%nat).
  { cbn [Planner.initial_search Planner.open_set Planner.g_score length].
    rewrite map_size_singleton.
    assert (E : max_iterations = Z.to_nat 9600) by reflexivity. rewrite E. lia. }
  destruct (BfsLoop.bfs_loop (is_valid_and_clear g) start goal Hclear Hgoal max_iterations
              _ 0 _ [] [] (BfsLoop.initial_bfs_inv start goal Hstart) ltac:(discriminate) Hfuel)
    as (s & Hloop & Hscores).
  destruct (SearchFacts.astar_loop_inv (is_valid_and_clear g) start goal _ _ _ _
              (SearchFacts.initial_search_inv _ start goal) Hloop) as [Hinv Hfound].
  specialize (Hfound eq_refl).
  unfold Planner.plan_path. rewrite Hclear, Hgoal. cbn [negb]. rewrite Hloop.
  pose proof (PlanFacts.search_inv_links _ _ _ Hinv) as Hdec.
  pose proof (PlanFacts.search_inv_start_unlinked _ _ _ Hinv) as Hunlinked.
  destruct (Planner.reconstruct _ (Planner.came_from s) goal []) as [res|] eqn:Hrec.
  2:{ exfalso. revert Hrec.
      apply (PathFacts.reconstruct_total (Planner.g_score s)); [exact Hdec | lia]. }
  destruct (PathFacts.reconstruct_route (is_valid_and_clear g) start (Planner.came_from s)
              (fun n p H => let '(conj a (conj b (conj c _))) :=
                              PlanSpec.inv_parent _ _ _ Hinv n p H in conj a (conj b c))
              _ goal [] res Hfound Hrec) as (chain & -> & _ & _ & Hall).
  assert (Hlinks : forall n p, Planner.came_from s !! n = Some p ->
            BfsSpec.dist start n = BfsSpec.dist start p + 1 /\
            (p = start \/ is_Some (Planner.came_from s !! p))).
  { intros n p Hnp.
    destruct (PlanSpec.inv_parent _ _ _ Hinv n p Hnp)
      as (_ & Hadj & Hp & gn & gp & Hgn & Hgp & Hlt).
    split; [|exact Hp].
    rewrite (Hscores n gn Hgn) in Hlt. rewrite (Hscores p gp Hgp) in Hlt.
    destruct (BfsFacts.adjacent_dist start p n Hadj); lia. }
  pose proof (ShortestFacts.reconstruct_length start (Planner.came_from s) Hlinks
                _ goal [] _ Hfound Hrec) as Hlen.
  cbn [app] in *. cbv zeta. exists (rev chain). split.
  - rewrite PlanFacts.drop_start_id; [reflexivity|].
    intros first tl Hrev ->.
    assert (Hin : start ∈ chain).
    { apply elem_of_reverse. unfold reverse. rewrite <- rev_alt, Hrev. left. }
    rewrite Forall_forall in Hall. destruct (Hall start Hin) as [p Hp]. congruence.
  - rewrite length_rev, Hlen. cbn [length]. rewrite Hoff.
    subst start. unfold BfsSpec.dist, Planner.heuristic, PlanSpec.grid_center.
    cbn [fst snd]. lia.
Qed.

Lemma obstacle_free_paths_are_shortest_witness :
  exists path,
    Planner.plan_path zeros PlanSpec.grid_center (Some (37, 40))
    = Some (Planner.PathFound path) /\
    Z.of_nat (length path) = 3.
Proof.
  apply (obstacle_free_paths_are_shortest zeros (37, 40) (-3) 0).
  - split; [reflexivity|]. apply Forall_forall. intros row Hrow.
    apply elem_of_replicate in Hrow. destruct Hrow as [-> _]. apply length_replicate.
  - apply Forall_forall. intros row Hrow.
    apply elem_of_replicate in Hrow. destruct Hrow as [-> _].
    apply Forall_forall. intros v Hv. apply elem_of_replicate in Hv. destruct Hv as [-> _].
    reflexivity.
  - reflexivity.
  - reflexivity.
Defined.

(** * The rest of the viewer, the robot and the motion server *)

(** ** Invariants of the controller *)

Module NavInvariants.

Import Planner Nav NavSpec NavSteps.

Section Handlers.

Variable rnd : Q -> Q.
Variables fl sin_deg cos_deg : Q -> Q.
Variable net : nat -> transport_result.

(** A stop is always attempted, and it never moves the controller out of
    REACHED_GOAL. *)
Lemma send_stop_reached v :
  navigation_state v = NAV_STATE_REACHED_GOAL ->
  let v' := snd (send_command net "S" v) in
  navigation_state v' = NAV_STATE_REACHED_GOAL /\
  current_path v' = current_path v /\
  wire_log v' = wire_log v ++ [("S"%string, net (length (wire_log v)))].
Proof.
  intros Hs. cbv zeta. unfold send_command, handle_command_send_error. rewrite Hs.
  cbn [nav_state_eqb andb]. destruct (net (length (wire_log v))); cbn; rewrite ?Hs; cbn; tauto.
Qed.

Lemma clear_cell_check (g : grid) r c value :
  in_bounds r c = true -> grid_get g r c = Some value ->
  negb (Qltb value RENDER_THRESHOLD) = false ->
  is_valid_and_clear g r c = true.
Proof.
  intros Hb Hg Hv. unfold is_valid_and_clear. rewrite Hb, Hg.
  now apply negb_false_iff in Hv.
Qed.

Local Opaque plan_path process_queued_data is_valid_and_clear grid_get in_bounds
  choose_motion classify_step Qltb String.eqb cell_eqb.

Ltac break_step :=
  match goal with
  | |- context [match ?x with _ => _ end] =>
      lazymatch x with
      | context [match _ with _ => _ end] => fail
      | _ => destruct x eqn:?
      end
  end.

(** Unfolds the handlers, then reads the fields through the setters. *)
Ltac unfold_handlers :=
  unfold handle, toggle_connection, udp_receive, handle_map_click, planner_thread_runs,
    planner_callback_runs, periodic_update, action_timer_fires, on_close,
    execute_navigation_step, on_action_completed, on_action_completed_no_command,
    path_planning_succeeded, path_planning_failed, issue_command,
    start_udp_listener, stop_udp_listener, start_planner_thread,
    send_command, handle_command_send_error, goal_is, is_periodic_update in *;
  cbv zeta.

Ltac read_fields :=
  cbn [set_occupancy_grid set_data_queue set_is_udp_running set_navigation_goal_cell
       set_current_path set_navigation_state set_robot_orientation_map_deg
       set_current_action_end_time set_action_timer_id set_planner_alive
       set_planner_callbacks set_last_command_sent_successful set_wire_log
       occupancy_grid data_queue is_udp_running navigation_goal_cell current_path
       current_logical_robot_cell_on_path navigation_state robot_orientation_map_deg
       current_action_end_time action_timer_id planner_alive planner_callbacks
       last_command_sent_successful wire_log negb orb andb fst snd] in *.

Ltac by_cases := unfold_handlers; read_fields; repeat (break_step; read_fields).

Lemma handle_logical_cell e v :
  current_logical_robot_cell_on_path (handle rnd fl sin_deg cos_deg net e v)
  = current_logical_robot_cell_on_path v.
Proof. destruct e; by_cases; reflexivity. Qed.

Lemma handle_goal_change e v : goal_change v (handle rnd fl sin_deg cos_deg net e v).
Proof.
  destruct e;
    by_cases;
    first [ apply goal_kept; reflexivity
          | apply goal_cleared; reflexivity
          | eapply goal_set; [reflexivity | assumption] ].
Qed.

Lemma handle_wire_change e v : wire_change net e v (handle rnd fl sin_deg cos_deg net e v).
Proof.
  destruct e;
    by_cases;
    first [ apply wire_kept; reflexivity
          | apply wire_stop; read_fields; congruence
          | eapply wire_motion;
            [ | reflexivity | first [assumption | reflexivity]
            | read_fields;
              match goal with H : net _ = _ |- _ => rewrite H end; reflexivity ];
            unfold motion_commands;
            repeat (apply elem_of_cons; ((left; reflexivity) || right)) ].
Qed.

Lemma handle_queue_change e v : queue_change v (handle rnd fl sin_deg cos_deg net e v).
Proof.
  destruct e; try (by_cases; apply queue_kept; reflexivity).
  - cbn [handle]. unfold udp_receive. destruct (is_udp_running v).
    + eapply queue_put. reflexivity.
    + now apply queue_kept.
  - cbn [handle]. unfold periodic_update.
    assert (Hq : snd (process_queued_data rnd fl sin_deg cos_deg (is_udp_running v)
                        (robot_orientation_map_deg v) (occupancy_grid v) (data_queue v))
                 = drop 2 (data_queue v)).
    { Local Transparent process_queued_data. unfold process_queued_data.
      destruct (data_queue v) as [|p1 [|p2 rest]]; [destruct (is_udp_running v)| |];
        reflexivity. }
    Local Opaque process_queued_data.
    destruct (process_queued_data _ _ _ _ _ _ _) as [g q]. cbn [snd] in Hq. subst q.
    apply queue_taken. by_cases; reflexivity.
Qed.

Lemma handle_error_timer e v :
  error_has_no_timer v -> error_has_no_timer (handle rnd fl sin_deg cos_deg net e v).
Proof.
  unfold error_has_no_timer. intros H.
  destruct e; by_cases; intros Hs;
    first [ reflexivity | discriminate | assumption | apply H; assumption ].
Qed.

Lemma handle_reached_here e v :
  reached_means_here v -> reached_means_here (handle rnd fl sin_deg cos_deg net e v).
Proof.
  unfold reached_means_here. intros H.
  destruct e; by_cases; intros Hs;
    first [ discriminate
          | apply H; assumption
          | match goal with
            | Ho : navigation_goal_cell _ = _ |- _ => rewrite Ho; apply H; assumption
            end
          | match goal with
            | Hc : cell_eqb _ _ = true |- _ =>
                apply PathFacts.cell_eqb_eq in Hc; congruence
            end ].
Qed.

(** In the error state, with no timer pending, the background events
    leave the controller where it is. *)
Lemma handle_error_quiet e v :
  navigation_state v = NAV_STATE_ROBOT_CMD_ERROR ->
  action_timer_id v = None ->
  is_background e = true ->
  let v' := handle rnd fl sin_deg cos_deg net e v in
  navigation_state v' = NAV_STATE_ROBOT_CMD_ERROR /\
  action_timer_id v' = None /\
  wire_log v' = wire_log v /\
  current_path v' = current_path v /\
  robot_orientation_map_deg v' = robot_orientation_map_deg v.
Proof.
  intros Hs Ht He. destruct e; try discriminate He; cbn [handle]; cbv zeta.
  - unfold udp_receive. destruct (is_udp_running v); cbn; auto.
  - unfold planner_thread_runs. destruct (planner_alive v); [|auto].
    destruct (plan_path _ _ _); cbn; auto.
  - unfold periodic_update. destruct (process_queued_data _ _ _ _ _ _ _) as [g q].
    cbv zeta. read_fields. destruct (is_udp_running v); [|cbn; auto].
    unfold execute_navigation_step. read_fields. rewrite Hs. cbn. auto.
  - unfold action_timer_fires. rewrite Ht. auto.
Qed.

Lemma reachable_logical_cell v :
  reachable rnd fl sin_deg cos_deg net v ->
  current_logical_robot_cell_on_path v = (grid_center_y_cell, grid_center_x_cell).
Proof.
  induction 1 as [|e v Hv IH]; [reflexivity|]. now rewrite handle_logical_cell.
Qed.

Lemma reachable_reached_here v :
  reachable rnd fl sin_deg cos_deg net v -> reached_means_here v.
Proof.
  induction 1 as [|e v Hv IH]; [discriminate|]. now apply handle_reached_here.
Qed.

Lemma reachable_error_timer v :
  reachable rnd fl sin_deg cos_deg net v -> error_has_no_timer v.
Proof.
  induction 1 as [|e v Hv IH]; [discriminate|]. now apply handle_error_timer.
Qed.

Lemma reachable_goal_in_bounds v r c :
  reachable rnd fl sin_deg cos_deg net v ->
  navigation_goal_cell v = Some (r, c) -> in_bounds r c = true.
Proof.
  intros Hv. revert r c. induction Hv as [|e v Hv IH]; intros r c; [discriminate|].
  destruct (handle_goal_change e v) as [H | H | r' c' H Hb]; rewrite H.
  - apply IH.
  - discriminate.
  - intros [= <- <-]. exact Hb.
Qed.

Lemma reachable_queue_bound v :
  reachable rnd fl sin_deg cos_deg net v -> (length (data_queue v) <= 5)%nat.
Proof.
  induction 1 as [|e v Hv IH]; [cbn; lia|].
  destruct (handle_queue_change e v) as [H | packet H | H]; rewrite H.
  - exact IH.
  - rewrite length_app. cbn [length].
    destruct (5 <=? length (data_queue v))%nat eqn:E.
    + destruct (data_queue v); cbn in *; lia.
    + apply Nat.leb_gt in E. lia.
  - rewrite length_drop. lia.
Qed.

Lemma reachable_wire_alphabet v :
  reachable rnd fl sin_deg cos_deg net v ->
  Forall (fun a => a.1 ∈ ["F"; "L"; "R"; "S"]%string) (wire_log v).
Proof.
  induction 1 as [|e v Hv IH]; [constructor|].
  destruct (handle_wire_change e v) as [H | H | command Hc _ _ H]; rewrite H.
  - exact IH.
  - apply Forall_app. split; [exact IH|]. apply Forall_singleton. cbn [fst].
    repeat (apply elem_of_cons; ((left; reflexivity) || right)).
  - apply Forall_app. split; [exact IH|]. apply Forall_singleton. cbn [fst].
    unfold motion_commands in Hc.
    repeat (apply elem_of_cons in Hc; destruct Hc as [-> | Hc];
            [repeat (apply elem_of_cons; ((left; reflexivity) || right))|]).
    now apply elem_of_nil in Hc.
Qed.

(** A click sets the goal only on a clear cell of the grid, with the feed
    connected. *)
Lemma handle_map_click_goal confirm r c v g :
  navigation_goal_cell (handle_map_click net confirm r c v) = Some g ->
  navigation_goal_cell v = Some g \/
  (g = (r, c) /\ is_udp_running v = true /\
   is_valid_and_clear (occupancy_grid v) r c = true).
Proof.
  by_cases; intros Hg;
    first [ left; exact Hg
          | right; injection Hg as <-;
            split; [reflexivity|]; split;
            [ match goal with
              | H : negb (is_udp_running _) = false |- _ => now apply negb_false_iff in H
              end
            | eapply clear_cell_check; eassumption ] ].
Qed.

Lemma toggle_connection_off ip_given bind_ok v :
  is_udp_running v = true ->
  let v' := toggle_connection net ip_given bind_ok v in
  is_udp_running v' = false /\
  navigation_state v' = NAV_STATE_IDLE /\
  navigation_goal_cell v' = None /\
  current_path v' = [] /\
  robot_orientation_map_deg v' = 0%Q /\
  action_timer_id v' = None /\
  occupancy_grid v' = occupancy_grid v /\
  wire_log v' = wire_log v ++
    (if state_in (navigation_state v)
          [NAV_STATE_IDLE; NAV_STATE_REACHED_GOAL; NAV_STATE_NO_PATH_FOUND;
           NAV_STATE_ROBOT_CMD_ERROR]
     then [] else [("S"%string, net (length (wire_log v)))]).
Proof.
  intros Hrun. cbv zeta. unfold toggle_connection. rewrite Hrun. cbv zeta.
  destruct (state_in (navigation_state v) _) eqn:Es; cbn [negb].
  - unfold stop_udp_listener. rewrite Hrun. cbn. rewrite app_nil_r. tauto.
  - assert (Hatt : attempted "S" v = true) by apply NavFacts.attempted_stop.
    pose proof (NavFacts.send_command_frame net "S" v) as (Hg & _ & Hr & _).
    assert (Hw : wire_log (snd (send_command net "S" v))
                 = wire_log v ++ [("S"%string, net (length (wire_log v)))]).
    { destruct (net (length (wire_log v))) eqn:En.
      - rewrite (NavFacts.send_command_delivered net "S" v Hatt En). reflexivity.
      - rewrite (NavFacts.send_command_failed net "S" v Hatt) by congruence.
        unfold handle_command_send_error. cbv zeta. rewrite En.
        now destruct (negb _).
      - rewrite (NavFacts.send_command_failed net "S" v Hatt) by congruence.
        unfold handle_command_send_error. cbv zeta. rewrite En.
        now destruct (negb _).
      - rewrite (NavFacts.send_command_failed net "S" v Hatt) by congruence.
        unfold handle_command_send_error. cbv zeta. rewrite En.
        now destruct (negb _). }
    unfold stop_udp_listener. rewrite Hr, Hrun. cbn. rewrite Hg, Hw. tauto.
Qed.

Lemma toggle_connection_on bind_ok v :
  is_udp_running v = false ->
  let v' := toggle_connection net true bind_ok v in
  occupancy_grid v' = zeros /\
  robot_orientation_map_deg v' = 0%Q /\
  is_udp_running v' = bind_ok /\
  navigation_state v' = navigation_state v /\
  navigation_goal_cell v' = navigation_goal_cell v /\
  current_path v' = current_path v /\
  data_queue v' = data_queue v /\
  wire_log v' = wire_log v.
Proof.
  intros Hrun. cbv zeta. unfold toggle_connection, start_udp_listener. rewrite Hrun.
  cbn. tauto.
Qed.

Lemma run_error_quiet events v :
  navigation_state v = NAV_STATE_ROBOT_CMD_ERROR ->
  action_timer_id v = None ->
  Forall (fun e => is_background e = true) events ->
  let v' := run rnd fl sin_deg cos_deg net events v in
  navigation_state v' = NAV_STATE_ROBOT_CMD_ERROR /\
  wire_log v' = wire_log v /\
  current_path v' = current_path v /\
  robot_orientation_map_deg v' = robot_orientation_map_deg v.
Proof.
  revert v. induction events as [|e rest IH]; intros v Hs Ht Hall; [cbn; tauto|].
  inversion Hall as [|? ? He Hrest]; subst.
  destruct (handle_error_quiet e v Hs Ht He) as (Hs' & Ht' & Hw & Hp & Hh).
  cbv zeta. cbn [run fold_left].
  destruct (IH _ Hs' Ht' Hrest) as (H1 & H2 & H3 & H4).
  unfold run in H1, H2, H3, H4. rewrite H1, H2, H3, H4, Hw, Hp, Hh. tauto.
Qed.

End Handlers.

End NavInvariants.
(** ** The shape of the grid *)

Module ShapeFacts.

Section Shape.

Variable rnd : Q -> Q.
Variables fl sin_deg cos_deg : Q -> Q.

Lemma zeros_shape : grid_shape zeros.
Proof.
  unfold grid_shape, zeros. split; [apply length_replicate|].
  apply Forall_replicate, length_replicate.
Qed.

Lemma decay_grid_shape g : grid_shape g -> grid_shape (decay_grid rnd g).
Proof.
  unfold grid_shape, decay_grid. intros [Hl Hr]. split; [now rewrite length_map|].
  apply Forall_forall. intros row Hrow. apply list_elem_of_In, in_map_iff in Hrow.
  destruct Hrow as (row0 & <- & Hin). rewrite length_map.
  rewrite Forall_forall in Hr. apply Hr. now apply list_elem_of_In.
Qed.

Lemma grid_alter_shape f g r c : grid_shape g -> grid_shape (grid_alter f g r c).
Proof.
  unfold grid_shape, grid_alter. intros [Hl Hr]. split; [now rewrite length_alter|].
  apply Forall_alter; [exact Hr|]. intros row _ Hrow. now rewrite length_alter.
Qed.

Lemma update_occupancy_grid_shape heading g points :
  grid_shape g -> grid_shape (update_occupancy_grid rnd fl sin_deg cos_deg heading g points).
Proof.
  intros Hg. unfold update_occupancy_grid.
  assert (H : grid_shape (decay_grid rnd g)) by now apply decay_grid_shape.
  revert H. generalize (decay_grid rnd g). clear Hg g.
  induction points as [|p ps IH]; intros g Hg; [exact Hg|].
  cbn [fold_left]. apply IH. unfold integrate_point.
  destruct (classify_point _ _ _ _); try exact Hg. now apply grid_alter_shape.
Qed.

Lemma process_queued_data_shape running heading g queue :
  grid_shape g ->
  grid_shape (fst (process_queued_data rnd fl sin_deg cos_deg running heading g queue)).
Proof.
  intros Hg. unfold process_queued_data.
  destruct queue as [|p1 [|p2 rest]]; cbn [fst].
  - destruct running; [now apply decay_grid_shape | exact Hg].
  - now apply update_occupancy_grid_shape.
  - now do 2 apply update_occupancy_grid_shape.
Qed.

(** Behind the bounds check every read of the array finds a cell. *)
Lemma grid_get_in_bounds g r c :
  grid_shape g -> in_bounds r c = true -> is_Some (grid_get g r c).
Proof.
  unfold grid_shape, in_bounds, grid_get. intros [Hl Hr] Hb.
  apply andb_prop in Hb as [Hb Hc2]. apply andb_prop in Hb as [Hb Hc1].
  apply andb_prop in Hb as [Hr1 Hr2].
  apply Z.leb_le in Hr1, Hc1. apply Z.ltb_lt in Hr2, Hc2.
  destruct (lookup_lt_is_Some_2 g (Z.to_nat r)) as [row Hrow]; [lia|].
  rewrite Hrow. cbn. apply lookup_lt_is_Some_2.
  rewrite Forall_forall in Hr. rewrite (Hr row); [lia|].
  now apply list_elem_of_lookup_2 in Hrow.
Qed.

Lemma reachable_grid_shape net v :
  Nav.reachable rnd fl sin_deg cos_deg net v -> grid_shape (Nav.occupancy_grid v).
Proof.
  induction 1 as [|e v Hv IH]; [exact zeros_shape|].
  destruct (GridFacts.handle_grid rnd fl sin_deg cos_deg net e v) as [-> | [-> | ->]].
  - exact IH.
  - exact zeros_shape.
  - now apply process_queued_data_shape.
Qed.

End Shape.

End ShapeFacts.
(** ** The text of a scan packet *)

Module WireFacts.

Import Ascii Wire.

Lemma py_split_nonempty sep s : py_split sep s <> [].
Proof.
  destruct s as [|ch rest]; cbn [py_split]; [discriminate|].
  destruct (Ascii.eqb ch sep); [discriminate|]. now destruct (py_split sep rest).
Qed.

Lemma py_split_free sep s : free_of sep s = true -> py_split sep s = [s].
Proof.
  induction s as [|ch rest IH]; cbn [py_split free_of]; [reflexivity|].
  intros H. apply andb_prop in H as [H1 H2]. apply negb_true_iff in H1.
  rewrite H1, (IH H2). reflexivity.
Qed.

Lemma py_split_app sep a b :
  free_of sep a = true -> py_split sep (a ++ String sep b) = a :: py_split sep b.
Proof.
  induction a as [|ch rest IH].
  - intros _. change (py_split sep (String sep b) = EmptyString :: py_split sep b).
    cbn [py_split]. now rewrite Ascii.eqb_refl.
  - intros H. cbn [free_of] in H. apply andb_prop in H as [H1 H2].
    apply negb_true_iff in H1.
    change (py_split sep (String ch (rest ++ String sep b))
            = String ch rest :: py_split sep b).
    cbn [py_split]. rewrite H1, (IH H2). reflexivity.
Qed.

Lemma py_split_join sep parts :
  parts <> [] -> Forall (fun p => free_of sep p = true) parts ->
  py_split sep (py_join sep parts) = parts.
Proof.
  induction parts as [|p [|q rest] IH]; intros Hne Hfree; [congruence | |].
  - cbn. apply py_split_free. now inversion Hfree.
  - change (py_join sep (p :: q :: rest))
      with (p ++ String sep (py_join sep (q :: rest)))%string.
    inversion Hfree as [|? ? Hp Hrest]; subst.
    rewrite py_split_app by exact Hp. f_equal. apply IH; [discriminate | exact Hrest].
Qed.

Lemma py_join_split sep s : py_join sep (py_split sep s) = s.
Proof.
  induction s as [|ch rest IH]; cbn [py_split]; [reflexivity|].
  destruct (Ascii.eqb ch sep) eqn:E.
  - apply Ascii.eqb_eq in E. subst ch.
    pose proof (py_split_nonempty sep rest) as Hne.
    destruct (py_split sep rest) as [|f fs]; [congruence|].
    change (py_join sep (EmptyString :: f :: fs))
      with (String sep (py_join sep (f :: fs))).
    now rewrite IH.
  - pose proof (py_split_nonempty sep rest) as Hne.
    destruct (py_split sep rest) as [|f [|f' fs]]; [congruence | |].
    + cbn in *. now rewrite IH.
    + change (py_join sep (String ch f :: f' :: fs))
        with (String ch (f ++ String sep (py_join sep (f' :: fs))))%string.
      change (py_join sep (f :: f' :: fs))
        with (f ++ String sep (py_join sep (f' :: fs)))%string in IH.
      now rewrite IH.
Qed.

Lemma length_py_split sep s : length (py_split sep s) = S (py_count sep s).
Proof.
  induction s as [|ch rest IH]; cbn [py_split py_count]; [reflexivity|].
  pose proof (py_split_nonempty sep rest) as Hne.
  destruct (Ascii.eqb ch sep); cbn [length Nat.add].
  - now rewrite IH.
  - destruct (py_split sep rest); [congruence | exact IH].
Qed.

Lemma py_split_fields_free sep s : Forall (fun p => free_of sep p = true) (py_split sep s).
Proof.
  induction s as [|ch rest IH]; cbn [py_split]; [now repeat constructor|].
  pose proof (py_split_nonempty sep rest) as Hne.
  destruct (Ascii.eqb ch sep) eqn:E.
  - constructor; [reflexivity | exact IH].
  - destruct (py_split sep rest) as [|f fs]; [congruence|].
    inversion IH; subst. constructor; [|assumption]. cbn [free_of]. now rewrite E.
Qed.

Section Parse.

Variable py_float : string -> option Q.
Variable rnd : Q -> Q.
Variables fl sin_deg cos_deg : Q -> Q.

Lemma length_parse_packet s : length (parse_packet py_float s) = points_in_last_scan s.
Proof.
  destruct s as [|ch rest]; [reflexivity|].
  unfold parse_packet, points_in_last_scan. rewrite length_map, length_py_split. lia.
Qed.

(** The text of a packet is integrated as the list of its points. *)
Lemma update_occupancy_grid_str_parse heading g s :
  update_occupancy_grid_str py_float rnd fl sin_deg cos_deg heading g s
  = update_occupancy_grid rnd fl sin_deg cos_deg heading g (parse_packet py_float s).
Proof.
  unfold update_occupancy_grid_str, update_occupancy_grid, parse_packet. cbv zeta.
  destruct s as [|ch rest]; [reflexivity|].
  generalize (py_split ";" (String ch rest)), (decay_grid rnd g).
  intros fields. induction fields as [|f fs IH]; intros g0; [reflexivity|].
  cbn [map fold_left]. apply IH.
Qed.

Lemma fold_integrate_skips heading fields g :
  fold_left (integrate_point rnd fl sin_deg cos_deg heading) (map (parse_point py_float) fields) g
  = fold_left (integrate_point rnd fl sin_deg cos_deg heading)
      (map (parse_point py_float) (List.filter (parses py_float) fields)) g.
Proof.
  revert g. induction fields as [|f fs IH]; intros g; [reflexivity|].
  cbn [map fold_left List.filter]. unfold parses at 1.
  destruct (parse_point py_float f) eqn:E.
  - rewrite <- IH. reflexivity.
  - cbn [map fold_left]. rewrite E. apply IH.
Qed.

Lemma parse_packet_join fields :
  Forall (fun p => free_of ";" p = true) fields ->
  forall heading g,
  update_occupancy_grid rnd fl sin_deg cos_deg heading g (parse_packet py_float (py_join ";" fields))
  = fold_left (integrate_point rnd fl sin_deg cos_deg heading)
      (map (parse_point py_float) fields) (decay_grid rnd g).
Proof.
  intros Hfree heading g. unfold update_occupancy_grid, parse_packet.
  destruct fields as [|f fs]; [reflexivity|].
  destruct (py_join ";" (f :: fs)) as [|ch rest] eqn:E.
  - (* the text is empty: one empty field *)
    destruct fs as [|f' fs']; cbn in E.
    + subst f. reflexivity.
    + destruct f; discriminate E.
  - rewrite <- E, py_split_join; [reflexivity | discriminate | exact Hfree].
Qed.

End Parse.

End WireFacts.
(** ** The UDP streamer *)

Module StreamFacts.

Import Ascii Wire CarControl.

Local Open Scope Q_scope.

Lemma py_min_cap d : 0 < d -> 0 < py_min d UDP_MAX_DISTANCE_FOR_SEND /\
                              py_min d UDP_MAX_DISTANCE_FOR_SEND <= UDP_MAX_DISTANCE_FOR_SEND.
Proof.
  intros Hd. unfold py_min, UDP_MAX_DISTANCE_FOR_SEND.
  destruct (Qlt_le_dec 4000 d); split; lra.
Qed.

Lemma points_to_send_spec raw p :
  p ∈ points_to_send raw <->
  exists quality dist_mm,
    (quality, p.1, dist_mm) ∈ raw /\ (UDP_MIN_QUALITY_FOR_SEND <= quality)%Z /\ 0 < dist_mm /\
    p.2 = py_min dist_mm UDP_MAX_DISTANCE_FOR_SEND.
Proof.
  unfold points_to_send. rewrite list_elem_of_In, in_flat_map. split.
  - intros ([[quality angle] dist] & Hin & Hp). apply list_elem_of_In in Hin.
    destruct (_ && _) eqn:E; [|destruct Hp].
    destruct Hp as [<- | []]. apply andb_prop in E as [Eq Ed].
    apply Z.leb_le in Eq. unfold Qltb in Ed. destruct (Qlt_le_dec 0 dist); [|discriminate].
    exists quality, dist. cbn [fst snd]. tauto.
  - intros (quality & dist & Hin & Hq & Hd & Hp). exists (quality, p.1, dist).
    split; [now apply list_elem_of_In|].
    apply Z.leb_le in Hq. rewrite Hq. unfold Qltb.
    destruct (Qlt_le_dec 0 dist); [|lra]. cbn [andb]. left.
    destruct p as [a d]. cbn [fst snd] in *. now subst.
Qed.

Lemma selected_points_spec raw :
  (length (selected_points raw) <= UDP_MAX_POINTS_TO_SEND)%nat /\
  Forall (fun p =>
            0 < p.2 /\ p.2 <= UDP_MAX_DISTANCE_FOR_SEND /\
            exists quality dist_mm,
              (quality, p.1, dist_mm) ∈ raw /\ (UDP_MIN_QUALITY_FOR_SEND <= quality)%Z /\
              0 < dist_mm /\ p.2 = py_min dist_mm UDP_MAX_DISTANCE_FOR_SEND)
         (selected_points raw).
Proof.
  unfold selected_points. split; [rewrite length_take; lia|].
  apply Forall_forall. intros p Hp. apply elem_of_take in Hp as (i & Hp & _).
  apply list_elem_of_lookup_2 in Hp. apply points_to_send_spec in Hp.
  destruct Hp as (quality & dist & Hin & Hq & Hd & Hp).
  destruct (py_min_cap dist Hd) as [H1 H2]. rewrite Hp.
  split; [exact H1|]. split; [exact H2|]. now exists quality, dist.
Qed.

(** The range test of the viewer lets a distance of the streamer pass. *)
Lemma classify_point_in_range fl sin_deg cos_deg heading a d :
  0 < d -> d <= MAX_LIDAR_RANGE_MM_DISPLAY ->
  classify_point fl sin_deg cos_deg heading (Reading a d) <> RejectedRange.
Proof.
  intros H1 H2. unfold classify_point, Qltb.
  destruct (Qlt_le_dec 0 d); [|lra].
  destruct (Qlt_le_dec MAX_LIDAR_RANGE_MM_DISPLAY d); [lra|]. cbn [andb negb].
  destruct (polar_to_cartesian_map_frame _ _ _ _ _). now destruct (in_bounds _ _).
Qed.

(** The whole number a streamed distance is written as: between 0 and
    4000, and 0 exactly for a distance of at most a half. *)
Lemma round_half_even_streamed d :
  0 < d -> d <= UDP_MAX_DISTANCE_FOR_SEND ->
  (0 <= round_half_even d <= 4000)%Z /\ (round_half_even d = 0%Z <-> d <= 1 # 2).
Proof.
  unfold UDP_MAX_DISTANCE_FOR_SEND. intros Hpos Hmax.
  pose proof (Qfloor_le d) as Hlo. pose proof (Qlt_floor d) as Hhi.
  rewrite inject_Z_plus in Hhi. change (inject_Z 1) with 1 in Hhi.
  assert (Hf0 : (0 <= Qfloor d)%Z).
  { change 0%Z with (Qfloor 0). apply Qfloor_resp_le. now apply Qlt_le_weak. }
  assert (Hf1 : (Qfloor d <= 4000)%Z).
  { change 4000%Z with (Qfloor 4000). now apply Qfloor_resp_le. }
  assert (Hz : forall z : Z, (1 <= z)%Z -> 1 <= inject_Z z).
  { intros z Hz. change 1 with (inject_Z 1). now rewrite <- Zle_Qle. }
  assert (Htop : Qfloor d = 4000%Z -> d - inject_Z (Qfloor d) < 1 # 2).
  { intros E. rewrite E in *. change (inject_Z 4000) with 4000 in *. lra. }
  unfold round_half_even. cbv zeta.
  destruct (Qcompare (d - inject_Z (Qfloor d)) (1 # 2)) eqn:Ec.
  - apply Qeq_alt in Ec.
    assert (Hne : Qfloor d <> 4000%Z) by (intros E; apply Htop in E; lra).
    destruct (Z.even (Qfloor d)) eqn:Ee.
    + split; [lia|]. split.
      * intros E. rewrite E in Ec. change (inject_Z 0) with 0 in Ec. lra.
      * intros Hd. destruct (Z.eq_dec (Qfloor d) 0%Z) as [E | E]; [exact E|].
        specialize (Hz (Qfloor d) ltac:(lia)). lra.
    + split; [lia|]. split; [lia|].
      intros Hd. destruct (Z.eq_dec (Qfloor d) 0%Z) as [E | E].
      * rewrite E in Ee. discriminate Ee.
      * specialize (Hz (Qfloor d) ltac:(lia)). lra.
  - apply Qlt_alt in Ec. split; [lia|]. split.
    + intros E. rewrite E in Ec. change (inject_Z 0) with 0 in Ec. lra.
    + intros Hd. destruct (Z.eq_dec (Qfloor d) 0%Z) as [E | E]; [exact E|].
      specialize (Hz (Qfloor d) ltac:(lia)). lra.
  - apply Qgt_alt in Ec.
    assert (Hne : Qfloor d <> 4000%Z) by (intros E; apply Htop in E; lra).
    split; [lia|]. split; [lia|].
    intros Hd. destruct (Z.eq_dec (Qfloor d) 0%Z) as [E | E].
    + rewrite E in Ec. change (inject_Z 0) with 0 in Ec. lra.
    + specialize (Hz (Qfloor d) ltac:(lia)). lra.
Qed.

Lemma free_of_app ch a b : free_of ch (a ++ b) = free_of ch a && free_of ch b.
Proof.
  induction a as [|c rest IH]; [reflexivity|].
  change (free_of ch (String c (rest ++ b)) = free_of ch (String c rest) && free_of ch b).
  cbn [free_of]. now rewrite IH, andb_assoc.
Qed.

Section Text.

Variable py_float : string -> option Q.
Variables format_1f format_0f : Q -> string.

Local Abbreviation field := (StreamSpec.point_field format_1f format_0f).

Lemma parse_point_field p :
  StreamSpec.clean_fields format_1f format_0f p ->
  parse_point py_float (field p) = StreamSpec.read_back py_float format_1f format_0f p.
Proof.
  intros (_ & Ha & _ & Hd). unfold parse_point, StreamSpec.point_field, StreamSpec.read_back.
  rewrite (WireFacts.py_split_app "," _ _ Ha).
  rewrite (WireFacts.py_split_free _ _ Hd). reflexivity.
Qed.

Lemma field_free p :
  StreamSpec.clean_fields format_1f format_0f p -> free_of ";" (field p) = true.
Proof.
  intros (Ha & _ & Hd & _). unfold StreamSpec.point_field. rewrite free_of_app, Ha.
  cbn [free_of andb]. rewrite Hd. reflexivity.
Qed.

Lemma field_not_empty p : field p <> EmptyString.
Proof. unfold StreamSpec.point_field. now destruct (format_1f p.1). Qed.

Lemma parse_msg_payload selected :
  Forall (StreamSpec.clean_fields format_1f format_0f) selected ->
  parse_packet py_float (msg_payload format_1f format_0f selected)
  = map (StreamSpec.read_back py_float format_1f format_0f) selected.
Proof.
  intros Hclean. unfold msg_payload.
  change (fun p : Q * Q => (format_1f p.1 ++ String "," (format_0f p.2))%string) with field.
  destruct selected as [|p rest]; [reflexivity|].
  assert (Hsplit : py_split ";" (py_join ";" (map field (p :: rest))) = map field (p :: rest)).
  { apply WireFacts.py_split_join; [discriminate|].
    apply Forall_forall. intros f Hf. apply list_elem_of_In, in_map_iff in Hf.
    destruct Hf as (p0 & <- & Hin). apply field_free.
    rewrite Forall_forall in Hclean. apply Hclean. now apply list_elem_of_In. }
  unfold parse_packet. destruct (py_join ";" (map field (p :: rest))) as [|ch text] eqn:E.
  - cbn in Hsplit. injection Hsplit as H _. symmetry in H. now apply field_not_empty in H.
  - rewrite Hsplit, map_map. apply map_ext_in. intros p0 Hin.
    apply parse_point_field. rewrite Forall_forall in Hclean. apply Hclean.
    now apply list_elem_of_In.
Qed.

End Text.

End StreamFacts.
(** ** Scan processing of the robot *)

Module ScanFacts.

Import CarControl CarSpec.

Lemma slice_from_lookup {A : Type} (step skip : nat) (l : list A) (i : nat) :
  (1 <= step)%nat ->
  slice_from step skip l !! i = l !! (skip + i * step)%nat.
Proof.
  intros Hstep. revert skip i. induction l as [|x rest IH]; intros skip i.
  - cbn. now rewrite !lookup_nil.
  - destruct skip as [|skip]; cbn [slice_from].
    + destruct i as [|i]; [reflexivity|].
      cbn [lookup list_lookup]. rewrite IH.
      replace (0 + S i * step)%nat with (S (step - 1 + i * step)) by lia. reflexivity.
    + rewrite IH. reflexivity.
Qed.

Section Scan.

Variables fl radians : Q -> Q.

Local Abbreviation lists_ok := (CarSpec.lists_ok fl radians).

Lemma chained_snoc obj a b :
  chained fl (obj ++ [a]) -> angularly_close fl a.1.2 b.1.2 = true ->
  chained fl ((obj ++ [a]) ++ [b]).
Proof.
  induction obj as [|x rest IH]; intros Hc Hab.
  - cbn. tauto.
  - cbn [app chained] in *. destruct Hc as [Hx Hrest]. split; [|now apply IH].
    destruct rest; exact Hx.
Qed.

(** Closing the buffer adds it to the groups, and to the objects when it
    is big enough. *)
Lemma close_object_groups groups buffer :
  close_object (List.filter big_enough groups) buffer
  = List.filter big_enough (groups ++ [buffer]).
Proof.
  rewrite List.filter_app. unfold close_object. cbn [List.filter]. unfold big_enough.
  destruct (MIN_OBJECT_SIZE_POINTS <=? length buffer)%nat; [reflexivity|].
  now rewrite app_nil_r.
Qed.

Lemma concat_snoc {A : Type} (groups : list (list A)) (group : list A) :
  concat (groups ++ [group]) = concat groups ++ group.
Proof. rewrite concat_app. cbn [concat]. now rewrite app_nil_r. Qed.

Lemma scan_point_ok seen groups l m :
  lists_ok seen groups l ->
  exists groups', lists_ok (seen ++ [m]) groups' (scan_point fl radians l m).
Proof.
  intros [Ha Hd Hdet Hpts Hgr Hch]. destruct m as [[q raw_angle] dist].
  assert (Hf : List.filter kept (seen ++ [(q, raw_angle, dist)])
               = List.filter kept seen ++ (if usable q dist then [(q, raw_angle, dist)] else [])).
  { rewrite List.filter_app. reflexivity. }
  unfold scan_point. destruct (usable q dist) eqn:Eu; cbn [negb].
  - assert (Hang : proc_angles_rad_list l
                   ++ [radians (float_mod fl (fl (raw_angle + LIDAR_ANGLE_OFFSET_DEG)%Q) 360)]
                   = map (fun m => radians (offset_angle fl m))
                       (List.filter kept (seen ++ [(q, raw_angle, dist)])))
      by now rewrite Hf, map_app, Ha.
    assert (Hdist : proc_dists_mm_list l ++ [dist]
                    = map (fun m : measurement => m.2)
                        (List.filter kept (seen ++ [(q, raw_angle, dist)])))
      by now rewrite Hf, map_app, Hd.
    assert (Hnew : map (in_robot_frame fl) (List.filter kept (seen ++ [(q, raw_angle, dist)]))
                   = (concat groups ++ current_obj_buffer l)
                     ++ [(q, float_mod fl (fl (raw_angle + LIDAR_ANGLE_OFFSET_DEG)%Q) 360, dist)])
      by now rewrite Hf, map_app, Hpts.
    assert (Hopen : lists_ok (seen ++ [(q, raw_angle, dist)])
                      (groups ++ [current_obj_buffer l])
                      (mkLists
                         (proc_angles_rad_list l
                          ++ [radians (float_mod fl (fl (raw_angle + LIDAR_ANGLE_OFFSET_DEG)%Q)
                                         360)])
                         (proc_dists_mm_list l ++ [dist])
                         (close_object (detected_obj_list l) (current_obj_buffer l))
                         [(q, float_mod fl (fl (raw_angle + LIDAR_ANGLE_OFFSET_DEG)%Q) 360,
                           dist)])).
    { split; cbn [proc_angles_rad_list proc_dists_mm_list detected_obj_list
                  current_obj_buffer]; [exact Hang | exact Hdist | | | |].
      - rewrite Hdet. apply close_object_groups.
      - now rewrite concat_snoc, Hnew.
      - apply Forall_app. split; [exact Hgr | now apply Forall_singleton].
      - cbn. tauto. }
    destruct (last (current_obj_buffer l)) as [[[q0 a0] d0]|] eqn:El.
    + destruct (angularly_close fl a0 _) eqn:Ec.
      * exists groups.
        split; cbn [proc_angles_rad_list proc_dists_mm_list detected_obj_list
                    current_obj_buffer]; [exact Hang | exact Hdist | exact Hdet | | exact Hgr |].
        -- now rewrite Hnew, app_assoc.
        -- apply last_Some in El as [front El]. rewrite El in *.
           now apply chained_snoc.
      * now exists (groups ++ [current_obj_buffer l]).
    + now exists (groups ++ [current_obj_buffer l]).
  - exists (groups ++ [current_obj_buffer l]).
    split; cbn [proc_angles_rad_list proc_dists_mm_list detected_obj_list
                current_obj_buffer].
    + now rewrite Hf, app_nil_r.
    + now rewrite Hf, app_nil_r.
    + rewrite Hdet. apply close_object_groups.
    + now rewrite concat_snoc, Hf, !app_nil_r.
    + apply Forall_app. split; [exact Hgr | now apply Forall_singleton].
    + exact I.
Qed.

Lemma scan_points_ok pts seen groups l :
  lists_ok seen groups l ->
  exists groups', lists_ok (seen ++ pts) groups' (fold_left (scan_point fl radians) pts l).
Proof.
  revert seen groups l. induction pts as [|m rest IH]; intros seen groups l Hl.
  - exists groups. now rewrite app_nil_r.
  - cbn [fold_left]. replace (seen ++ m :: rest) with ((seen ++ [m]) ++ rest)
      by now rewrite <- app_assoc.
    destruct (scan_point_ok seen groups l m Hl) as [groups1 H1].
    exact (IH _ _ _ H1).
Qed.

(** The kept points split into consecutive chained groups, and the objects
    are the groups that are big enough. *)
Lemma process_raw_scan_ok raw :
  let pts := slice_step SCAN_POINT_SUBSAMPLE_RATIO raw in
  let '(objects, a, d) := process_raw_scan_to_points_objects fl radians raw in
  a = map (fun m => radians (offset_angle fl m)) (List.filter kept pts) /\
  d = map (fun m : measurement => m.2) (List.filter kept pts) /\
  exists groups,
    concat groups = map (in_robot_frame fl) (List.filter kept pts) /\
    Forall (chained fl) groups /\
    objects = List.filter big_enough groups.
Proof.
  unfold process_raw_scan_to_points_objects. cbv zeta.
  change (1 <? SCAN_POINT_SUBSAMPLE_RATIO)%nat with true. cbv iota.
  assert (H0 : lists_ok [] [] (mkLists [] [] [] [])) by (split; cbn; auto).
  destruct (scan_points_ok (slice_step SCAN_POINT_SUBSAMPLE_RATIO raw) [] [] _ H0)
    as [groups H].
  cbn [app] in H. destruct H as [Ha Hd Hdet Hpts Hgr Hch].
  split; [exact Ha|]. split; [exact Hd|].
  exists (groups ++ [current_obj_buffer
                       (fold_left (scan_point fl radians)
                          (slice_step SCAN_POINT_SUBSAMPLE_RATIO raw) (mkLists [] [] [] []))]).
  split; [now rewrite concat_snoc|]. split.
  - apply Forall_app. split; [exact Hgr | now apply Forall_singleton].
  - rewrite Hdet. apply close_object_groups.
Qed.

(** A big group of kept points is a cluster. *)
Lemma groups_are_clusters groups pts :
  concat groups = map (in_robot_frame fl) (List.filter kept pts) ->
  Forall (chained fl) groups ->
  Forall (is_cluster fl) (List.filter big_enough groups).
Proof.
  intros Hcat Hgr. apply Forall_forall. intros obj Hobj.
  apply list_elem_of_In, filter_In in Hobj as [Hin Hbig].
  split; [now apply Nat.leb_le in Hbig|]. split.
  - apply Forall_forall. intros m Hm.
    assert (Hc : m ∈ concat groups).
    { apply list_elem_of_In, in_concat. exists obj. split; [exact Hin|].
      now apply list_elem_of_In. }
    rewrite Hcat in Hc. apply list_elem_of_In, in_map_iff in Hc as (m0 & <- & Hm0).
    apply filter_In in Hm0 as [_ Hk]. exact Hk.
  - rewrite Forall_forall in Hgr. apply Hgr. now apply list_elem_of_In.
Qed.

End Scan.

Section Detect.

Variables fl degrees : Q -> Q.

Local Abbreviation detect_ok := (CarSpec.detect_ok fl degrees).

Lemma detect_point_ok seen acc p :
  detect_ok seen acc -> detect_ok (seen ++ [p]) (detect_point fl degrees acc p).
Proof.
  destruct p as [a d]. unfold detect_point, CarSpec.detect_ok.
  change (is_in_front_cone (float_mod fl (degrees a) 360) && within_stop_distance d)
    with (in_the_way fl degrees (a, d)).
  destruct acc as [[closest|] [det|]]; try tauto; cbn [fst].
  - intros (Hc & Hp & pre & a0 & post & Hseen & Hway & Hang & Hpre & Hpost). subst closest.
    destruct (in_the_way fl degrees (a, d)) eqn:Ew.
    + unfold Qltb. destruct (Qlt_le_dec d (avg_dist det)) as [Hlt | Hle].
      * cbn [avg_dist avg_angle points]. split; [reflexivity|]. split; [reflexivity|].
        exists seen, a, []. split; [reflexivity|]. split; [exact Ew|].
        split; [reflexivity|]. split; [|constructor].
        rewrite Hseen. apply Forall_app. split; [|constructor].
        -- eapply Forall_impl; [exact Hpre|]. cbn. intros p Hq Hw.
           specialize (Hq Hw). eapply Qlt_trans; eassumption.
        -- intros _. exact Hlt.
        -- eapply Forall_impl; [exact Hpost|]. cbn. intros p Hq Hw.
           specialize (Hq Hw). eapply Qlt_le_trans; eassumption.
      * split; [reflexivity|]. split; [exact Hp|].
        exists pre, a0, (post ++ [(a, d)]). split; [now rewrite Hseen, <- app_assoc|].
        split; [exact Hway|]. split; [exact Hang|]. split; [exact Hpre|].
        apply Forall_app. split; [exact Hpost|]. apply Forall_singleton. now intros _.
    + split; [reflexivity|]. split; [exact Hp|].
      exists pre, a0, (post ++ [(a, d)]). split; [now rewrite Hseen, <- app_assoc|].
      split; [exact Hway|]. split; [exact Hang|]. split; [exact Hpre|].
      apply Forall_app. split; [exact Hpost|]. apply Forall_singleton. congruence.
  - intros Hnone. destruct (in_the_way fl degrees (a, d)) eqn:Ew.
    + cbn [avg_dist avg_angle points]. split; [reflexivity|]. split; [reflexivity|].
      exists seen, a, []. split; [reflexivity|]. split; [exact Ew|].
      split; [reflexivity|]. split; [|constructor].
      eapply Forall_impl; [exact Hnone|]. cbn. congruence.
    + apply Forall_app. split; [exact Hnone | now apply Forall_singleton].
Qed.

Lemma detect_points_ok pts seen acc :
  detect_ok seen acc ->
  detect_ok (seen ++ pts) (fold_left (detect_point fl degrees) pts acc).
Proof.
  revert seen acc. induction pts as [|p rest IH]; intros seen acc Hacc.
  - now rewrite app_nil_r.
  - cbn [fold_left]. replace (seen ++ p :: rest) with ((seen ++ [p]) ++ rest)
      by now rewrite <- app_assoc.
    apply IH. now apply detect_point_ok.
Qed.

End Detect.

End ScanFacts.
(** ** The obstacle lock *)

Module LockFacts.

Import CarControl LockSpec.

Lemma lock_protocol_snoc locked previous log command :
  lock_protocol locked previous (log ++ [command])
  = lock_protocol locked previous log &&
    lock_allows (fold_left lock_after log locked) (List.last log previous) command.
Proof.
  revert locked previous. induction log as [|c rest IH]; intros locked previous.
  - cbn [app lock_protocol fold_left List.last]. unfold lock_allows.
    now rewrite andb_true_r.
  - cbn [app lock_protocol fold_left].
    rewrite IH, andb_assoc, PathFacts.last_cons_default. reflexivity.
Qed.

(** What the protocol says of a command in the middle of the log. *)
Lemma lock_protocol_middle locked previous pre command post :
  lock_protocol locked previous (pre ++ command :: post) = true ->
  lock_allows (fold_left lock_after pre locked) (List.last pre previous) command = true.
Proof.
  revert locked previous. induction pre as [|c rest IH]; intros locked previous H.
  - cbn [app lock_protocol] in H. apply andb_prop in H as [H _]. exact H.
  - cbn [app lock_protocol] in H. apply andb_prop in H as [_ H].
    cbn [fold_left]. rewrite PathFacts.last_cons_default. now apply IH.
Qed.

Lemma lock_state_snoc log command :
  lock_state (log ++ [command]) = lock_after (lock_state log) command.
Proof. unfold lock_state. now rewrite fold_left_app. Qed.

(** A command that is neither F, K nor U keeps the invariant. *)
Lemma send_plain_inv command s :
  String.eqb command "F" = false -> String.eqb command "K" = false ->
  String.eqb command "U" = false ->
  lock_inv s -> lock_inv (send_command command s).
Proof.
  intros HF HK HU [Hp Hl]. unfold lock_inv, send_command. cbn [commands_sent car_locked].
  rewrite lock_protocol_snoc, lock_state_snoc, Hp. unfold lock_allows, lock_after.
  rewrite HF, HK, HU. now split.
Qed.

Lemma lock_allows_forward locked previous :
  lock_allows locked previous "F" = negb locked.
Proof. reflexivity. Qed.

Lemma lock_allows_lock locked previous :
  lock_allows locked previous "K" = negb locked && String.eqb previous "S".
Proof. reflexivity. Qed.

Lemma lock_allows_unlock locked previous : lock_allows locked previous "U" = locked.
Proof. reflexivity. Qed.

Lemma send_forward_inv s :
  car_locked s = false -> lock_inv s -> lock_inv (send_command "F" s).
Proof.
  intros Hu [Hp Hl]. unfold lock_inv, send_command. cbn [commands_sent car_locked].
  rewrite lock_protocol_snoc, lock_state_snoc, Hp, lock_allows_forward.
  fold (lock_state (commands_sent s)). rewrite <- Hl, Hu. now split.
Qed.

Lemma manage_autonomous_maneuver_inv s :
  lock_inv s -> lock_inv (manage_autonomous_maneuver s).
Proof.
  intros Hs. pose proof Hs as [Hp Hl]. unfold manage_autonomous_maneuver.
  destruct (any_object_in_front_details s) as [det|]; destruct (car_locked s) eqn:El;
    cbn [negb]; try exact Hs.
  - unfold lock_inv, set_car_locked, send_command. cbv zeta.
    cbn [commands_sent car_locked].
    rewrite !lock_protocol_snoc, !lock_state_snoc, Hp, lock_allows_lock.
    rewrite fold_left_app, last_last. cbn [fold_left].
    fold (lock_state (commands_sent s)). rewrite <- Hl. now split.
  - unfold lock_inv, set_car_locked, send_command. cbv zeta.
    cbn [commands_sent car_locked].
    rewrite lock_protocol_snoc, lock_state_snoc, Hp, lock_allows_unlock.
    fold (lock_state (commands_sent s)). rewrite <- Hl. now split.
Qed.

(** *** The part of the protocol that holds with [exit_app] *)

Lemma forward_protocol_snoc locked previous log command :
  forward_protocol locked previous (log ++ [command])
  = forward_protocol locked previous log &&
    forward_allows (fold_left lock_after log locked) (List.last log previous) command.
Proof.
  revert locked previous. induction log as [|c rest IH]; intros locked previous.
  - cbn [app forward_protocol fold_left List.last]. now rewrite andb_true_r.
  - cbn [app forward_protocol fold_left].
    rewrite IH, andb_assoc, PathFacts.last_cons_default. reflexivity.
Qed.

Lemma forward_protocol_middle locked previous pre command post :
  forward_protocol locked previous (pre ++ command :: post) = true ->
  forward_allows (fold_left lock_after pre locked) (List.last pre previous) command = true.
Proof.
  revert locked previous. induction pre as [|c rest IH]; intros locked previous H.
  - cbn [app forward_protocol] in H. apply andb_prop in H as [H _]. exact H.
  - cbn [app forward_protocol] in H. apply andb_prop in H as [_ H].
    cbn [fold_left]. rewrite PathFacts.last_cons_default. now apply IH.
Qed.

Lemma false_of_not_true b : (b = true -> false = true) -> b = false.
Proof. destruct b; [intros H; symmetry; now apply H | reflexivity]. Qed.

(** A command that is neither F, K nor U. *)
Lemma send_plain_forward_inv command s :
  String.eqb command "F" = false -> String.eqb command "K" = false ->
  String.eqb command "U" = false ->
  forward_inv s -> forward_inv (send_command command s).
Proof.
  intros HF HK HU [Hp Hl]. unfold forward_inv, send_command.
  cbn [commands_sent car_locked].
  rewrite forward_protocol_snoc, lock_state_snoc, Hp. unfold forward_allows, lock_after.
  rewrite HF, HK, HU. now split.
Qed.

(** The unlock may be sent at any time. *)
Lemma send_unlock_forward_inv s : forward_inv s -> forward_inv (send_command "U" s).
Proof.
  intros [Hp Hl]. unfold forward_inv, send_command. cbn [commands_sent car_locked].
  rewrite forward_protocol_snoc, lock_state_snoc, Hp. split; [reflexivity|].
  unfold lock_after. cbn. discriminate.
Qed.

Lemma send_forward_forward_inv s :
  car_locked s = false -> forward_inv s -> forward_inv (send_command "F" s).
Proof.
  intros Hu [Hp Hl]. unfold forward_inv, send_command. cbn [commands_sent car_locked].
  rewrite forward_protocol_snoc, lock_state_snoc, Hp.
  fold (lock_state (commands_sent s)).
  rewrite (false_of_not_true (lock_state (commands_sent s))) by (rewrite <- Hu; exact Hl).
  split; [reflexivity | cbn; discriminate].
Qed.

Lemma manage_autonomous_maneuver_forward_inv s :
  forward_inv s -> forward_inv (manage_autonomous_maneuver s).
Proof.
  intros Hs. pose proof Hs as [Hp Hl]. unfold manage_autonomous_maneuver.
  destruct (any_object_in_front_details s) as [det|]; destruct (car_locked s) eqn:El;
    cbn [negb]; try exact Hs.
  - unfold forward_inv, set_car_locked, send_command. cbv zeta.
    cbn [commands_sent car_locked].
    rewrite !forward_protocol_snoc, !lock_state_snoc, Hp.
    rewrite fold_left_app, last_last. cbn [fold_left].
    fold (lock_state (commands_sent s)).
    rewrite (false_of_not_true (lock_state (commands_sent s))) by exact Hl.
    now split.
  - unfold forward_inv, set_car_locked. cbv zeta.
    pose proof (send_unlock_forward_inv s Hs) as [Hp' Hl'].
    cbn [commands_sent car_locked]. split; [exact Hp'|].
    unfold send_command. cbn [commands_sent]. rewrite lock_state_snoc. cbn. discriminate.
Qed.

Lemma exit_app_forward_inv s : forward_inv s -> forward_inv (exit_app s).
Proof.
  intros Hs. unfold exit_app. cbv zeta.
  assert (H1 : forward_inv (send_command "S" s)) by now apply send_plain_forward_inv.
  exact (send_unlock_forward_inv _ H1).
Qed.

(** What [exit_app] does to the commands and to the lock. *)
Lemma exit_app_commands s :
  commands_sent (exit_app s) = commands_sent s ++ ["S"; "U"]%string /\
  car_locked (exit_app s) = car_locked s /\
  lock_state (commands_sent (exit_app s)) = false.
Proof.
  unfold exit_app, set_udp_socket, send_command. cbv zeta. cbn [commands_sent car_locked].
  rewrite <- app_assoc. cbn [app]. split; [reflexivity|]. split; [reflexivity|].
  unfold lock_state. rewrite fold_left_app. reflexivity.
Qed.

Section Machine.

Variable fl : Q -> Q.
Variables format_1f format_0f : Q -> string.
Variables radians degrees : Q -> Q.

Lemma send_lidar_data_udp_commands current_time raw s :
  commands_sent (send_lidar_data_udp fl format_1f format_0f current_time raw s)
  = commands_sent s /\
  car_locked (send_lidar_data_udp fl format_1f format_0f current_time raw s) = car_locked s.
Proof.
  unfold send_lidar_data_udp.
  destruct (negb _ || negb _); [now split|].
  destruct (Qltb _ _); [now split|].
  destruct (points_to_send raw); now split.
Qed.

(** The scan iteration changes the commands and the lock as
    [manage_autonomous_maneuver] does on the detection of the scan. *)
Lemma scan_iteration_commands current_time raw s :
  exists s1,
    commands_sent s1 = commands_sent s /\ car_locked s1 = car_locked s /\
    commands_sent (scan_iteration fl format_1f format_0f radians degrees current_time raw s)
    = commands_sent (manage_autonomous_maneuver s1) /\
    car_locked (scan_iteration fl format_1f format_0f radians degrees current_time raw s)
    = car_locked (manage_autonomous_maneuver s1).
Proof.
  unfold scan_iteration.
  destruct (process_raw_scan_to_points_objects fl radians raw) as [[objects a] d]. cbv zeta.
  set (s1 := set_any_object_in_front_details _ _). exists s1.
  split; [reflexivity|]. split; [reflexivity|].
  destruct (UDP_STREAM_ENABLED _); [|now split].
  apply send_lidar_data_udp_commands.
Qed.

Lemma handle_lock_inv e s :
  is_exit e = false ->
  lock_inv s -> lock_inv (handle fl format_1f format_0f radians degrees e s).
Proof.
  intros He Hs. destruct e; cbn [handle]; try discriminate He.
  - destruct (scan_iteration_commands current_time raw_scan_points_tuples s)
      as (s1 & Hc1 & Hl1 & Hc & Hl).
    assert (H1 : lock_inv s1) by (unfold lock_inv; now rewrite Hc1, Hl1).
    apply manage_autonomous_maneuver_inv in H1.
    unfold lock_inv. rewrite Hc, Hl. exact H1.
  - unfold forward_pressed, is_manual_control_allowed.
    destruct status_label_exists; cbn [negb]; [|exact Hs].
    destruct (car_locked s) eqn:El; cbn [String.eqb Ascii.eqb Bool.eqb negb]; [exact Hs|].
    now apply send_forward_inv.
  - unfold forward_released. destruct (negb (car_locked s)); [|exact Hs].
    now apply send_plain_inv.
  - unfold backward_pressed. destruct (negb _); [exact Hs|]. now apply send_plain_inv.
  - now apply send_plain_inv.
  - unfold left_pressed. destruct (negb _); [exact Hs|]. now apply send_plain_inv.
  - now apply send_plain_inv.
  - unfold right_pressed. destruct (negb _); [exact Hs|]. now apply send_plain_inv.
  - now apply send_plain_inv.
  - now apply send_plain_inv.
Qed.

Lemma run_lock_inv events s :
  existsb is_exit events = false ->
  lock_inv s -> lock_inv (run fl format_1f format_0f radians degrees events s).
Proof.
  revert s. induction events as [|e rest IH]; intros s He Hs; [exact Hs|].
  cbn [existsb] in He. apply orb_false_elim in He as [He Hrest].
  cbn [run fold_left]. apply IH; [exact Hrest|]. now apply handle_lock_inv.
Qed.

Lemma handle_forward_inv e s :
  forward_inv s -> forward_inv (handle fl format_1f format_0f radians degrees e s).
Proof.
  intros Hs. destruct e; cbn [handle].
  - destruct (scan_iteration_commands current_time raw_scan_points_tuples s)
      as (s1 & Hc1 & Hl1 & Hc & Hl).
    assert (H1 : forward_inv s1) by (unfold forward_inv; now rewrite Hc1, Hl1).
    apply manage_autonomous_maneuver_forward_inv in H1.
    unfold forward_inv. rewrite Hc, Hl. exact H1.
  - unfold forward_pressed, is_manual_control_allowed.
    destruct status_label_exists; cbn [negb]; [|exact Hs].
    destruct (car_locked s) eqn:El; cbn [String.eqb Ascii.eqb Bool.eqb negb]; [exact Hs|].
    now apply send_forward_forward_inv.
  - unfold forward_released. destruct (negb (car_locked s)); [|exact Hs].
    now apply send_plain_forward_inv.
  - unfold backward_pressed. destruct (negb _); [exact Hs|].
    now apply send_plain_forward_inv.
  - now apply send_plain_forward_inv.
  - unfold left_pressed. destruct (negb _); [exact Hs|]. now apply send_plain_forward_inv.
  - now apply send_plain_forward_inv.
  - unfold right_pressed. destruct (negb _); [exact Hs|]. now apply send_plain_forward_inv.
  - now apply send_plain_forward_inv.
  - now apply send_plain_forward_inv.
  - now apply exit_app_forward_inv.
Qed.

Lemma run_forward_inv events s :
  forward_inv s -> forward_inv (run fl format_1f format_0f radians degrees events s).
Proof.
  revert s. induction events as [|e rest IH]; intros s Hs; [exact Hs|].
  cbn [run fold_left]. apply IH. now apply handle_forward_inv.
Qed.

End Machine.

End LockFacts.
(** ** The motion server *)

Module ArduinoFacts.

Import Arduino ArduinoSpec.

Lemma is_value_inj x n m : is_value x n = true -> is_value x m = true -> n = m.
Proof.
  unfold is_value. destruct x as [v|]; [|discriminate].
  intros H1 H2. apply Z.eqb_eq in H1, H2. congruence.
Qed.

Lemma is_uno_not_cp2102 port : is_uno port = true -> is_cp2102 port = false.
Proof.
  unfold is_uno, is_cp2102. intros H. apply andb_prop in H as [Hv _].
  destruct (is_value (vid port) 0x10C4) eqn:E; [|reflexivity].
  pose proof (is_value_inj _ _ _ Hv E). discriminate.
Qed.

Lemma is_acm_not_cp2102 port : is_acm port = true -> is_cp2102 port = false.
Proof.
  unfold is_acm, is_cp2102. intros H. apply andb_prop in H as [_ Hv].
  apply negb_true_iff in Hv. now rewrite Hv.
Qed.

Section Ports.

Variable lower : string -> string.

Lemma find_arduino_port_found ports name :
  find_arduino_port lower ports = Some name ->
  exists port, port ∈ ports /\ device port = name /\ is_cp2102 port = false /\
               (is_uno port = true \/ is_acm port = true \/ is_arduino_like lower port = true).
Proof.
  unfold find_arduino_port.
  destruct (List.find is_uno ports) as [p|] eqn:E1.
  { intros [= <-]. apply find_some in E1 as [Hin Hp]. exists p.
    split; [now apply list_elem_of_In|]. split; [reflexivity|].
    split; [now apply is_uno_not_cp2102 | now left]. }
  destruct (List.find is_acm ports) as [p|] eqn:E2.
  { intros [= <-]. apply find_some in E2 as [Hin Hp]. exists p.
    split; [now apply list_elem_of_In|]. split; [reflexivity|].
    split; [now apply is_acm_not_cp2102 | now right; left]. }
  destruct (List.find (is_arduino_like lower) ports) as [p|] eqn:E3; [|discriminate].
  intros [= <-]. apply find_some in E3 as [Hin Hp]. exists p.
  split; [now apply list_elem_of_In|]. split; [reflexivity|].
  split; [|now right; right].
  unfold is_arduino_like in Hp. apply andb_prop in Hp as [Hp _].
  now apply negb_true_iff in Hp.
Qed.

Lemma find_arduino_port_none ports :
  find_arduino_port lower ports = None <-> no_candidate lower ports.
Proof.
  unfold find_arduino_port, no_candidate. split.
  - destruct (List.find is_uno ports) eqn:E1; [discriminate|].
    destruct (List.find is_acm ports) eqn:E2; [discriminate|].
    destruct (List.find (is_arduino_like lower) ports) eqn:E3; [discriminate|].
    intros _. apply Forall_forall. intros p Hp. apply list_elem_of_In in Hp.
    split; [exact (find_none _ _ E1 p Hp)|].
    split; [exact (find_none _ _ E2 p Hp) | exact (find_none _ _ E3 p Hp)].
  - intros Hall. rewrite Forall_forall in Hall.
    destruct (List.find is_uno ports) as [p|] eqn:E1.
    { apply find_some in E1 as [Hin Hp]. apply list_elem_of_In in Hin.
      destruct (Hall p Hin) as (H & _). congruence. }
    destruct (List.find is_acm ports) as [p|] eqn:E2.
    { apply find_some in E2 as [Hin Hp]. apply list_elem_of_In in Hin.
      destruct (Hall p Hin) as (_ & H & _). congruence. }
    destruct (List.find (is_arduino_like lower) ports) as [p|] eqn:E3; [|reflexivity].
    apply find_some in E3 as [Hin Hp]. apply list_elem_of_In in Hin.
    destruct (Hall p Hin) as (_ & _ & H). congruence.
Qed.

(** A genuine Uno anywhere in the list wins over the other ports. *)
Lemma find_arduino_port_uno ports port :
  port ∈ ports -> is_uno port = true ->
  exists uno, List.find is_uno ports = Some uno /\
              find_arduino_port lower ports = Some (device uno).
Proof.
  intros Hin Hp. unfold find_arduino_port.
  destruct (List.find is_uno ports) as [uno|] eqn:E; [now exists uno|].
  apply list_elem_of_In in Hin. pose proof (find_none _ _ E port Hin). congruence.
Qed.

End Ports.

Section Controller.

Variables upper lower strip : string -> string.
Variable open_ok : string -> bool.
Variable write_ok : nat -> bool.

Lemma valid_commands_existsb command :
  existsb (String.eqb command) valid_commands = true <-> command ∈ valid_commands.
Proof.
  rewrite existsb_exists. split.
  - intros (x & Hin & Hx). apply String.eqb_eq in Hx. subst. now apply list_elem_of_In.
  - intros H. exists command. split; [now apply list_elem_of_In | apply String.eqb_refl].
Qed.

(** What [write] does: the payload is appended when the port is open and
    the device takes it, and nothing else changes but the count. *)
Lemma write_cases payload c :
  let '(ok, c') := write write_ok payload c in
  connected c' = connected c /\ server_socket c' = server_socket c /\
  if ok then
    exists sp, arduino c = Some sp /\ is_open sp = true /\ write_ok (writes c) = true /\
               arduino c' = Some (mkSerial (port_name sp) true (written sp ++ [payload]))
  else arduino c' = arduino c /\
       (arduino c = None \/ (exists sp, arduino c = Some sp /\ is_open sp = false) \/
        write_ok (writes c) = false).
Proof.
  unfold write. destruct (arduino c) as [sp|] eqn:Ea.
  - destruct (is_open sp) eqn:Eo; cbn [andb].
    + destruct (write_ok (writes c)) eqn:Ew; cbn [connected server_socket arduino].
      * split; [reflexivity|]. split; [reflexivity|]. now exists sp.
      * split; [reflexivity|]. split; [reflexivity|]. split; [reflexivity | now right; right].
    + cbn [connected server_socket arduino].
      split; [reflexivity|]. split; [reflexivity|].
      split; [reflexivity | right; left; now exists sp].
  - split; [reflexivity|]. split; [reflexivity|]. split; [exact Ea | now left].
Qed.

Lemma write_valid payload c :
  payload ∈ valid_commands -> only_valid_commands c ->
  only_valid_commands (snd (write write_ok payload c)).
Proof.
  intros Hp Hc. pose proof (write_cases payload c) as H.
  destruct (write write_ok payload c) as [[|] c']; cbn [snd];
    destruct H as (_ & _ & H); unfold only_valid_commands in *.
  - destruct H as (sp & Ea & _ & _ & ->). rewrite Ea in Hc. cbn [written].
    apply Forall_app. split; [exact Hc | now apply Forall_singleton].
  - destruct H as [-> _]. exact Hc.
Qed.

Lemma send_command_valid command c :
  only_valid_commands c -> only_valid_commands (snd (send_command upper write_ok command c)).
Proof.
  intros Hc. unfold send_command.
  destruct (negb (connected c) || _); [exact Hc|].
  destruct (existsb _ _) eqn:E; cbn [negb]; [|exact Hc].
  apply write_valid; [|exact Hc]. now apply valid_commands_existsb.
Qed.

Lemma stop_is_valid : "S"%string ∈ valid_commands.
Proof. unfold valid_commands. repeat (apply elem_of_cons; ((left; reflexivity) || right)). Qed.

Lemma connect_arduino_valid port ports c :
  only_valid_commands c ->
  only_valid_commands (snd (connect_arduino lower open_ok write_ok port ports c)).
Proof.
  intros Hc. unfold connect_arduino. cbv zeta.
  destruct (if no_port port then _ else _) as [name|] eqn:Ep; [|exact Hc].
  destruct (no_port (Some name)); [exact Hc|].
  destruct (open_ok name); [|exact Hc].
  set (c1 := mkController _ _ _ _).
  assert (H1 : only_valid_commands c1) by (unfold only_valid_commands; cbn; constructor).
  pose proof (write_valid "S" c1 stop_is_valid H1) as H2.
  destruct (write write_ok "S" c1) as [ok c2]. exact H2.
Qed.

Lemma cleanup_valid c :
  only_valid_commands c -> only_valid_commands (cleanup upper write_ok c).
Proof.
  intros Hc. unfold cleanup. cbv zeta.
  match goal with
  | |- only_valid_commands (match server_socket ?x with _ => _ end) =>
      assert (H : only_valid_commands x); [|destruct (server_socket x); exact H]
  end.
  destruct (arduino c) as [sp|] eqn:Ea; [|exact Hc].
  destruct (is_open sp); [|exact Hc].
  pose proof (send_command_valid "S" c Hc) as H1.
  unfold only_valid_commands in H1 |- *.
  destruct (arduino (snd (send_command upper write_ok "S" c))) as [sp0|] eqn:E0.
  - exact H1.
  - now rewrite E0.
Qed.

Lemma serve_valid conn c :
  only_valid_commands c -> only_valid_commands (fst (serve upper strip write_ok conn c)).
Proof.
  intros Hc. unfold serve. destruct conn; [|exact Hc ..].
  destruct (String.eqb _ _); [exact Hc|]. now apply send_command_valid.
Qed.

Lemma serve_all_valid conns c :
  only_valid_commands c -> only_valid_commands (serve_all upper strip write_ok conns c).
Proof.
  revert c. induction conns as [|conn rest IH]; intros c Hc; [exact Hc|].
  cbn [serve_all]. pose proof (serve_valid conn c Hc) as H1.
  destruct (serve upper strip write_ok conn c) as [c1 go_on]. cbn [fst] in H1.
  destruct go_on; [now apply IH | now apply cleanup_valid].
Qed.

Lemma start_server_valid socket_ok bind_ok conns c :
  only_valid_commands c ->
  only_valid_commands (start_server upper strip write_ok socket_ok bind_ok conns c).
Proof.
  intros Hc. unfold start_server. destruct socket_ok; [|now apply cleanup_valid].
  cbv zeta. destruct bind_ok; [apply serve_all_valid | apply cleanup_valid]; exact Hc.
Qed.

(** *** What the Arduino receives, and in which order *)

Lemma write_received payload c :
  received (snd (write write_ok payload c))
  = received c ++ (if fst (write write_ok payload c) then [payload] else []).
Proof.
  pose proof (write_cases payload c) as H.
  destruct (write write_ok payload c) as [[|] c']; cbn [fst snd];
    destruct H as (_ & _ & H); unfold received.
  - destruct H as (sp & -> & _ & _ & ->). reflexivity.
  - destruct H as [-> _]. now rewrite app_nil_r.
Qed.

Lemma send_command_received command c :
  received (snd (send_command upper write_ok command c))
  = received c ++ (if fst (send_command upper write_ok command c) then [upper command] else []).
Proof.
  unfold send_command.
  destruct (negb (connected c) || _); [now rewrite app_nil_r|].
  destruct (negb (existsb _ _)); [now rewrite app_nil_r|].
  apply write_received.
Qed.

Lemma send_command_connected command c :
  connected (snd (send_command upper write_ok command c)) = connected c.
Proof.
  unfold send_command.
  destruct (negb (connected c) || _); [reflexivity|].
  destruct (negb (existsb _ _)); [reflexivity|].
  pose proof (write_cases (upper command) c) as H.
  destruct (write write_ok (upper command) c) as [ok c']. now destruct H as [H _].
Qed.

Lemma send_command_ok command c :
  fst (send_command upper write_ok command c) = true <->
  ready write_ok c /\ upper command ∈ valid_commands.
Proof.
  unfold send_command, ready.
  destruct (connected c) eqn:Ec; cbn [negb orb].
  2:{ split; [discriminate|]. now intros [(H & _) _]. }
  destruct (arduino c) as [sp|] eqn:Ea.
  2:{ rewrite bool_decide_eq_false_2 by (intros [? ?]; discriminate). cbn [negb fst].
      split; [discriminate|]. intros [(_ & (sp & H & _) & _) _]. discriminate. }
  rewrite bool_decide_eq_true_2 by now exists sp. cbn [negb].
  destruct (existsb _ _) eqn:Ev; cbn [negb].
  2:{ cbn [fst]. split; [discriminate|]. intros [_ H].
      apply valid_commands_existsb in H. congruence. }
  apply valid_commands_existsb in Ev.
  unfold write. rewrite Ea.
  destruct (is_open sp) eqn:Eo; cbn [andb].
  - destruct (write_ok (writes c)) eqn:Ew; cbn [fst].
    + split; [|reflexivity]. intros _.
      split; [|exact Ev]. split; [reflexivity|]. split; [now exists sp | reflexivity].
    + split; [discriminate|]. intros [(_ & _ & H) _]. discriminate.
  - cbn [fst]. split; [discriminate|].
    intros [(_ & (sp' & H & Ho) & _) _]. congruence.
Qed.

(** The port [cleanup] works on, before the socket is closed. *)
Lemma cleanup_arduino c :
  arduino (cleanup upper write_ok c)
  = match arduino c with
    | Some sp =>
        if is_open sp then
          match arduino (snd (send_command upper write_ok "S" c)) with
          | Some sp' => Some (mkSerial (port_name sp') false (written sp'))
          | None => None
          end
        else Some sp
    | None => None
    end.
Proof.
  unfold cleanup. cbv zeta.
  match goal with
  | |- arduino (match server_socket ?x with _ => _ end) = ?r =>
      assert (H : arduino x = r); [|destruct (server_socket x); exact H]
  end.
  destruct (arduino c) as [sp|] eqn:Ea; [|exact Ea].
  destruct (is_open sp); [|exact Ea].
  destruct (arduino (snd (send_command upper write_ok "S" c))) as [sp'|] eqn:E1;
    [reflexivity | exact E1].
Qed.

Lemma cleanup_closed c : closed (cleanup upper write_ok c).
Proof.
  unfold closed. rewrite cleanup_arduino.
  destruct (arduino c) as [sp|] eqn:Ea; [|exact I].
  destruct (is_open sp) eqn:Eo; [|exact Eo].
  destruct (arduino (snd (send_command upper write_ok "S" c))); [reflexivity | exact I].
Qed.

Lemma cleanup_socket c :
  server_socket (cleanup upper write_ok c) <> Some false.
Proof.
  unfold cleanup. cbv zeta.
  match goal with
  | |- server_socket (match server_socket ?x with _ => _ end) <> _ =>
      destruct (server_socket x) eqn:E; [discriminate | now rewrite E]
  end.
Qed.

Lemma cleanup_received c :
  received (cleanup upper write_ok c)
  = received c ++ (match arduino c with
                   | Some sp =>
                       if is_open sp && fst (send_command upper write_ok "S" c)
                       then [upper "S"] else []
                   | None => []
                   end).
Proof.
  unfold received at 1. rewrite cleanup_arduino.
  destruct (arduino c) as [sp|] eqn:Ea; [|unfold received; now rewrite Ea].
  destruct (is_open sp) eqn:Eo; cbn [andb].
  - pose proof (send_command_received "S" c) as H. unfold received at 1 in H.
    destruct (arduino (snd (send_command upper write_ok "S" c))); exact H.
  - unfold received. now rewrite Ea, app_nil_r.
Qed.

(** Once the port is closed and the socket is, [cleanup] does nothing. *)
Lemma cleanup_fixed c :
  closed c -> server_socket c <> Some false -> cleanup upper write_ok c = c.
Proof.
  unfold closed, cleanup. destruct c as [[sp|] co so w]; cbn; intros Hc Hs.
  - rewrite Hc. cbn. destruct so as [[|]|]; [reflexivity | contradiction | reflexivity].
  - destruct so as [[|]|]; [reflexivity | contradiction | reflexivity].
Qed.

Lemma send_command_closed command c :
  closed c -> fst (send_command upper write_ok command c) = false.
Proof.
  intros Hc. destruct (fst (send_command upper write_ok command c)) eqn:E; [|reflexivity].
  apply send_command_ok in E as [(_ & (sp & Ha & Ho) & _) _].
  unfold closed in Hc. rewrite Ha in Hc. congruence.
Qed.

Lemma send_command_prefix command c :
  received c `prefix_of` received (snd (send_command upper write_ok command c)).
Proof. rewrite send_command_received. now eexists. Qed.

Lemma cleanup_prefix c : received c `prefix_of` received (cleanup upper write_ok c).
Proof. rewrite cleanup_received. now eexists. Qed.

Lemma serve_all_prefix conns c :
  received c `prefix_of` received (serve_all upper strip write_ok conns c).
Proof.
  revert c. induction conns as [|conn rest IH]; intros c; [reflexivity|].
  cbn [serve_all]. unfold serve.
  destruct conn as [text| |]; [|apply cleanup_prefix ..].
  destruct (String.eqb _ _); [apply IH|].
  etransitivity; [apply send_command_prefix | apply IH].
Qed.

Lemma start_server_prefix socket_ok bind_ok conns c :
  received c `prefix_of` received (start_server upper strip write_ok socket_ok bind_ok conns c).
Proof.
  unfold start_server. destruct socket_ok; [|apply cleanup_prefix]. cbv zeta.
  destruct bind_ok.
  - exact (serve_all_prefix conns (mkController (arduino c) (connected c) (Some false) (writes c))).
  - exact (cleanup_prefix (mkController (arduino c) (connected c) (Some false) (writes c))).
Qed.

(** A first connection sends the stop, and nothing else, when it succeeds,
    and leaves the controller disconnected when it fails. *)
Lemma connect_arduino_first port ports :
  let '(ok, c) := connect_arduino lower open_ok write_ok port ports init_controller in
  connected c = ok /\ received c = if ok then ["S"%string] else [].
Proof.
  unfold connect_arduino. cbv zeta.
  destruct (if no_port port then _ else _) as [name|]; [|now split].
  destruct (no_port (Some name)); [now split|].
  destruct (open_ok name); [|now split].
  unfold write, init_controller. cbn.
  destruct (write_ok 0%nat); now split.
Qed.

End Controller.

End ArduinoFacts.
(** ** More on the planner *)

Module RouteFacts.

Import Planner PlanSpec.

(** The parent walk gathers each cell once: the scores go down along it. *)
Lemma reconstruct_nodup (cf : gmap cell cell) (g : gmap cell Z) :
  links_decrease cf g ->
  forall fuel temp acc res,
    reconstruct fuel cf temp acc = Some res ->
    exists chain,
      res = acc ++ chain /\ NoDup chain /\
      Forall (fun c => is_Some (cf !! c) /\
                       exists gc, g !! c = Some gc /\
                                  forall gt, g !! temp = Some gt -> gc <= gt) chain.
Proof.
  intros Hdec fuel. induction fuel as [|fuel IH]; intros temp acc res.
  - cbn [reconstruct]. destruct (cf !! temp); [discriminate|]. intros [= <-].
    exists []. rewrite app_nil_r. repeat split; constructor.
  - cbn [reconstruct]. destruct (cf !! temp) as [parent|] eqn:Et.
    + intros Hrec. destruct (IH _ _ _ Hrec) as (chain & -> & Hnd & Hall).
      destruct (Hdec temp parent Et) as (gn & gp & Hgn & Hgp & Hlt).
      exists (temp :: chain). split; [now rewrite <- app_assoc|]. split.
      * constructor; [|exact Hnd]. intros Hin.
        rewrite Forall_forall in Hall. destruct (Hall temp Hin) as (_ & gc & Hgc & Hle).
        specialize (Hle gp Hgp). rewrite Hgn in Hgc. injection Hgc as <-. lia.
      * constructor.
        -- split; [now exists parent|]. exists gn. split; [exact Hgn|].
           intros gt Hgt. rewrite Hgn in Hgt. injection Hgt as <-. lia.
        -- eapply Forall_impl; [exact Hall|]. cbn. intros c (Hc & gc & Hgc & Hle).
           split; [exact Hc|]. exists gc. split; [exact Hgc|].
           intros gt Hgt. rewrite Hgn in Hgt. injection Hgt as <-.
           specialize (Hle gp Hgp). lia.
    + intros [= <-]. exists []. rewrite app_nil_r. repeat split; constructor.
Qed.

(** A path of the planner visits no cell twice and never comes back to the
    cell it starts from. *)
Lemma plan_path_nodup g start goal path :
  plan_path g start (Some goal) = Some (PathFound path) ->
  NoDup (start :: path).
Proof.
  unfold plan_path.
  destruct (is_valid_and_clear g goal.1 goal.2) eqn:Hgoal; cbn [negb]; [|discriminate].
  destruct (astar_loop _ _ _ _) as [found s] eqn:Hloop.
  destruct (SearchFacts.astar_loop_inv (is_valid_and_clear g) start goal _ _ _ _
              (SearchFacts.initial_search_inv _ start goal) Hloop) as [Hinv _].
  destruct found; [|discriminate].
  pose proof (PlanFacts.search_inv_links _ _ _ Hinv) as Hdec.
  pose proof (PlanFacts.search_inv_start_unlinked _ _ _ Hinv) as Hstart.
  destruct (reconstruct (S (size (came_from s))) (came_from s) goal []) as [res|] eqn:Hrec;
    [|discriminate].
  destruct (reconstruct_nodup _ _ Hdec _ _ _ _ Hrec) as (chain & -> & Hnd & Hall).
  cbn [app]. cbv zeta.
  assert (Hnot : start ∉ rev chain).
  { intros Hin. apply list_elem_of_In, in_rev, list_elem_of_In in Hin.
    rewrite Forall_forall in Hall. destruct (Hall start Hin) as ([p Hp] & _). congruence. }
  rewrite PlanFacts.drop_start_id.
  - intros [= <-]. constructor; [exact Hnot|]. apply NoDup_ListNoDup, NoDup_rev.
    now apply NoDup_ListNoDup.
  - intros first tl Hrev -> . apply Hnot. rewrite Hrev. left.
Qed.

Lemma route_from_in_bounds g from path :
  route_from (is_valid_and_clear g) from path ->
  Forall (fun c : cell => in_bounds c.1 c.2 = true) path.
Proof.
  intros H. apply PathFacts.route_from_clear in H.
  eapply Forall_impl; [exact H|]. cbn. intros c Hc.
  unfold is_valid_and_clear in Hc. now apply andb_prop in Hc as [Hc _].
Qed.

(** Cells of the grid without repetition are at most 80 x 80. *)
Lemma distinct_cells_bound (l : list cell) :
  NoDup l -> Forall (fun c : cell => in_bounds c.1 c.2 = true) l ->
  (length l <= 80 * 80)%nat.
Proof.
  intros Hnd Hall. rewrite <- BfsLoop.length_all_cells.
  apply submseteq_length, NoDup_submseteq; [exact Hnd|].
  intros c Hc. rewrite Forall_forall in Hall. apply BfsLoop.in_all_cells. now apply Hall.
Qed.

(** The heuristic changes by one along a step. *)
Lemma heuristic_step (a b goal : cell) :
  adjacent a b -> heuristic a goal <= heuristic b goal + 1.
Proof. unfold adjacent, heuristic. lia. Qed.

(** The heuristic never overestimates: a route is at least as long. *)
Lemma heuristic_admissible clear from path goal :
  route_from clear from path -> List.last path from = goal ->
  heuristic from goal <= Z.of_nat (length path).
Proof.
  revert from. induction path as [|c rest IH]; intros from Hroute Hlast.
  - cbn in Hlast. subst goal. unfold heuristic. cbn [length]. lia.
  - destruct Hroute as (Hadj & _ & Hrest).
    rewrite PathFacts.last_cons_default in Hlast.
    specialize (IH c Hrest Hlast). pose proof (heuristic_step from c goal Hadj).
    cbn [length]. lia.
Qed.

(** The search of the robot's own cell ends at its first pop. *)
Lemma plan_path_own_cell g start :
  is_valid_and_clear g start.1 start.2 = true ->
  plan_path g start (Some start) = Some (PathFound []).
Proof.
  intros Hclear. unfold plan_path. rewrite Hclear. cbn [negb].
  assert (Hfuel : (0 < max_iterations)%nat).
  { unfold max_iterations. change (GRID_DIMENSION * GRID_DIMENSION * 3 / 2) with 9600. lia. }
  destruct max_iterations as [|fuel]; [lia|].
  cbn [astar_loop initial_search open_set].
  rewrite bool_decide_eq_true_2 by reflexivity.
  cbn [came_from initial_search reconstruct]. rewrite lookup_empty. reflexivity.
Qed.

End RouteFacts.
(** ** What reaches the motion server *)

Module RelayFacts.

Import Arduino ArduinoSpec.

Section Relay.

Variables upper strip : string -> string.
Variable write_ok : nat -> bool.
Hypothesis upper_fixes : fixes_commands upper.
Hypothesis strip_fixes : fixes_commands strip.

Lemma valid_command_relayed command :
  command ∈ valid_commands -> relayed upper strip write_ok command.
Proof.
  intros Hin c (Hconn & (sp & Hsp & Hopen) & Hw).
  unfold fixes_commands in *. rewrite Forall_forall in upper_fixes, strip_fixes.
  unfold serve. rewrite (strip_fixes _ Hin), (upper_fixes _ Hin).
  assert (Hne : String.eqb command "" = false).
  { apply String.eqb_neq. intros ->. unfold valid_commands in Hin.
    repeat (apply elem_of_cons in Hin; destruct Hin as [Hin | Hin]; [discriminate|]).
    now apply elem_of_nil in Hin. }
  rewrite Hne. cbn [fst snd]. split; [reflexivity|].
  unfold send_command. rewrite Hconn, Hsp, (upper_fixes _ Hin). cbn [negb orb].
  rewrite bool_decide_eq_true_2 by now exists sp. cbn [negb].
  rewrite (proj2 (ArduinoFacts.valid_commands_existsb command) Hin). cbn [negb].
  unfold write, received. rewrite Hsp, Hopen, Hw. reflexivity.
Qed.

End Relay.

Ltac in_valid_commands :=
  unfold valid_commands; repeat (apply elem_of_cons; ((left; reflexivity) || right)).

Lemma viewer_commands_valid command :
  command ∈ ["F"; "L"; "R"; "S"]%string -> command ∈ valid_commands.
Proof.
  intros H. repeat (apply elem_of_cons in H; destruct H as [-> | H]; [in_valid_commands|]).
  now apply elem_of_nil in H.
Qed.

Section Car.

Import CarControl.

Variable fl : Q -> Q.
Variables format_1f format_0f : Q -> string.
Variables radians degrees : Q -> Q.

Lemma send_command_commands command s :
  Forall (fun x => x ∈ valid_commands) (commands_sent s) -> command ∈ valid_commands ->
  Forall (fun x => x ∈ valid_commands) (commands_sent (CarControl.send_command command s)).
Proof.
  intros Hs Hc. unfold CarControl.send_command. cbn [commands_sent].
  apply Forall_app. split; [exact Hs | now apply Forall_singleton].
Qed.

Lemma handle_commands_valid e s :
  Forall (fun x => x ∈ valid_commands) (commands_sent s) ->
  Forall (fun x => x ∈ valid_commands)
         (commands_sent (CarControl.handle fl format_1f format_0f radians degrees e s)).
Proof.
  intros Hs. destruct e; cbn [CarControl.handle].
  - destruct (LockFacts.scan_iteration_commands fl format_1f format_0f radians degrees
                current_time raw_scan_points_tuples s) as (s1 & Hc1 & _ & Hc & _).
    rewrite Hc. rewrite <- Hc1 in Hs.
    unfold manage_autonomous_maneuver.
    destruct (any_object_in_front_details s1); destruct (car_locked s1); cbn [negb];
      try exact Hs; cbv zeta; unfold set_car_locked; cbn [commands_sent];
      repeat apply send_command_commands; try exact Hs; in_valid_commands.
  - unfold forward_pressed. destruct (negb _); [exact Hs|].
    apply send_command_commands; [exact Hs | in_valid_commands].
  - unfold forward_released. destruct (negb _); [|exact Hs].
    apply send_command_commands; [exact Hs | in_valid_commands].
  - unfold backward_pressed. destruct (negb _); [exact Hs|].
    apply send_command_commands; [exact Hs | in_valid_commands].
  - apply send_command_commands; [exact Hs | in_valid_commands].
  - unfold left_pressed. destruct (negb _); [exact Hs|].
    apply send_command_commands; [exact Hs | in_valid_commands].
  - apply send_command_commands; [exact Hs | in_valid_commands].
  - unfold right_pressed. destruct (negb _); [exact Hs|].
    apply send_command_commands; [exact Hs | in_valid_commands].
  - apply send_command_commands; [exact Hs | in_valid_commands].
  - apply send_command_commands; [exact Hs | in_valid_commands].
  - unfold exit_app, set_udp_socket. cbv zeta. cbn [commands_sent].
    repeat apply send_command_commands; try exact Hs; in_valid_commands.
Qed.

Lemma run_commands_valid events s :
  Forall (fun x => x ∈ valid_commands) (commands_sent s) ->
  Forall (fun x => x ∈ valid_commands)
         (commands_sent (CarControl.run fl format_1f format_0f radians degrees events s)).
Proof.
  revert s. induction events as [|e rest IH]; intros s Hs; [exact Hs|].
  cbn [CarControl.run fold_left]. apply IH. now apply handle_commands_valid.
Qed.

End Car.

End RelayFacts.

(** ** The controller as a whole *)

(** X1: the logical robot cell never leaves the centre of the grid, so the
    state REACHED_GOAL is entered only when the goal is the centre cell
    [(40, 40)]. *)
Theorem goal_reached_only_at_the_centre
    (rnd fl sin_deg cos_deg : Q -> Q) (net : nat -> Nav.transport_result) (v : Nav.viewer) :
  Nav.reachable rnd fl sin_deg cos_deg net v ->
  Nav.current_logical_robot_cell_on_path v = (40, 40) /\
  (Nav.navigation_state v = Nav.NAV_STATE_REACHED_GOAL ->
   Nav.navigation_goal_cell v = Some (40, 40)).
Proof.
  intros Hv.
  pose proof (NavInvariants.reachable_logical_cell rnd fl sin_deg cos_deg net v Hv) as Hc.
  split; [exact Hc|]. intros Hs.
  rewrite (NavInvariants.reachable_reached_here rnd fl sin_deg cos_deg net v Hv Hs).
  now rewrite Hc.
Qed.

Lemma goal_reached_only_at_the_centre_witness :
  let v := Nav.run (fun x => x) (fun x => x) quadrant_sin quadrant_cos NavSpec.net_up
             [Nav.ToggleConnection true true; Nav.MapClick false 40 40;
              Nav.PlannerThreadRuns; Nav.PlannerCallbackRuns]
             Nav.init_viewer in
  Nav.navigation_state v = Nav.NAV_STATE_REACHED_GOAL /\
  Nav.navigation_goal_cell v = Some (40, 40).
Proof.
  cbv zeta.
  assert (Hs : Nav.navigation_state
                 (Nav.run (fun x => x) (fun x => x) quadrant_sin quadrant_cos NavSpec.net_up
                    [Nav.ToggleConnection true true; Nav.MapClick false 40 40;
                     Nav.PlannerThreadRuns; Nav.PlannerCallbackRuns]
                    Nav.init_viewer) = Nav.NAV_STATE_REACHED_GOAL)
    by (vm_compute; reflexivity).
  split; [exact Hs|].
  apply (goal_reached_only_at_the_centre (fun x => x) (fun x => x) quadrant_sin quadrant_cos NavSpec.net_up);
    [apply reachable_run; constructor | exact Hs].
Defined.

(** X2: a click sets the goal only while the feed is connected, and only on
    a cell that is inside the grid and below the obstacle threshold at that
    moment; in every state the program reaches the goal, when set, is a cell
    of the grid. *)
Theorem goal_is_set_on_a_clear_cell
    (rnd fl sin_deg cos_deg : Q -> Q) (net : nat -> Nav.transport_result) :
  (forall confirm r c v g,
     Nav.navigation_goal_cell (Nav.handle_map_click net confirm r c v) = Some g ->
     Nav.navigation_goal_cell v = Some g \/
     (g = (r, c) /\ Nav.is_udp_running v = true /\
      is_valid_and_clear (Nav.occupancy_grid v) r c = true)) /\
  (forall v r c,
     Nav.reachable rnd fl sin_deg cos_deg net v ->
     Nav.navigation_goal_cell v = Some (r, c) -> in_bounds r c = true).
Proof.
  split.
  - intros confirm r c v g. apply NavInvariants.handle_map_click_goal.
  - intros v r c. apply NavInvariants.reachable_goal_in_bounds.
Qed.

(** X3: the queue between the receive thread and the main loop never holds
    more than five packets.  With the feed connected a packet that decodes is
    always queued as the newest, after the oldest was dropped from a full
    queue; bytes that are not UTF-8 still cost a full queue its oldest
    packet; an empty datagram and a stopped feed change nothing. *)
Theorem data_queue_never_exceeds_five
    (rnd fl sin_deg cos_deg : Q -> Q) (net : nat -> Nav.transport_result) :
  (forall v, Nav.reachable rnd fl sin_deg cos_deg net v ->
     (length (Nav.data_queue v) <= 5)%nat) /\
  (forall d v, (length (Nav.data_queue v) <= 5)%nat ->
     (length (Nav.data_queue (NavSteps.udp_receive_loop_step d v)) <= 5)%nat) /\
  (forall packet v, Nav.is_udp_running v = true ->
     Nav.data_queue (NavSteps.udp_receive_loop_step (NavSteps.Utf8Text packet) v)
     = (if (5 <=? length (Nav.data_queue v))%nat
        then tl (Nav.data_queue v) else Nav.data_queue v) ++ [packet]) /\
  (forall v, Nav.is_udp_running v = true -> (5 <= length (Nav.data_queue v))%nat ->
     Nav.data_queue (NavSteps.udp_receive_loop_step NavSteps.NotUtf8 v)
     = tl (Nav.data_queue v)) /\
  (forall d v, Nav.is_udp_running v = false \/ d = NavSteps.EmptyDatagram ->
     NavSteps.udp_receive_loop_step d v = v).
Proof.
  split; [intros v; apply NavInvariants.reachable_queue_bound|].
  split.
  - intros d v Hv. unfold NavSteps.udp_receive_loop_step, Nav.udp_receive.
    destruct (Nav.is_udp_running v); [|exact Hv].
    destruct d; [exact Hv | |].
    + destruct (5 <=? length (Nav.data_queue v))%nat; [|exact Hv].
      unfold Nav.set_data_queue. cbn [Nav.data_queue].
      destruct (Nav.data_queue v) as [|p q]; [exact Hv|].
      cbn [tl]. now apply Nat.lt_le_incl.
    + unfold Nav.set_data_queue. cbn [Nav.data_queue].
      rewrite length_app. cbn [length]. rewrite Nat.add_1_r.
      destruct (5 <=? length (Nav.data_queue v))%nat eqn:E.
      * destruct (Nav.data_queue v) as [|p q]; [cbn; repeat constructor|].
        cbn [tl]. exact Hv.
      * apply Nat.leb_gt in E. exact E.
  - split.
    + intros packet v Hrun. unfold NavSteps.udp_receive_loop_step, Nav.udp_receive.
      rewrite Hrun. reflexivity.
    + split.
      * intros v Hrun Hfull. unfold NavSteps.udp_receive_loop_step. rewrite Hrun.
        apply Nat.leb_le in Hfull. rewrite Hfull. reflexivity.
      * intros d v [Hrun | ->]; unfold NavSteps.udp_receive_loop_step.
        -- now rewrite Hrun.
        -- now destruct (Nav.is_udp_running v).
Qed.

(** X4: the occupancy grid keeps its 80 x 80 shape in every state the
    program reaches, so the read behind each bounds check finds a cell. *)
Theorem grid_keeps_its_shape
    (rnd fl sin_deg cos_deg : Q -> Q) (net : nat -> Nav.transport_result) (v : Nav.viewer) :
  Nav.reachable rnd fl sin_deg cos_deg net v ->
  grid_shape (Nav.occupancy_grid v) /\
  (forall r c, in_bounds r c = true -> is_Some (grid_get (Nav.occupancy_grid v) r c)).
Proof.
  intros Hv.
  pose proof (ShapeFacts.reachable_grid_shape rnd fl sin_deg cos_deg net v Hv) as Hs.
  split; [exact Hs|]. intros r c. now apply ShapeFacts.grid_get_in_bounds.
Qed.

Lemma grid_keeps_its_shape_witness :
  let v := Nav.run (fun x => x) (fun x => x) quadrant_sin quadrant_cos NavSpec.net_up
             [Nav.ToggleConnection true true;
              Nav.UdpPacket [Reading 0 100; Malformed; Reading 90 5000];
              Nav.PeriodicUpdate 1]
             Nav.init_viewer in
  grid_get (Nav.occupancy_grid v) 38 40 = Some 25%Q /\
  grid_shape (Nav.occupancy_grid v).
Proof.
  cbv zeta. split; [vm_compute; reflexivity|].
  apply (grid_keeps_its_shape (fun x => x) (fun x => x) quadrant_sin quadrant_cos NavSpec.net_up).
  apply reachable_run. constructor.
Defined.

(** X5: a handler makes at most one connection attempt and never erases
    one.  The attempt is a stop, or one of F, L and R; the three motion
    commands are only sent by the periodic update, and only while the lidar
    feed is connected.  So the robot is only ever sent F, L, R and S. *)
Theorem one_connection_attempt_per_handler
    (rnd fl sin_deg cos_deg : Q -> Q) (net : nat -> Nav.transport_result) :
  (forall e v,
     let v' := Nav.handle rnd fl sin_deg cos_deg net e v in
     Nav.wire_log v' = Nav.wire_log v \/
     Nav.wire_log v'
     = Nav.wire_log v ++ [("S"%string, net (length (Nav.wire_log v)))] \/
     (exists command now,
        command ∈ ["F"; "L"; "R"]%string /\ e = Nav.PeriodicUpdate now /\
        Nav.is_udp_running v = true /\
        Nav.wire_log v'
        = Nav.wire_log v ++ [(command, net (length (Nav.wire_log v)))])) /\
  (forall v, Nav.reachable rnd fl sin_deg cos_deg net v ->
     Forall (fun a => a.1 ∈ ["F"; "L"; "R"; "S"]%string) (Nav.wire_log v)).
Proof.
  split.
  - intros e v. cbv zeta.
    destruct (NavInvariants.handle_wire_change rnd fl sin_deg cos_deg net e v)
      as [H | H | command Hc He Hr H].
    + now left.
    + right. now left.
    + right. right. destruct e; try discriminate He. now exists command, now.
  - intros v. apply NavInvariants.reachable_wire_alphabet.
Qed.

(** X6: once a command has failed and the state is ROBOT_CMD_ERROR, the
    periodic updates, the timers, the packets of the feed and the planner
    thread send nothing more and leave the state, the path and the heading
    as they are: the controller waits for the user or for a planner result. *)
Theorem error_state_sends_nothing
    (rnd fl sin_deg cos_deg : Q -> Q) (net : nat -> Nav.transport_result)
    (v : Nav.viewer) (events : list Nav.event) :
  Nav.reachable rnd fl sin_deg cos_deg net v ->
  Nav.navigation_state v = Nav.NAV_STATE_ROBOT_CMD_ERROR ->
  Forall (fun e => NavSteps.is_background e = true) events ->
  let v' := Nav.run rnd fl sin_deg cos_deg net events v in
  Nav.navigation_state v' = Nav.NAV_STATE_ROBOT_CMD_ERROR /\
  Nav.wire_log v' = Nav.wire_log v /\
  Nav.current_path v' = Nav.current_path v /\
  Nav.robot_orientation_map_deg v' = Nav.robot_orientation_map_deg v.
Proof.
  intros Hv Hs Hall. apply NavInvariants.run_error_quiet; [exact Hs | | exact Hall].
  now apply (NavInvariants.reachable_error_timer rnd fl sin_deg cos_deg net v Hv).
Qed.

Lemma error_state_sends_nothing_witness :
  let v := Nav.run (fun x => x) (fun x => x) quadrant_sin quadrant_cos NavSpec.net_down
             [Nav.ToggleConnection true true; Nav.MapClick false 39 40;
              Nav.PlannerThreadRuns; Nav.PlannerCallbackRuns; Nav.PeriodicUpdate 1]
             Nav.init_viewer in
  let v' := Nav.run (fun x => x) (fun x => x) quadrant_sin quadrant_cos NavSpec.net_down
              [Nav.PeriodicUpdate 5; Nav.ActionTimerFires; Nav.UdpPacket [Reading 0 100];
               Nav.PeriodicUpdate 6]
              v in
  Nav.wire_log v = [("F"%string, Nav.SocketTimeout)] /\
  Nav.navigation_state v' = Nav.NAV_STATE_ROBOT_CMD_ERROR /\
  Nav.wire_log v' = Nav.wire_log v.
Proof.
  cbv zeta.
  set (v := Nav.run (fun x => x) (fun x => x) quadrant_sin quadrant_cos NavSpec.net_down
              [Nav.ToggleConnection true true; Nav.MapClick false 39 40;
               Nav.PlannerThreadRuns; Nav.PlannerCallbackRuns; Nav.PeriodicUpdate 1]
              Nav.init_viewer).
  assert (Hv : Nav.reachable (fun x => x) (fun x => x) quadrant_sin quadrant_cos NavSpec.net_down v)
    by (apply reachable_run; constructor).
  assert (Hs : Nav.navigation_state v = Nav.NAV_STATE_ROBOT_CMD_ERROR)
    by (vm_compute; reflexivity).
  split; [vm_compute; reflexivity|].
  destruct (error_state_sends_nothing (fun x => x) (fun x => x) quadrant_sin quadrant_cos
              NavSpec.net_down v
              [Nav.PeriodicUpdate 5; Nav.ActionTimerFires; Nav.UdpPacket [Reading 0 100];
               Nav.PeriodicUpdate 6]
              Hv Hs ltac:(repeat constructor)) as (H1 & H2 & _).
  split; [exact H1 | exact H2].
Defined.

(** X7: disconnecting the feed leaves the controller idle, with no goal, no
    path, no timer and the heading 0, keeps the map, and tries one stop
    exactly when the state was not IDLE, REACHED_GOAL, NO_PATH_FOUND or
    ROBOT_CMD_ERROR.  Connecting clears the map and the heading even when the
    socket cannot be bound, and leaves the navigation state, the goal and the
    path as they were; with no address given it does nothing. *)
Theorem toggle_connection_resets
    (net : nat -> Nav.transport_result) (bind_ok : bool) (v : Nav.viewer) :
  (forall ip_given, Nav.is_udp_running v = true ->
     let v' := Nav.toggle_connection net ip_given bind_ok v in
     Nav.is_udp_running v' = false /\
     Nav.navigation_state v' = Nav.NAV_STATE_IDLE /\
     Nav.navigation_goal_cell v' = None /\
     Nav.current_path v' = [] /\
     Nav.robot_orientation_map_deg v' = 0%Q /\
     Nav.action_timer_id v' = None /\
     Nav.occupancy_grid v' = Nav.occupancy_grid v /\
     Nav.wire_log v' = Nav.wire_log v ++
       (if Nav.state_in (Nav.navigation_state v)
             [Nav.NAV_STATE_IDLE; Nav.NAV_STATE_REACHED_GOAL; Nav.NAV_STATE_NO_PATH_FOUND;
              Nav.NAV_STATE_ROBOT_CMD_ERROR]
        then [] else [("S"%string, net (length (Nav.wire_log v)))])) /\
  (Nav.is_udp_running v = false ->
     let v' := Nav.toggle_connection net true bind_ok v in
     Nav.occupancy_grid v' = zeros /\
     Nav.robot_orientation_map_deg v' = 0%Q /\
     Nav.is_udp_running v' = bind_ok /\
     Nav.navigation_state v' = Nav.navigation_state v /\
     Nav.navigation_goal_cell v' = Nav.navigation_goal_cell v /\
     Nav.current_path v' = Nav.current_path v /\
     Nav.data_queue v' = Nav.data_queue v /\
     Nav.wire_log v' = Nav.wire_log v) /\
  (Nav.is_udp_running v = false -> Nav.toggle_connection net false bind_ok v = v).
Proof.
  split; [intros ip_given; apply NavInvariants.toggle_connection_off|].
  split; [apply NavInvariants.toggle_connection_on|].
  intros Hrun. unfold Nav.toggle_connection. now rewrite Hrun.
Qed.

(** ** The text of the packets *)

Section PacketText.

Import Ascii.

(** X8: a point of a packet that does not parse is skipped and the others
    are integrated as if it were not there; the text is integrated as the
    list of its points, and the empty text only decays the grid.  The count
    [points_in_last_scan] is the number of points the update goes through,
    the skipped ones included, and 0 for the empty text. *)
Theorem malformed_points_are_skipped
    (py_float : string -> option Q) (rnd fl sin_deg cos_deg : Q -> Q)
    (heading : Q) (g : grid) (fields : list string) :
  Forall (fun p => Wire.free_of ";"%char p = true) fields ->
  Wire.update_occupancy_grid_str py_float rnd fl sin_deg cos_deg heading g
    (Wire.py_join ";"%char fields)
  = Wire.update_occupancy_grid_str py_float rnd fl sin_deg cos_deg heading g
      (Wire.py_join ";"%char (List.filter (Wire.parses py_float) fields)) /\
  (forall s,
     Wire.update_occupancy_grid_str py_float rnd fl sin_deg cos_deg heading g s
     = update_occupancy_grid rnd fl sin_deg cos_deg heading g (Wire.parse_packet py_float s)) /\
  Wire.update_occupancy_grid_str py_float rnd fl sin_deg cos_deg heading g EmptyString
  = decay_grid rnd g /\
  (forall s, length (Wire.parse_packet py_float s) = Wire.points_in_last_scan s).
Proof.
  intros Hfree. split; [|split; [|split; [reflexivity|]]].
  - assert (Hkept : Forall (fun p => Wire.free_of ";"%char p = true)
                     (List.filter (Wire.parses py_float) fields)).
    { apply Forall_forall. intros p Hp. apply list_elem_of_In, filter_In in Hp.
      rewrite Forall_forall in Hfree. apply Hfree. now apply list_elem_of_In. }
    rewrite !WireFacts.update_occupancy_grid_str_parse.
    rewrite (WireFacts.parse_packet_join py_float rnd fl sin_deg cos_deg fields Hfree heading g).
    rewrite (WireFacts.parse_packet_join py_float rnd fl sin_deg cos_deg _ Hkept heading g).
    apply WireFacts.fold_integrate_skips.
  - intros s. apply WireFacts.update_occupancy_grid_str_parse.
  - apply WireFacts.length_parse_packet.
Qed.

Lemma malformed_points_are_skipped_witness :
  let fields := ["0.0,100"; "junk"; "1,2,3"; "90.0,4000"]%string in
  Forall (fun p => Wire.free_of ";"%char p = true) fields /\
  List.filter (Wire.parses StreamSpec.sample_float) fields = ["0.0,100"; "90.0,4000"]%string /\
  Wire.update_occupancy_grid_str StreamSpec.sample_float (fun x => x) (fun x => x) quadrant_sin quadrant_cos
    0 zeros (Wire.py_join ";"%char fields)
  = Wire.update_occupancy_grid_str StreamSpec.sample_float (fun x => x) (fun x => x) quadrant_sin
      quadrant_cos 0 zeros
      (Wire.py_join ";"%char (List.filter (Wire.parses StreamSpec.sample_float) fields)).
Proof.
  cbv zeta.
  assert (Hfree : Forall (fun p => Wire.free_of ";"%char p = true)
                    ["0.0,100"; "junk"; "1,2,3"; "90.0,4000"]%string)
    by (repeat constructor).
  split; [exact Hfree|]. split; [vm_compute; reflexivity|].
  exact (proj1 (malformed_points_are_skipped StreamSpec.sample_float (fun x => x)
                  (fun x => x) quadrant_sin quadrant_cos 0 zeros _ Hfree)).
Defined.

End PacketText.

(** ** More on the planner *)

(** X9: a path the planner returns visits no cell twice and does not
    come back to the start; it has at most 80 x 80 cells and at least as many
    as the Manhattan distance from the start to the goal. *)
Theorem planned_path_is_simple (g : grid) (start goal : Z * Z) (path : list (Z * Z)) :
  Planner.plan_path g start (Some goal) = Some (Planner.PathFound path) ->
  NoDup (start :: path) /\
  (length path <= 80 * 80)%nat /\
  Planner.heuristic start goal <= Z.of_nat (length path).
Proof.
  intros Hplan. pose proof (RouteFacts.plan_path_nodup g start goal path Hplan) as Hnd.
  split; [exact Hnd|].
  destruct (PlanFacts.plan_path_cases g start goal) as [[reason H] | (path' & H & Hroute)];
    rewrite Hplan in H; [discriminate|]. injection H as <-. destruct Hroute as [Hr Hl].
  split.
  - apply RouteFacts.distinct_cells_bound.
    + now apply NoDup_cons in Hnd as [_ Hnd].
    + exact (RouteFacts.route_from_in_bounds g start path Hr).
  - exact (RouteFacts.heuristic_admissible (is_valid_and_clear g) start path goal Hr Hl).
Qed.

Lemma planned_path_is_simple_witness :
  Planner.plan_path zeros (40, 40) (Some (38, 41))
  = Some (Planner.PathFound [(40, 41); (39, 41); (38, 41)]) /\
  NoDup [(40, 40); (40, 41); (39, 41); (38, 41)].
Proof.
  assert (H : Planner.plan_path zeros (40, 40) (Some (38, 41))
              = Some (Planner.PathFound [(40, 41); (39, 41); (38, 41)]))
    by (vm_compute; reflexivity).
  split; [exact H|]. exact (proj1 (planned_path_is_simple _ _ _ _ H)).
Defined.

(** X10: the heuristic is the Manhattan distance: it is 0 exactly on the
    goal, it changes by exactly 1 along a step, and it never exceeds the
    length of a route to the goal. *)
Theorem heuristic_never_overestimates :
  (forall a goal, Planner.heuristic a goal = 0 <-> a = goal) /\
  (forall a b goal, PlanSpec.adjacent a b ->
     Z.abs (Planner.heuristic a goal - Planner.heuristic b goal) = 1) /\
  (forall clear start goal path, PlanSpec.route clear start goal path ->
     Planner.heuristic start goal <= Z.of_nat (length path)).
Proof.
  split; [|split].
  - intros [ar ac] [gr gc]. unfold Planner.heuristic. cbn [fst snd]. split.
    + intros H. f_equal; lia.
    + intros [= -> ->]. lia.
  - intros a b goal. unfold PlanSpec.adjacent, Planner.heuristic. lia.
  - intros clear start goal path [Hr Hl]. eapply RouteFacts.heuristic_admissible; eassumption.
Qed.

(** X11: when the goal is the robot's own cell and that cell is clear, the
    search ends at its first pop with the empty path; the callback then
    enters REACHED_GOAL and tries one stop, and stays in REACHED_GOAL whether
    or not the stop is delivered. *)
Theorem goal_on_the_robot_cell_is_reached_at_once
    (net : nat -> Nav.transport_result) (g : grid) (v : Nav.viewer) :
  is_valid_and_clear g (Nav.current_logical_robot_cell_on_path v).1
                       (Nav.current_logical_robot_cell_on_path v).2 = true ->
  Nav.navigation_goal_cell v = Some (Nav.current_logical_robot_cell_on_path v) ->
  Planner.plan_path g (Nav.current_logical_robot_cell_on_path v) (Nav.navigation_goal_cell v)
  = Some (Planner.PathFound []) /\
  let v' := Nav.path_planning_succeeded net [] v in
  Nav.navigation_state v' = Nav.NAV_STATE_REACHED_GOAL /\
  Nav.current_path v' = [] /\
  Nav.wire_log v' = Nav.wire_log v ++ [("S"%string, net (length (Nav.wire_log v)))].
Proof.
  intros Hclear Hgoal. split.
  - rewrite Hgoal. now apply RouteFacts.plan_path_own_cell.
  - cbv zeta. unfold Nav.path_planning_succeeded. cbv zeta.
    unfold Nav.goal_is. cbn [Nav.navigation_goal_cell Nav.set_current_path
                              Nav.current_logical_robot_cell_on_path].
    rewrite Hgoal, (proj2 (PathFacts.cell_eqb_eq _ _) eq_refl).
    pose proof (NavInvariants.send_stop_reached net
                  (Nav.set_navigation_state Nav.NAV_STATE_REACHED_GOAL
                     (Nav.set_current_path [] v)) eq_refl) as H.
    exact H.
Qed.

Lemma goal_on_the_robot_cell_is_reached_at_once_witness :
  let v := Nav.run (fun x => x) (fun x => x) quadrant_sin quadrant_cos NavSpec.net_down
             [Nav.ToggleConnection true true; Nav.MapClick false 40 40]
             Nav.init_viewer in
  Nav.navigation_state (Nav.path_planning_succeeded NavSpec.net_down [] v)
  = Nav.NAV_STATE_REACHED_GOAL.
Proof.
  cbv zeta.
  refine (proj1 (proj2 (goal_on_the_robot_cell_is_reached_at_once NavSpec.net_down zeros
                          _ _ _))); vm_compute; reflexivity.
Defined.

(** ** The program on the robot *)


(** X13: the front detection reports a point of the front cone that is
    nearer than the stop distance, with its angle and [points = 1]: it is
    nearer than every such point before it in the scan and no such point
    after it is nearer, so it is the nearest and, among equally near points,
    the first.  The two arrays then have the same length.  It reports nothing
    exactly when there is no such point, or when the two arrays differ in
    length. *)
Theorem front_detection_reports_the_closest_point
    (fl degrees : Q -> Q) (angles distances : list Q) :
  let scan := combine angles distances in
  match CarControl.detect_objects_in_front_path fl degrees angles distances with
  | Some details =>
      length angles = length distances /\
      CarControl.points details = 1 /\
      exists before angle after,
        scan = before ++ (angle, CarControl.avg_dist details) :: after /\
        CarSpec.in_the_way fl degrees (angle, CarControl.avg_dist details) = true /\
        CarControl.avg_angle details = float_mod fl (degrees angle) 360 /\
        Forall (fun p => CarSpec.in_the_way fl degrees p = true ->
                         (CarControl.avg_dist details < p.2)%Q) before /\
        Forall (fun p => CarSpec.in_the_way fl degrees p = true ->
                         (CarControl.avg_dist details <= p.2)%Q) after
  | None =>
      length angles <> length distances \/
      Forall (fun p => CarSpec.in_the_way fl degrees p = false) scan
  end.
Proof.
  cbv zeta. unfold CarControl.detect_objects_in_front_path.
  destruct ((0 <? length angles)%nat && (length angles =? length distances)%nat) eqn:E;
    cbn [negb].
  - pose proof (ScanFacts.detect_points_ok fl degrees (combine angles distances) []
                  (None, None)) as H.
    cbn [app] in H. specialize (H ltac:(constructor)).
    apply andb_prop in E as [_ E]. apply Nat.eqb_eq in E.
    destruct (fold_left _ _ _) as [[closest|] [details|]]; cbn [snd]; cbn in H;
      try contradiction.
    + destruct H as (_ & Hp & Hex). now split.
    + now right.
  - apply andb_false_iff in E as [E | E].
    + right. apply Nat.ltb_ge in E. destruct angles; [constructor | cbn in E; lia].
    + left. now apply Nat.eqb_neq in E.
Qed.

(** X14: the scan iterations, the button handlers and [exit_app] taken one
    at a time.  In every run, F is sent only while the lock that the
    commands sent so far leave is off, K only while it is off and right
    after an S, and [car_locked] is [True] whenever that lock is on.  Until
    [exit_app] runs, U is sent only while locked, the commands follow the
    whole lock protocol and [car_locked] is the lock they leave.  [exit_app]
    sends S and then U whatever the lock and leaves [car_locked] as it is:
    after it the lock the commands leave is off. *)
Theorem commands_follow_the_lock_protocol
    (fl : Q -> Q) (format_1f format_0f : Q -> string) (radians degrees : Q -> Q)
    (socket_ok : bool) (events : list CarControl.event) :
  let s := CarControl.run fl format_1f format_0f radians degrees events
             (CarControl.init_car socket_ok) in
  (forall before after,
     CarControl.commands_sent s = before ++ "F"%string :: after ->
     CarControl.lock_state before = false) /\
  (forall before after,
     CarControl.commands_sent s = before ++ "K"%string :: after ->
     CarControl.lock_state before = false /\ List.last before ""%string = "S"%string) /\
  (CarControl.lock_state (CarControl.commands_sent s) = true ->
   CarControl.car_locked s = true) /\
  (existsb LockSpec.is_exit events = false ->
   CarControl.lock_protocol false "" (CarControl.commands_sent s) = true /\
   CarControl.car_locked s = CarControl.lock_state (CarControl.commands_sent s) /\
   (forall before after,
      CarControl.commands_sent s = before ++ "U"%string :: after ->
      CarControl.lock_state before = true)) /\
  (let s' := CarControl.handle fl format_1f format_0f radians degrees CarControl.ExitApp s in
   CarControl.commands_sent s' = CarControl.commands_sent s ++ ["S"; "U"]%string /\
   CarControl.car_locked s' = CarControl.car_locked s /\
   CarControl.lock_state (CarControl.commands_sent s') = false).
Proof.
  cbv zeta.
  destruct (LockFacts.run_forward_inv fl format_1f format_0f radians degrees events
              (CarControl.init_car socket_ok)) as [Hp Hl];
    [split; [reflexivity | discriminate]|].
  split; [|split; [|split; [exact Hl|split]]].
  - intros before after Hlog. rewrite Hlog in Hp.
    apply LockFacts.forward_protocol_middle in Hp.
    change (negb (CarControl.lock_state before) = true) in Hp.
    now apply negb_true_iff in Hp.
  - intros before after Hlog. rewrite Hlog in Hp.
    apply LockFacts.forward_protocol_middle in Hp.
    change (negb (CarControl.lock_state before)
            && String.eqb (List.last before ""%string) "S" = true) in Hp.
    apply andb_prop in Hp as [H1 H2].
    split; [now apply negb_true_iff in H1 | now apply String.eqb_eq in H2].
  - intros Hexit.
    destruct (LockFacts.run_lock_inv fl format_1f format_0f radians degrees events
                (CarControl.init_car socket_ok) Hexit) as [Hq Hs]; [now split|].
    split; [exact Hq|]. split; [exact Hs|].
    intros before after Hlog. rewrite Hlog in Hq.
    apply LockFacts.lock_protocol_middle in Hq.
    now rewrite LockFacts.lock_allows_unlock in Hq.
  - apply LockFacts.exit_app_commands.
Qed.

Lemma commands_follow_the_lock_protocol_witness :
  let s := CarControl.run binary64 StreamSpec.sample_format_1f StreamSpec.sample_format_0f
             (fun x => x) (fun x => x)
             [CarControl.ScanProcessed 1 LockSpec.blocked_scan; CarControl.ForwardPressed true]
             (CarControl.init_car true) in
  let s' := CarControl.handle binary64 StreamSpec.sample_format_1f
              StreamSpec.sample_format_0f (fun x => x) (fun x => x) CarControl.ExitApp s in
  CarControl.commands_sent s = ["S"; "K"]%string /\
  CarControl.car_locked s = CarControl.lock_state (CarControl.commands_sent s) /\
  CarControl.commands_sent s' = ["S"; "K"; "S"; "U"]%string /\
  CarControl.car_locked s' = true /\
  CarControl.lock_state (CarControl.commands_sent s') = false.
Proof.
  cbv zeta.
  destruct (commands_follow_the_lock_protocol binary64 StreamSpec.sample_format_1f
              StreamSpec.sample_format_0f (fun x => x) (fun x => x) true
              [CarControl.ScanProcessed 1 LockSpec.blocked_scan; CarControl.ForwardPressed true])
    as (_ & _ & _ & Hrun & Hexit).
  cbv zeta in Hexit. destruct Hexit as (Hc & Hk & Hl).
  destruct (Hrun eq_refl) as (_ & Heq & _).
  split; [vm_compute; reflexivity|]. split; [exact Heq|].
  split; [rewrite Hc; vm_compute; reflexivity|].
  split; [rewrite Hk; vm_compute; reflexivity | exact Hl].
Defined.

(** X15: the streamer sends at most 90 points in a datagram, in the order
    of the scan; each comes from a measurement of quality 10 or more and
    positive distance, with the distance capped at 4000, so each distance is
    in (0, 4000].  The datagram carries the distance written with no
    decimals: when the text reads back as the nearest whole number, a tie
    going to the even one, the viewer reads a distance between 0 and 4000
    and its range gate rejects the point exactly when the streamed distance
    is at most a half, which is written "0".  A datagram is handed to the
    socket only when streaming is on, some point qualifies and the send
    interval has passed since [last_udp_send_time], which is then set to the
    current time. *)
Theorem streamed_points_and_the_viewer_gate (raw : list (Z * Q * Q)) :
  (length (CarControl.selected_points raw) <= 90)%nat /\
  CarControl.selected_points raw = take 90 (CarControl.points_to_send raw) /\
  Forall (fun p =>
            (0 < p.2 /\ p.2 <= 4000)%Q /\
            (exists quality dist_mm,
               (quality, p.1, dist_mm) ∈ raw /\ 10 <= quality /\ (0 < dist_mm)%Q /\
               p.2 = py_min dist_mm 4000) /\
            (forall py_float format_1f format_0f angle,
               StreamSpec.clean_fields format_1f format_0f p ->
               py_float (format_1f p.1) = Some angle ->
               py_float (format_0f p.2) = Some (inject_Z (round_half_even p.2)) ->
               Wire.parse_point py_float (StreamSpec.point_field format_1f format_0f p)
               = Reading angle (inject_Z (round_half_even p.2)) /\
               0 <= round_half_even p.2 <= 4000 /\
               forall fl sin_deg cos_deg heading,
                 classify_point fl sin_deg cos_deg heading
                   (Reading angle (inject_Z (round_half_even p.2))) = RejectedRange
                 <-> (p.2 <= 1 # 2)%Q))
         (CarControl.selected_points raw) /\
  (forall fl format_1f format_0f current_time s,
     let s' := CarControl.send_lidar_data_udp fl format_1f format_0f current_time raw s in
     CarControl.datagrams_sent s' = CarControl.datagrams_sent s \/
     (CarControl.datagrams_sent s'
      = CarControl.datagrams_sent s
        ++ [CarControl.msg_payload format_1f format_0f (CarControl.selected_points raw)] /\
      CarControl.UDP_STREAM_ENABLED s = true /\
      CarControl.selected_points raw <> [] /\
      (CarControl.udp_send_interval
       <= fl (current_time - CarControl.last_udp_send_time s))%Q /\
      CarControl.last_udp_send_time s' = current_time)).
Proof.
  destruct (StreamFacts.selected_points_spec raw) as [Hlen Hall].
  split; [exact Hlen|]. split; [reflexivity|]. split.
  - eapply Forall_impl; [exact Hall|]. cbn beta.
    intros p (H1 & H2 & Hex). split; [now split|]. split; [exact Hex|].
    intros py_float format_1f format_0f angle Hclean Ha Hd.
    destruct (StreamFacts.round_half_even_streamed p.2 H1 H2) as [Hrange Hzero].
    split; [|split; [exact Hrange|]].
    + rewrite (StreamFacts.parse_point_field py_float format_1f format_0f p Hclean).
      unfold StreamSpec.read_back. now rewrite Ha, Hd.
    + intros fl sin_deg cos_deg heading. rewrite <- Hzero. split.
      * intros Hrej. destruct (Z.eq_dec (round_half_even p.2) 0) as [E | E]; [exact E|].
        exfalso. revert Hrej. apply StreamFacts.classify_point_in_range.
        -- change 0%Q with (inject_Z 0). rewrite <- Zlt_Qlt. lia.
        -- change MAX_LIDAR_RANGE_MM_DISPLAY with (inject_Z 4000). rewrite <- Zle_Qle. lia.
      * intros E. rewrite E. reflexivity.
  - intros fl format_1f format_0f current_time s. cbv zeta.
    unfold CarControl.send_lidar_data_udp.
    destruct (CarControl.UDP_STREAM_ENABLED s) eqn:Een; cbn [negb orb]; [|now left].
    destruct (negb (CarControl.udp_socket s)); [now left|].
    unfold Qltb. destruct (Qlt_le_dec _ _) as [Hlt | Hle]; [now left|].
    destruct (CarControl.points_to_send raw) as [|p rest] eqn:Ep; [now left|].
    right. cbn. split; [reflexivity|]. split; [reflexivity|].
    split; [|split; [exact Hle | reflexivity]].
    unfold CarControl.selected_points. rewrite Ep. discriminate.
Qed.

Lemma streamed_points_and_the_viewer_gate_witness :
  let raw := [(15, 0%Q, 2 # 5); (3, 45%Q, 100%Q); (47, 90%Q, 5000%Q)] in
  CarControl.selected_points raw = [(0%Q, 2 # 5); (90%Q, 4000%Q)] /\
  CarControl.msg_payload StreamSpec.short_format_1f StreamSpec.short_format_0f
    (CarControl.selected_points raw) = "0.0,0;90.0,4000"%string /\
  classify_point binary64 sample_sin sample_cos 0 (Reading 0 (inject_Z (round_half_even (2 # 5))))
  = RejectedRange.
Proof.
  cbv zeta. split; [vm_compute; reflexivity|]. split; [vm_compute; reflexivity|].
  destruct (streamed_points_and_the_viewer_gate
              [(15, 0%Q, 2 # 5); (3, 45%Q, 100%Q); (47, 90%Q, 5000%Q)]) as (_ & _ & H & _).
  change (CarControl.selected_points [(15, 0%Q, 2 # 5); (3, 45%Q, 100%Q); (47, 90%Q, 5000%Q)])
    with [(0%Q, 2 # 5); (90%Q, 4000%Q)] in H.
  apply Forall_cons in H as [(_ & _ & H) _].
  destruct (H StreamSpec.short_float StreamSpec.short_format_1f StreamSpec.short_format_0f
              0%Q) as (_ & _ & Hgate).
  - repeat split.
  - reflexivity.
  - reflexivity.
  - apply Hgate. vm_compute. discriminate.
Defined.

Section StreamerText.

Import Ascii.

(** X16: when the two numbers of every point are written without [';']
    and [','], the viewer splits the text of a datagram back into the points
    the streamer selected, one for one and in order: each is read as the
    pair [float] makes of its two fields, or skipped when [float] refuses
    one. *)
Theorem viewer_reads_what_the_streamer_writes
    (py_float : string -> option Q) (format_1f format_0f : Q -> string)
    (selected : list (Q * Q)) :
  Forall (StreamSpec.clean_fields format_1f format_0f) selected ->
  Wire.parse_packet py_float (CarControl.msg_payload format_1f format_0f selected)
  = map (StreamSpec.read_back py_float format_1f format_0f) selected.
Proof. apply StreamFacts.parse_msg_payload. Qed.

Lemma viewer_reads_what_the_streamer_writes_witness :
  let selected := CarControl.selected_points [(15, 0%Q, 100%Q); (3, 45%Q, 100%Q); (47, 90%Q, 5000%Q)] in
  CarControl.msg_payload StreamSpec.sample_format_1f StreamSpec.sample_format_0f selected
  = "0.0,100;90.0,4000"%string /\
  Wire.parse_packet StreamSpec.sample_float
    (CarControl.msg_payload StreamSpec.sample_format_1f StreamSpec.sample_format_0f selected)
  = [Reading 0 100; Reading 90 4000].
Proof.
  cbv zeta. split; [vm_compute; reflexivity|].
  rewrite viewer_reads_what_the_streamer_writes.
  - vm_compute. reflexivity.
  - repeat constructor.
Defined.

End StreamerText.

(** ** The motion server *)

(** X17: the port [find_arduino_port] returns is a port of the list that
    passed one of its three tests, and it is never the CP2102 adapter of the
    RPLidar (10C4:EA60); a genuine Uno anywhere in the list is preferred to
    every other port; the result is [None] exactly when no port passes a
    test. *)
Theorem arduino_port_is_never_the_lidar_adapter
    (lower : string -> string) (ports : list Arduino.port_info) :
  (forall name,
     Arduino.find_arduino_port lower ports = Some name ->
     exists port,
       port ∈ ports /\ Arduino.device port = name /\ Arduino.is_cp2102 port = false /\
       (Arduino.is_uno port = true \/ Arduino.is_acm port = true \/
        Arduino.is_arduino_like lower port = true)) /\
  (forall port,
     port ∈ ports -> Arduino.is_uno port = true ->
     exists uno, List.find Arduino.is_uno ports = Some uno /\
                 Arduino.find_arduino_port lower ports = Some (Arduino.device uno)) /\
  (Arduino.find_arduino_port lower ports = None <-> ArduinoSpec.no_candidate lower ports).
Proof.
  split; [intros name; apply ArduinoFacts.find_arduino_port_found|].
  split; [intros port; apply ArduinoFacts.find_arduino_port_uno|].
  apply ArduinoFacts.find_arduino_port_none.
Qed.

(** X18: whatever the ports, the device and the clients do, a run of
    [main] writes only the seven command letters F, B, L, R, S, K and U to
    the Arduino; the first thing the Arduino receives, if it receives
    anything, is the stop S of the connection test; and [main] leaves the
    serial port closed. *)
Theorem only_valid_commands_reach_the_arduino
    (upper lower strip : string -> string) (open_ok : string -> bool)
    (write_ok : nat -> bool) (ports : list Arduino.port_info)
    (socket_ok bind_ok : bool) (conns : list Arduino.connection) :
  let c := Arduino.main upper lower strip open_ok write_ok ports socket_ok bind_ok conns in
  Arduino.only_valid_commands c /\
  (ArduinoSpec.received c = [] \/ exists rest, ArduinoSpec.received c = "S"%string :: rest) /\
  ArduinoSpec.closed c.
Proof.
  cbv zeta. unfold Arduino.main.
  pose proof (ArduinoFacts.connect_arduino_valid lower open_ok write_ok None ports
                Arduino.init_controller I) as Hv.
  pose proof (ArduinoFacts.connect_arduino_first lower open_ok write_ok None ports) as Hf.
  destruct (Arduino.connect_arduino lower open_ok write_ok None ports Arduino.init_controller)
    as [ok c]. cbn [snd] in Hv. destruct Hf as [Hconn Hrec].
  destruct ok.
  - split; [|split].
    + now apply ArduinoFacts.cleanup_valid, ArduinoFacts.start_server_valid.
    + right.
      destruct (ArduinoFacts.start_server_prefix upper strip write_ok socket_ok bind_ok conns c)
        as [k1 H1].
      destruct (ArduinoFacts.cleanup_prefix upper write_ok
                  (Arduino.start_server upper strip write_ok socket_ok bind_ok conns c))
        as [k2 H2].
      rewrite H2, H1, Hrec. now eexists.
    + apply ArduinoFacts.cleanup_closed.
  - split; [|split].
    + now apply ArduinoFacts.cleanup_valid.
    + left. rewrite ArduinoFacts.cleanup_received, Hrec.
      destruct (Arduino.arduino c) as [sp|]; [|reflexivity].
      destruct (fst (Arduino.send_command upper write_ok "S" c)) eqn:E.
      * apply ArduinoFacts.send_command_ok in E as [(E & _) _]. congruence.
      * now rewrite andb_false_r.
    + apply ArduinoFacts.cleanup_closed.
Qed.

(** X19: [send_command] returns [True] exactly when the controller is
    connected, its port is open, the upper-cased command is one of the seven
    letters and the write goes through; the Arduino then receives the
    upper-cased command, and in every other case it receives nothing. *)
Theorem send_command_reports_what_it_wrote
    (upper : string -> string) (write_ok : nat -> bool)
    (command : string) (c : Arduino.controller) :
  let '(ok, c') := Arduino.send_command upper write_ok command c in
  (ok = true <->
   ArduinoSpec.ready write_ok c /\ upper command ∈ Arduino.valid_commands) /\
  ArduinoSpec.received c'
  = ArduinoSpec.received c ++ (if ok then [upper command] else []) /\
  Arduino.connected c' = Arduino.connected c.
Proof.
  pose proof (ArduinoFacts.send_command_ok upper write_ok command c) as H1.
  pose proof (ArduinoFacts.send_command_received upper write_ok command c) as H2.
  pose proof (ArduinoFacts.send_command_connected upper write_ok command c) as H3.
  destruct (Arduino.send_command upper write_ok command c) as [ok c']. now split.
Qed.

(** X20: [cleanup] leaves the serial port closed; a port that was open and
    ready gets the stop S as its last command before it is closed.  A second
    [cleanup], as [main] runs one after [start_server], changes nothing, and
    after [cleanup] every [send_command] returns [False] and nothing reaches
    the Arduino any more. *)
Theorem cleanup_stops_and_closes
    (upper : string -> string) (write_ok : nat -> bool) (c : Arduino.controller) :
  let c' := Arduino.cleanup upper write_ok c in
  ArduinoSpec.closed c' /\
  Arduino.cleanup upper write_ok c' = c' /\
  (forall command,
     fst (Arduino.send_command upper write_ok command c') = false /\
     ArduinoSpec.received (snd (Arduino.send_command upper write_ok command c'))
     = ArduinoSpec.received c') /\
  (upper "S"%string = "S"%string -> ArduinoSpec.ready write_ok c ->
   ArduinoSpec.received c' = ArduinoSpec.received c ++ ["S"%string]) /\
  (ArduinoSpec.closed c -> ArduinoSpec.received c' = ArduinoSpec.received c).
Proof.
  cbv zeta. pose proof (ArduinoFacts.cleanup_closed upper write_ok c) as Hc.
  split; [exact Hc|]. split; [|split; [|split]].
  - apply ArduinoFacts.cleanup_fixed; [exact Hc | apply ArduinoFacts.cleanup_socket].
  - intros command.
    pose proof (ArduinoFacts.send_command_closed upper write_ok command _ Hc) as Hf.
    split; [exact Hf|]. now rewrite ArduinoFacts.send_command_received, Hf, app_nil_r.
  - intros Hs Hr. rewrite ArduinoFacts.cleanup_received.
    assert (Hok : fst (Arduino.send_command upper write_ok "S" c) = true).
    { apply ArduinoFacts.send_command_ok. split; [exact Hr|]. rewrite Hs.
      apply ArduinoFacts.stop_is_valid. }
    destruct Hr as (_ & (sp & -> & ->) & _). now rewrite Hok, Hs.
  - intros Hcl. rewrite ArduinoFacts.cleanup_received. unfold ArduinoSpec.closed in Hcl.
    destruct (Arduino.arduino c) as [sp|]; [|now rewrite app_nil_r].
    now rewrite Hcl, app_nil_r.
Qed.

Lemma cleanup_stops_and_closes_witness :
  let c := Arduino.mkController (Some (Arduino.mkSerial "/dev/ttyACM0" true ["S"; "F"]%string))
                                true (Some false) 2 in
  let c' := Arduino.cleanup (fun command => command) (fun _ => true) c in
  ArduinoSpec.received c' = ["S"; "F"; "S"]%string /\ ArduinoSpec.closed c' /\
  Arduino.cleanup (fun command => command) (fun _ => true) c' = c'.
Proof.
  cbv zeta.
  destruct (cleanup_stops_and_closes (fun command => command) (fun _ => true)
              (Arduino.mkController
                 (Some (Arduino.mkSerial "/dev/ttyACM0" true ["S"; "F"]%string))
                 true (Some false) 2)) as (Hc & Hi & _ & Hs & _).
  split; [|split; [exact Hc | exact Hi]].
  apply Hs; [reflexivity|]. split; [reflexivity|]. split; [|reflexivity].
  eexists. split; reflexivity.
Defined.

(** ** The three programs together *)

(** X21: when [upper] and [strip] leave the seven command letters as they
    are, every command the viewer puts on the wire, and every command the
    program on the robot sends, is one the motion server hands on unchanged:
    a server that is ready takes it, writes exactly that letter to the
    Arduino and goes on serving. *)
Theorem clients_commands_are_relayed
    (upper strip : string -> string) (write_ok : nat -> bool) :
  ArduinoSpec.fixes_commands upper -> ArduinoSpec.fixes_commands strip ->
  (forall rnd fl sin_deg cos_deg net v command result,
     Nav.reachable rnd fl sin_deg cos_deg net v ->
     (command, result) ∈ Nav.wire_log v ->
     ArduinoSpec.relayed upper strip write_ok command) /\
  (forall fl format_1f format_0f radians degrees socket_ok events command,
     command ∈ CarControl.commands_sent
                 (CarControl.run fl format_1f format_0f radians degrees events
                    (CarControl.init_car socket_ok)) ->
     ArduinoSpec.relayed upper strip write_ok command).
Proof.
  intros Hu Hs. split.
  - intros rnd fl sin_deg cos_deg net v command result Hv Hin.
    apply RelayFacts.valid_command_relayed; [exact Hu | exact Hs|].
    apply RelayFacts.viewer_commands_valid.
    pose proof (NavInvariants.reachable_wire_alphabet rnd fl sin_deg cos_deg net v Hv) as Ha.
    rewrite Forall_forall in Ha. exact (Ha _ Hin).
  - intros fl format_1f format_0f radians degrees socket_ok events command Hin.
    apply RelayFacts.valid_command_relayed; [exact Hu | exact Hs|].
    pose proof (RelayFacts.run_commands_valid fl format_1f format_0f radians degrees events
                  (CarControl.init_car socket_ok) ltac:(constructor)) as Ha.
    rewrite Forall_forall in Ha. exact (Ha _ Hin).
Qed.

Lemma clients_commands_are_relayed_witness :
  ArduinoSpec.fixes_commands (fun command => command) /\
  CarControl.commands_sent
    (CarControl.run (fun x => x) StreamSpec.sample_format_1f StreamSpec.sample_format_0f
       (fun x => x) (fun x => x) [CarControl.ForwardPressed true] (CarControl.init_car true))
  = ["F"%string] /\
  ArduinoSpec.relayed (fun command => command) (fun command => command) (fun _ => true)
    "F"%string.
Proof.
  assert (Hid : ArduinoSpec.fixes_commands (fun command => command))
    by (unfold ArduinoSpec.fixes_commands, Arduino.valid_commands; repeat constructor).
  split; [exact Hid|]. split; [reflexivity|].
  destruct (clients_commands_are_relayed (fun command => command) (fun command => command)
              (fun _ => true) Hid Hid) as [_ H].
  apply (H (fun x => x) StreamSpec.sample_format_1f StreamSpec.sample_format_0f
           (fun x => x) (fun x => x) true [CarControl.ForwardPressed true] "F"%string).
  apply elem_of_cons. now left.
Defined.
